(** * Cipher toolkit and Caesar breaker: a shallow embedding

    The development models [ciphers.py] and [caesar_breaker.py].

    - Python [int] is [Z]; [//] and [%] are [Z.div] and [Z.modulo] (both
      floor, the remainder has the sign of the divisor).
    - Python [str] is a list of Unicode code points; the classification of
      the ASCII range is written out, the rest of the character database is
      a parameter ([Unicode]).
    - Python [float] is IEEE-754 binary64, here the primitive [float].
    - Exceptions are values of [exn], fallible code returns [result].
    - A [dict] is an association list in insertion order.
    - [print] calls are not modelled: that a function which prints raises
      nothing is stated for ASCII texts, which are printed without error. *)

From Stdlib Require Import ZArith List Bool Lia Permutation Znumtheory Zmod.
From Stdlib Require Import String Ascii Floats.
Import ListNotations.

#[local] Set Warnings "-inexact-float".
#[local] Open Scope Z_scope.

(* ===================================================================== *)
(** * Part I: the model                                                   *)
(* ===================================================================== *)

(** ** Python values *)

Module Py.

Definition uchar := Z.
Definition str := list uchar.

Definition ord (c : uchar) : Z := c.

(** [chr i] raises [ValueError] outside [range(0x110000)]; every call in
    the modelled code has its argument in [65..122], see [chr_arg_range]. *)
Definition chr (i : Z) : uchar := i.

Inductive exn : Set :=
| KeyError
| ValueError
| ZeroDivisionError
| IndexError
| UnicodeEncodeError
| UnicodeDecodeError.

Inductive result (A : Type) : Type :=
| Ok (a : A)
| Raise (e : exn).

Arguments Ok {A} a.
Arguments Raise {A} e.

Definition bind {A B} (r : result A) (k : A -> result B) : result B :=
  match r with
  | Ok a => k a
  | Raise e => Raise e
  end.

Notation "x <- r ;; k" := (bind r (fun x => k))
  (at level 61, r at next level, right associativity).

(** The character database outside ASCII, as CPython's [str] methods see it:
    the predicates on a code point of 128 or more, and the case conversions
    of a string that has such a code point (they are not characterwise:
    sharp s grows, a final sigma depends on its context). *)
Class Unicode : Type := {
  ucd_isupper : uchar -> bool;
  ucd_islower : uchar -> bool;
  ucd_isalpha : uchar -> bool;
  ucd_isdigit : uchar -> bool;
  ucd_isspace : uchar -> bool;
  ucd_upper : str -> str;
  ucd_lower : str -> str
}.

Definition between (lo hi c : Z) : bool := (lo <=? c) && (c <=? hi).

Definition is_ascii (c : uchar) : bool := between 0 127 c.
Definition ascii_isupper (c : uchar) : bool := between 65 90 c.
Definition ascii_islower (c : uchar) : bool := between 97 122 c.
Definition ascii_isalpha (c : uchar) : bool := ascii_isupper c || ascii_islower c.
Definition ascii_isdigit (c : uchar) : bool := between 48 57 c.
Definition ascii_isspace (c : uchar) : bool :=
  between 9 13 c || between 28 32 c.
Definition ascii_upper (c : uchar) : uchar :=
  if ascii_islower c then c - 32 else c.
Definition ascii_lower (c : uchar) : uchar :=
  if ascii_isupper c then c + 32 else c.

Section Database.
Context {U : Unicode}.

Definition isupper (c : uchar) : bool :=
  if is_ascii c then ascii_isupper c else ucd_isupper c.
Definition islower (c : uchar) : bool :=
  if is_ascii c then ascii_islower c else ucd_islower c.
Definition isalpha (c : uchar) : bool :=
  if is_ascii c then ascii_isalpha c else ucd_isalpha c.
Definition isspace (c : uchar) : bool :=
  if is_ascii c then ascii_isspace c else ucd_isspace c.
Definition char_isdigit (c : uchar) : bool :=
  if is_ascii c then ascii_isdigit c else ucd_isdigit c.

(** [s.isdigit()]: at least one character, and digits only. *)
Definition isdigit (s : str) : bool :=
  match s with
  | [] => false
  | _ => forallb char_isdigit s
  end.

Definition upper (s : str) : str :=
  if forallb is_ascii s then map ascii_upper s else ucd_upper s.
Definition lower (s : str) : str :=
  if forallb is_ascii s then map ascii_lower s else ucd_lower s.

(** [s.split()]: maximal runs of non-whitespace characters. [word] is the
    run being read, in reverse. *)
Fixpoint split_aux (word : str) (s : str) : list str :=
  match s with
  | [] => match word with [] => [] | _ => [rev word] end
  | c :: s' =>
      if isspace c
      then match word with
           | [] => split_aux [] s'
           | _ => rev word :: split_aux [] s'
           end
      else split_aux (c :: word) s'
  end.

Definition split (s : str) : list str := split_aux [] s.

End Database.

(** [s.rstrip('X')] for a one-character argument. *)
Fixpoint rstrip (x : uchar) (s : str) : str :=
  match s with
  | [] => []
  | c :: s' =>
      match rstrip x s' with
      | [] => if c =? x then [] else [c]
      | t => c :: t
      end
  end.

Definition len {A} (l : list A) : Z := Z.of_nat (List.length l).

(** [range(n)] *)
Definition range (n : nat) : list Z := map Z.of_nat (seq 0 n).

Definition str_eqb (a b : str) : bool :=
  if list_eq_dec Z.eq_dec a b then true else false.

(** [l[i]] and [l[i] = v] for [0 <= i] (no call of the modelled code passes
    a negative index): [IndexError] from [len(l)] on. *)
Definition getitem {A} (l : list A) (i : Z) : result A :=
  match nth_error l (Z.to_nat i) with
  | Some a => Ok a
  | None => Raise IndexError
  end.

Fixpoint setitem_nat {A} (l : list A) (i : nat) (v : A) : result (list A) :=
  match l, i with
  | [], _ => Raise IndexError
  | _ :: l', O => Ok (v :: l')
  | a :: l', S i' => l'' <- setitem_nat l' i' v ;; Ok (a :: l'')
  end.

Definition setitem {A} (l : list A) (i : Z) (v : A) : result (list A) :=
  setitem_nat l (Z.to_nat i) v.

(** A comprehension or an appending loop whose body can raise. *)
Fixpoint for_each {A B} (f : A -> result B) (l : list A) : result (list B) :=
  match l with
  | [] => Ok []
  | a :: l' => b <- f a ;; bs <- for_each f l' ;; Ok (b :: bs)
  end.

(** [sorted(l, key=key)] where keys are compared by [lt]: the stable sort,
    which is what CPython's sort returns whenever [lt] orders the keys of
    [l] (a strict weak order). An element goes before the first one whose
    key is not smaller than its own. *)
Fixpoint insert_sorted {A K} (lt : K -> K -> bool) (key : A -> K)
  (x : A) (l : list A) : list A :=
  match l with
  | [] => [x]
  | y :: l' =>
      if lt (key y) (key x) then y :: insert_sorted lt key x l'
      else x :: y :: l'
  end.

Definition sorted {A K} (lt : K -> K -> bool) (key : A -> K) (l : list A)
  : list A :=
  fold_right (insert_sorted lt key) [] l.

(** [enumerate(l)] *)
Definition enumerate {A} (l : list A) : list (Z * A) :=
  combine (range (List.length l)) l.

(** [l.index(x)]: the first position of [x]; every call of the modelled
    code looks up an element of the list, so [ValueError] is not raised. *)
Fixpoint index (l : list Z) (x : Z) : Z :=
  match l with
  | [] => 0
  | y :: l' => if y =? x then 0 else 1 + index l' x
  end.

(** [str(n)] for [n >= 0]: the decimal digits. *)
Fixpoint digits (fuel : nat) (n : Z) (acc : str) : str :=
  match fuel with
  | O => acc
  | S fuel' =>
      let acc := (48 + n mod 10) :: acc in
      if n / 10 =? 0 then acc else digits fuel' (n / 10) acc
  end.

Definition str_of_int (n : Z) : str :=
  digits (S (Z.to_nat (Z.log2 n))) n [].

(** [math.ceil(a / b)] for [a >= 0], exact as long as [a < 2^53] (the
    quotient is computed in floating point). *)
Definition ceil_div (a b : Z) : result Z :=
  if b =? 0 then Raise ZeroDivisionError else Ok ((a + b - 1) / b).

(** [a % b] on integers. *)
Definition int_mod (a b : Z) : result Z :=
  if b =? 0 then Raise ZeroDivisionError else Ok (a mod b).

(** [sep.join(l)] *)
Fixpoint join (sep : str) (l : list str) : str :=
  match l with
  | [] => []
  | s :: l' =>
      match l' with
      | [] => s
      | _ => s ++ sep ++ join sep l'
      end
  end.

(** [float(n)]: the nearest binary64 number, ties to even. (CPython raises
    [OverflowError] from [2^1024] on; the integers of the modelled code
    are counts of characters of a [str], below [2^63].) *)
Definition float_of_int (n : Z) : float :=
  SF2Prim (binary_normalize prec emax n 0 false).

(** [x / y] on floats. *)
Definition float_truediv (x y : float) : result float :=
  if (y =? 0)%float then Raise ZeroDivisionError else Ok (x / y)%float.

(** [a / b] on integers; the quotient of the two conversions is the
    correctly rounded quotient as long as both are below [2^53]. *)
Definition int_truediv (a b : Z) : result float :=
  if b =? 0 then Raise ZeroDivisionError
  else Ok (float_of_int a / float_of_int b)%float.

(** [x ** 2]. (CPython raises [OverflowError] when the square overflows,
    from [|x|] about [1.3e154] on, which differences of counts do not
    reach.) *)
Definition float_square (x : float) : float := (x * x)%float.

(** A [dict] with string keys and values, in insertion order: [d[k]],
    [d[k] = v] (a key that is present keeps its place) and [d.items()]. *)
Definition dict := list (str * str).

Fixpoint dict_get (d : dict) (k : str) : result str :=
  match d with
  | [] => Raise KeyError
  | (k', v) :: d' => if str_eqb k' k then Ok v else dict_get d' k
  end.

Fixpoint dict_set (d : dict) (k v : str) : dict :=
  match d with
  | [] => [(k, v)]
  | (k', v') :: d' =>
      if str_eqb k' k then (k', v) :: d' else (k', v') :: dict_set d' k v
  end.

Definition items (d : dict) : list (str * str) := d.

(** A string literal, one code point per byte (ASCII literals only). *)
Fixpoint lit (s : string) : str :=
  match s with
  | EmptyString => []
  | String a s' => Z.of_nat (nat_of_ascii a) :: lit s'
  end.

(** [pow(base, exp, mod)] by repeated squaring, for [0 <= exp] and
    [0 < mod] (CPython computes a modular inverse for a negative [exp] and
    raises [ValueError] for [mod = 0]; no call of the modelled code that the
    theorems reach does either). [pow_spec] relates it to [Z.pow]. *)
Fixpoint pow_pos (base : Z) (exp : positive) (modulus : Z) : Z :=
  match exp with
  | xH => base mod modulus
  | xO exp' =>
      let h := pow_pos base exp' modulus in (h * h) mod modulus
  | xI exp' =>
      let h := pow_pos base exp' modulus in (h * h * base) mod modulus
  end.

Definition pow (base exp modulus : Z) : Z :=
  match exp with
  | Z0 => 1 mod modulus
  | Zpos e => pow_pos base e modulus
  | Zneg _ => 0
  end.

(** [bytes(ints)]: [ValueError] unless every value is in [range(256)]. *)
Definition bytes (ints : list Z) : result (list Z) :=
  if forallb (between 0 255) ints then Ok ints else Raise ValueError.

(** [s.encode('utf-8')]: a surrogate cannot be encoded. *)
Definition utf8_encode_char (c : uchar) : result (list Z) :=
  if c <? 128 then Ok [c]
  else if c <? 2048 then Ok [192 + c / 64; 128 + c mod 64]
  else if between 55296 57343 c then Raise UnicodeEncodeError
  else if c <? 65536 then
    Ok [224 + c / 4096; 128 + (c / 64) mod 64; 128 + c mod 64]
  else
    Ok [240 + c / 262144; 128 + (c / 4096) mod 64;
        128 + (c / 64) mod 64; 128 + c mod 64].

Fixpoint utf8_encode (s : str) : result (list Z) :=
  match s with
  | [] => Ok []
  | c :: s' =>
      b <- utf8_encode_char c ;;
      bs <- utf8_encode s' ;;
      Ok (b ++ bs)
  end.

Definition continuation (b : Z) : bool := between 128 191 b.

(** [b.decode('utf-8')], strict: shortest form only, no surrogate, nothing
    above U+10FFFF. *)
Fixpoint utf8_decode (b : list Z) : result str :=
  match b with
  | [] => Ok []
  | b0 :: t0 =>
      if between 0 127 b0 then
        s <- utf8_decode t0 ;; Ok (b0 :: s)
      else
        match t0 with
        | b1 :: t1 =>
            if between 194 223 b0 then
              if continuation b1 then
                s <- utf8_decode t1 ;;
                Ok ((b0 - 192) * 64 + (b1 - 128) :: s)
              else Raise UnicodeDecodeError
            else
              match t1 with
              | b2 :: t2 =>
                  if between 224 239 b0 then
                    if continuation b1 && continuation b2
                       && negb ((b0 =? 224) && (b1 <? 160))
                       && negb ((b0 =? 237) && (159 <? b1))
                    then
                      s <- utf8_decode t2 ;;
                      Ok ((b0 - 224) * 4096 + (b1 - 128) * 64 + (b2 - 128) :: s)
                    else Raise UnicodeDecodeError
                  else
                    match t2 with
                    | b3 :: t3 =>
                        if between 240 244 b0 && continuation b1
                           && continuation b2 && continuation b3
                           && negb ((b0 =? 240) && (b1 <? 144))
                           && negb ((b0 =? 244) && (143 <? b1))
                        then
                          s <- utf8_decode t3 ;;
                          Ok ((b0 - 240) * 262144 + (b1 - 128) * 4096
                              + (b2 - 128) * 64 + (b3 - 128) :: s)
                        else Raise UnicodeDecodeError
                    | [] => Raise UnicodeDecodeError
                    end
              | [] => Raise UnicodeDecodeError
              end
        | [] => Raise UnicodeDecodeError
        end
  end.

(** CPython's database on the code points below 256 (Latin-1); above them
    this instance classifies nothing and converts nothing. It serves to run
    the model on Latin-1 texts. *)
Definition latin1_isupper (c : uchar) : bool :=
  between 192 214 c || between 216 222 c.
Definition latin1_islower (c : uchar) : bool :=
  (c =? 170) || (c =? 181) || (c =? 186) || between 223 246 c || between 248 255 c.
Definition latin1_isalpha (c : uchar) : bool :=
  latin1_isupper c || latin1_islower c.
Definition latin1_upper_char (c : uchar) : str :=
  if ascii_islower c then [c - 32]
  else if c =? 181 then [924]
  else if c =? 223 then [83; 83]
  else if c =? 255 then [376]
  else if (between 224 254 c) && negb (c =? 247) then [c - 32]
  else [c].
Definition latin1_lower_char (c : uchar) : str :=
  if ascii_isupper c then [c + 32]
  else if latin1_isupper c then [c + 32]
  else [c].

Definition latin1 : Unicode := {|
  ucd_isupper := latin1_isupper;
  ucd_islower := latin1_islower;
  ucd_isalpha := latin1_isalpha;
  ucd_isdigit := fun c => (c =? 178) || (c =? 179) || (c =? 185);
  ucd_isspace := fun c => (c =? 133) || (c =? 160);
  ucd_upper := flat_map latin1_upper_char;
  ucd_lower := flat_map latin1_lower_char
|}.

End Py.

Import Py.

(** ** ciphers.py *)

Module Ciphers.

(** *** RSA *)

(** [while d % 2 == 0: r += 1; d //= 2]. Each turn halves [d], so
    [log2 d + 1] turns are enough for [d > 0] ([decompose_spec]). *)
Fixpoint decompose (fuel : nat) (r d : Z) : Z * Z :=
  match fuel with
  | O => (r, d)
  | S fuel' =>
      if d mod 2 =? 0 then decompose fuel' (r + 1) (d / 2) else (r, d)
  end.

(** The inner [for _ in range(r - 1)] loop: [true] when it meets [n - 1]
    and breaks, [false] when it runs to its [else] branch. *)
Fixpoint squarings (count : nat) (x n : Z) : bool :=
  match count with
  | O => false
  | S count' =>
      let x := pow x 2 n in
      if x =? n - 1 then true else squarings count' x n
  end.

(** One turn of the witness loop for the base [a]: [false] is
    [return False]. *)
Definition round_passes (r d n a : Z) : bool :=
  let x := pow a d n in
  if (x =? 1) || (x =? n - 1) then true
  else squarings (Z.to_nat (r - 1)) x n.

Fixpoint witness_loop (bases : list Z) (r d n : Z) : bool :=
  match bases with
  | [] => true
  | a :: bases' =>
      if round_passes r d n a then witness_loop bases' r d n else false
  end.

(** [is_prime(n, k)]; [draw i] is what the [i]-th call of
    [random.randrange(2, n - 1)] returns. *)
Definition is_prime (draw : nat -> Z) (n : Z) (k : nat) : bool :=
  if n <? 2 then false
  else if (n =? 2) || (n =? 3) then true
  else if n mod 2 =? 0 then false
  else
    let '(r, d) := decompose (S (Z.to_nat (Z.log2 (n - 1)))) 0 (n - 1) in
    witness_loop (map draw (seq 0 k)) r d n.

(** [generate_prime(bits)]. The loop goes on until a candidate passes
    [is_prime]; [attempts] lists, turn by turn, what
    [random.getrandbits(bits)] returns and the bases that the call of
    [is_prime] draws. [None]: every listed turn was rejected, the loop is
    still running. *)
Fixpoint generate_prime_loop (attempts : list (Z * (nat -> Z))) (bits : Z)
  : option Z :=
  match attempts with
  | [] => None
  | (num, draw) :: attempts' =>
      let num := Z.lor num (Z.lor (Z.shiftl 1 (bits - 1)) 1) in
      if is_prime draw num 5 then Some num
      else generate_prime_loop attempts' bits
  end.

(** With [bits < 1] the first turn raises [ValueError]: [getrandbits] takes
    no negative number of bits, and [1 << bits - 1] no negative shift
    count. *)
Definition generate_prime (attempts : list (Z * (nat -> Z))) (bits : Z)
  : result (option Z) :=
  if bits <? 1 then Raise ValueError
  else Ok (generate_prime_loop attempts bits).

(** [while b: a, b = b, a % b]. The absolute value of [b] falls at every
    turn, so [|b| + 1] turns are enough ([gcd_spec]). *)
Fixpoint gcd_loop (fuel : nat) (a b : Z) : Z :=
  match fuel with
  | O => a
  | S fuel' => if b =? 0 then a else gcd_loop fuel' b (a mod b)
  end.

Definition gcd (a b : Z) : Z := gcd_loop (S (Z.abs_nat b)) a b.

(** The recursion of [extended_gcd] is on [(b % a, a)]: the absolute
    value of the first argument falls, so depth [|a| + 1] is enough. *)
Fixpoint extended_gcd_rec (fuel : nat) (a b : Z) : Z * Z * Z :=
  match fuel with
  | O => (b, 0, 1)
  | S fuel' =>
      if a =? 0 then (b, 0, 1)
      else
        let '(gcd_val, x1, y1) := extended_gcd_rec fuel' (b mod a) a in
        let x := y1 - (b / a) * x1 in
        let y := x1 in
        (gcd_val, x, y)
  end.

Definition extended_gcd (a b : Z) : Z * Z * Z :=
  extended_gcd_rec (S (Z.abs_nat a)) a b.

Definition mod_inverse (e phi : Z) : result Z :=
  let '(gcd_val, x, _) := extended_gcd e phi in
  if negb (gcd_val =? 1) then Raise ValueError
  else if phi =? 0 then Raise ZeroDivisionError
  else Ok (x mod phi).

(** [e = 3; while gcd(e, phi) != 1: e += 2]. *)
Fixpoint next_exponent (fuel : nat) (e phi : Z) : Z :=
  match fuel with
  | O => e
  | S fuel' =>
      if negb (gcd e phi =? 1) then next_exponent fuel' (e + 2) phi else e
  end.

(** [rsa_generate_keypair] from the point where its two calls of
    [generate_prime] have returned [p] and [q]. For [phi > 0] one of
    [phi + 1] and [phi + 2] is odd and coprime with [phi], so the search
    for [e] ends within [phi] turns. *)
Definition rsa_generate_keypair (p q : Z) : result ((Z * Z) * (Z * Z)) :=
  let n := p * q in
  let phi := (p - 1) * (q - 1) in
  let e := 65537 in
  let e :=
    if negb (gcd e phi =? 1) then next_exponent (Z.to_nat phi) 3 phi else e in
  d <- mod_inverse e phi ;;
  Ok ((e, n), (d, n)).

Definition rsa_encrypt (message : str) (public_key : Z * Z)
  : result (list Z) :=
  let '(e, n) := public_key in
  message_bytes <- utf8_encode message ;;
  Ok (fold_left
        (fun encrypted byte =>
           let encrypted_byte := pow byte e n in
           encrypted ++ [encrypted_byte])
        message_bytes []).

Definition rsa_decrypt (encrypted_message : list Z) (private_key : Z * Z)
  : result str :=
  let '(d, n) := private_key in
  let decrypted_bytes :=
    fold_left
      (fun decrypted_bytes encrypted_byte =>
         let decrypted_byte := pow encrypted_byte d n in
         decrypted_bytes ++ [decrypted_byte])
      encrypted_message [] in
  b <- bytes decrypted_bytes ;;
  utf8_decode b.

Section Text.
Context {U : Unicode}.

(** *** Caesar *)

Definition caesar_encrypt (text : str) (shift : Z) : str :=
  fold_left
    (fun result char =>
       if isupper char then
         result ++ [chr ((ord char + shift - 65) mod 26 + 65)]
       else if islower char then
         result ++ [chr ((ord char + shift - 97) mod 26 + 97)]
       else
         result ++ [char])
    text [].

Definition caesar_decrypt (text : str) (shift : Z) : str :=
  caesar_encrypt text (- shift).

(** *** Vigenere *)

(** The loop variables are [result] and [key_index]. An empty key makes
    [key_index % len(key)] raise [ZeroDivisionError] at the first
    letter. *)
Definition vigenere_encrypt (text key : str) : result str :=
  let key := upper key in
  st <-
    fold_left
      (fun acc char =>
         st <- acc ;;
         let '(result, key_index) := st in
         if isalpha char then
           i <- int_mod key_index (len key) ;;
           k <- getitem key i ;;
           let shift := ord k - 65 in
           if isupper char then
             Ok (result ++ [chr ((ord char + shift - 65) mod 26 + 65)],
                 key_index + 1)
           else
             Ok (result ++ [chr ((ord char + shift - 97) mod 26 + 97)],
                 key_index + 1)
         else
           Ok (result ++ [char], key_index))
      text (Ok ([], 0)) ;;
  Ok (fst st).

Definition vigenere_decrypt (text key : str) : result str :=
  let key := upper key in
  st <-
    fold_left
      (fun acc char =>
         st <- acc ;;
         let '(result, key_index) := st in
         if isalpha char then
           i <- int_mod key_index (len key) ;;
           k <- getitem key i ;;
           let shift := ord k - 65 in
           if isupper char then
             Ok (result ++ [chr ((ord char - shift - 65) mod 26 + 65)],
                 key_index + 1)
           else
             Ok (result ++ [chr ((ord char - shift - 97) mod 26 + 97)],
                 key_index + 1)
         else
           Ok (result ++ [char], key_index))
      text (Ok ([], 0)) ;;
  Ok (fst st).

(** *** Substitution *)

(** [string.ascii_uppercase] as a list of one-character strings. *)
Definition alphabet : list str := map (fun c => [c]) (map (Z.add 65) (range 26)).

(** [shuffled] is the list [random.shuffle] leaves: a permutation of
    [alphabet]. Its length is 26, so no index is out of range. *)
Definition generate_substitution_key (shuffled : list str) : dict :=
  fold_left
    (fun key i =>
       let key := dict_set key (nth i alphabet []) (nth i shuffled []) in
       dict_set key (lower (nth i alphabet [])) (lower (nth i shuffled [])))
    (seq 0 26) [].

Definition substitution_encrypt (text : str) (key : dict) : result str :=
  fold_left
    (fun acc char =>
       result <- acc ;;
       if isalpha char then
         v <- dict_get key [char] ;; Ok (result ++ v)
       else
         Ok (result ++ [char]))
    text (Ok []).

Definition substitution_decrypt (text : str) (key : dict) : result str :=
  let reverse_key :=
    fold_left (fun d kv => dict_set d (snd kv) (fst kv)) (items key) [] in
  fold_left
    (fun acc char =>
       result <- acc ;;
       if isalpha char then
         v <- dict_get reverse_key [char] ;; Ok (result ++ v)
       else
         Ok (result ++ [char]))
    text (Ok []).

(** The display of a key: two header lines (10 is the line feed), then the
    images of A to Z. *)
Definition format_substitution_key (key : dict) : result str :=
  let result := lit "Substitution Key:" ++ [10] in
  let result :=
    result ++ lit "A B C D E F G H I J K L M N O P Q R S T U V W X Y Z"
           ++ [10] in
  letters <- for_each (fun i => dict_get key [chr (65 + i)]) (range 26) ;;
  Ok (result ++ join (lit " ") letters).

(** *** Columnar transposition *)

(** The first lines of both directions: a key that is not a digit string
    is replaced by the ranks of its characters, written in decimal and
    joined. *)
Definition numeric_key (key : str) : str :=
  if negb (isdigit key) then
    let key_order := sorted Z.ltb (fun c => c) key in
    List.concat (map (fun char => str_of_int (index key_order char + 1)) key)
  else key.

Definition transposition_encrypt (text key : str) : result str :=
  let key := numeric_key key in
  let num_cols := len key in
  num_rows <- ceil_div (len text) num_cols ;;
  let text := text ++ repeat 88 (Z.to_nat (num_cols * num_rows - len text)) in
  grid <-
    for_each
      (fun i =>
         for_each (fun j => getitem text (i * num_cols + j))
           (range (Z.to_nat num_cols)))
      (range (Z.to_nat num_rows)) ;;
  let key_order := sorted Z.ltb snd (enumerate key) in
  columns <-
    for_each
      (fun col => for_each (fun row => getitem row (fst col)) grid)
      key_order ;;
  Ok (List.concat columns).

(** The loop that fills the grid, with its two variables [grid] and
    [text_index]. *)
Definition fill_cell (text : str) (col_index : Z)
  (state : result (list (list str) * Z)) (row : Z)
  : result (list (list str) * Z) :=
  st <- state ;;
  let '(grid, text_index) := st in
  c <- getitem text text_index ;;
  line <- getitem grid row ;;
  line <- setitem line col_index [c] ;;
  grid <- setitem grid row line ;;
  Ok (grid, text_index + 1).

Definition transposition_decrypt (text key : str) : result str :=
  let key := numeric_key key in
  let num_cols := len key in
  num_rows <- ceil_div (len text) num_cols ;;
  let grid :=
    map (fun _ => map (fun _ => ([] : str)) (range (Z.to_nat num_cols)))
      (range (Z.to_nat num_rows)) in
  let key_order := sorted Z.ltb snd (enumerate key) in
  let text_index := 0 in
  filled <-
    fold_left
      (fun state col =>
         fold_left (fill_cell text (fst col)) (range (Z.to_nat num_rows)) state)
      key_order (Ok (grid, text_index)) ;;
  let result := List.concat (map (fun row => List.concat row) (fst filled)) in
  Ok (rstrip 88 result).

End Text.

End Ciphers.

(** ** caesar_breaker.py *)

Module CaesarBreaker.

Definition ENGLISH_FREQ : list (str * float) := [
  (lit "E", 12.70); (lit "T", 9.06); (lit "A", 8.17); (lit "O", 7.51);
  (lit "I", 6.97); (lit "N", 6.75); (lit "S", 6.33); (lit "H", 6.09);
  (lit "R", 5.99); (lit "D", 4.25); (lit "L", 4.03); (lit "C", 2.78);
  (lit "U", 2.76); (lit "M", 2.41); (lit "W", 2.36); (lit "F", 2.23);
  (lit "G", 2.02); (lit "Y", 1.97); (lit "P", 1.93); (lit "B", 1.29);
  (lit "V", 0.98); (lit "K", 0.77); (lit "J", 0.15); (lit "X", 0.15);
  (lit "Q", 0.10); (lit "Z", 0.07)
]%float.

Definition FRENCH_FREQ : list (str * float) := [
  (lit "E", 14.72); (lit "A", 7.64); (lit "I", 7.46); (lit "S", 7.95);
  (lit "N", 7.10); (lit "R", 6.55); (lit "T", 7.24); (lit "O", 5.80);
  (lit "L", 5.46); (lit "U", 6.31); (lit "D", 3.67); (lit "C", 3.26);
  (lit "M", 2.97); (lit "P", 3.02); (lit "G", 0.97); (lit "B", 0.90);
  (lit "V", 1.63); (lit "H", 0.74); (lit "F", 1.06); (lit "Q", 1.36);
  (lit "Y", 0.31); (lit "X", 0.39); (lit "J", 0.45); (lit "K", 0.05);
  (lit "W", 0.04); (lit "Z", 0.12)
]%float.

Definition ENGLISH_WORDS : list str := map lit [
  "the"; "be"; "to"; "of"; "and"; "a"; "in"; "that"; "have"; "i";
  "it"; "for"; "not"; "on"; "with"; "he"; "as"; "you"; "do"; "at";
  "this"; "but"; "his"; "by"; "from"; "they"; "we"; "say"; "her"; "she";
  "or"; "an"; "will"; "my"; "one"; "all"; "would"; "there"; "their"; "what";
  "so"; "up"; "out"; "if"; "about"; "who"; "get"; "which"; "go"; "me";
  "when"; "make"; "can"; "like"; "time"; "no"; "just"; "him"; "know"; "take";
  "people"; "into"; "year"; "your"; "good"; "some"; "could"; "them"; "see";
  "other"; "than"; "then"; "now"; "look"; "only"; "come"; "its"; "over";
  "think"; "also"; "back"; "after"; "use"; "two"; "how"; "our"; "work";
  "first"; "well"; "way"; "even"; "new"; "want"; "because"; "any"; "these";
  "give"; "day"; "most"; "us"
]%string.

(** The words with a letter outside ASCII are given by their code points:
    e circumflex is 234, a grave 224, u grave 249. *)
Definition FRENCH_WORDS : list str :=
  map lit [
    "le"; "de"; "un"; "et"; "il"; "avoir"; "ne"; "je";
    "son"; "que"; "se"; "qui"; "ce"; "dans"; "en"; "du"; "elle"; "au";
    "pour"; "pas"; "que"; "vous"; "par"; "sur"; "faire"; "plus"; "dire"; "me";
    "on"; "mon"; "lui"; "nous"; "comme"; "mais"; "pouvoir"; "avec"; "tout";
    "y"; "aller"; "voir"; "en"; "sans"; "bien"; "notre"; "leur"; "dont";
    "autre"
  ]%string
  ++ [[234; 116; 114; 101]; [224]; [111; 249]].

(** [string.ascii_uppercase], letter by letter. *)
Definition ascii_uppercase : list str :=
  map (fun c => [c]) (map (Z.add 65) (range 26)).

(** [freq_table.get(letter, 0)] *)
Fixpoint table_get (table : list (str * float)) (letter : str) : float :=
  match table with
  | [] => 0%float
  | (k, v) :: table' => if str_eqb k letter then v else table_get table' letter
  end.

(** One item of [results]. *)
Record candidate : Type := {
  shift : Z;
  text : str;
  freq_score : float;
  word_count : Z;
  combined_score : float
}.

Section Text.
Context {U : Unicode}.

(** [letter_count] is kept as the list of the counted characters: its
    length is [sum(letter_count.values())] and the occurrences of a letter
    are [letter_count.get(letter, 0)]. *)
Definition calculate_frequency_score (text language : str) : result float :=
  let freq_table :=
    if str_eqb language (lit "english") then ENGLISH_FREQ else FRENCH_FREQ in
  let text_upper := upper text in
  let letter_count := filter isalpha text_upper in
  let total_letters := len letter_count in
  if total_letters =? 0 then Ok infinity
  else
    fold_left
      (fun acc letter =>
         chi_squared <- acc ;;
         percent <- float_truediv (table_get freq_table letter)
                                  (float_of_int 100) ;;
         let expected_freq := (percent * float_of_int total_letters)%float in
         let observed_freq :=
           len (filter (fun c => str_eqb [c] letter) letter_count) in
         if (0 <? expected_freq)%float then
           term <- float_truediv
                     (float_square
                        (float_of_int observed_freq - expected_freq)%float)
                     expected_freq ;;
           Ok (chi_squared + term)%float
         else Ok chi_squared)
      ascii_uppercase (Ok 0%float).

Definition count_dictionary_words (text language : str) : Z :=
  let word_set :=
    if str_eqb language (lit "english") then ENGLISH_WORDS else FRENCH_WORDS in
  let words := split (lower text) in
  let matches :=
    len (filter (fun word => existsb (str_eqb word) word_set) words) in
  matches.

Definition detect_language (text : str) : result str :=
  english_score <- calculate_frequency_score text (lit "english") ;;
  french_score <- calculate_frequency_score text (lit "french") ;;
  Ok (if (english_score <? french_score)%float
      then lit "english" else lit "french").

Definition caesar_decrypt_with_shift (text : str) (shift : Z) : str :=
  fold_left
    (fun result char =>
       if isupper char then
         result ++ [chr ((ord char - shift - 65) mod 26 + 65)]
       else if islower char then
         result ++ [chr ((ord char - shift - 97) mod 26 + 97)]
       else
         result ++ [char])
    text [].

(** The variables of the loop over the shifts: [best_shift], [best_score],
    [best_decryption] and [results]. *)
Definition search_state : Type := Z * float * str * list candidate.

Definition try_shift (encrypted_text language : str)
  (state : result search_state) (shift : Z) : result search_state :=
  st <- state ;;
  let '(best_shift, best_score, best_decryption, results) := st in
  let decrypted := caesar_decrypt_with_shift encrypted_text shift in
  freq_score <- calculate_frequency_score decrypted language ;;
  let word_count := count_dictionary_words decrypted language in
  let combined_score :=
    (freq_score - float_of_int (word_count * 10))%float in
  let results :=
    results ++ [{| shift := shift; text := decrypted;
                   freq_score := freq_score; word_count := word_count;
                   combined_score := combined_score |}] in
  if (combined_score <? best_score)%float then
    Ok (shift, combined_score, decrypted, results)
  else
    Ok (best_shift, best_score, best_decryption, results).

(** Returns [(best_decryption, best_shift, confidence)]. The [0] of the
    branch without words is the float zero it is equal to. *)
Definition break_caesar_frequency (encrypted_text language : str)
  : result (str * Z * float) :=
  st <- fold_left (try_shift encrypted_text language) (range 26)
          (Ok (0, infinity, [], [])) ;;
  let '(best_shift, best_score, best_decryption, results) := st in
  let sorted_results := sorted PrimFloat.ltb combined_score results in
  let words_in_best := split best_decryption in
  confidence <-
    match words_in_best with
    | [] => Ok 0%float
    | _ =>
        first <- getitem sorted_results 0 ;;
        ratio <- int_truediv (word_count first) (len words_in_best) ;;
        Ok (ratio * float_of_int 100)%float
    end ;;
  (* the summary that is printed reads [sorted_results[0]] once more *)
  _ <- getitem sorted_results 0 ;;
  Ok (best_decryption, best_shift, confidence).


Definition break_caesar_brute_force (encrypted_text : str) : list (Z * str) :=
  fold_left
    (fun results shift =>
       let decrypted := caesar_decrypt_with_shift encrypted_text shift in
       results ++ [(shift, decrypted)])
    (range 26) [].

End Text.

End CaesarBreaker.

(** ** protocol.py *)

Module Protocol.
Import Ciphers.

(** The values that the protocol passes to the ciphers. A key is a [str]
    or an [int] (Caesar, Vigenere, transposition), the [dict] of the
    substitution cipher or the pair of RSA; a content is a text or the list
    of integers of RSA; a key on the wire is the list of the items of a
    [dict], the list of the two numbers of an RSA key, or the key itself. *)
Inductive cipher_key : Type :=
| KeyStr (s : str)
| KeyInt (i : Z)
| KeyDict (d : dict)
| KeyPair (exponent modulus : Z).

Inductive content : Type :=
| Text (s : str)
| Blocks (l : list Z).

Inductive wire_key : Type :=
| WireItems (l : list (str * str))
| WireList (l : list Z)
| WireKey (k : cipher_key).

Section Text.
Context {U : Unicode}.

(** [int(s)] for a [str]: what the builtin accepts as an integer literal
    is left open, every property holds whatever it returns or raises. *)
Variable int_of_str : str -> result Z.

(** The dispatch on [cipher_type] is the code's; the calls are modelled
    for the keys and contents of the type that the cipher works on, and
    [None] stands for the others (Python raises [TypeError],
    [AttributeError] or [ValueError] somewhere in the cipher then, or goes
    on with the [repr] of the key). *)
Definition encrypt_message (plaintext cipher_type : str) (key : cipher_key)
  : option (result content) :=
  if str_eqb cipher_type (lit "caesar") then
    match key with
    | KeyStr s =>
        Some (shift <- int_of_str s ;;
              Ok (Text (caesar_encrypt plaintext shift)))
    | KeyInt i => Some (Ok (Text (caesar_encrypt plaintext i)))
    | _ => None
    end
  else if str_eqb cipher_type (lit "vigenere") then
    match key with
    | KeyStr s => Some (c <- vigenere_encrypt plaintext s ;; Ok (Text c))
    | _ => None
    end
  else if str_eqb cipher_type (lit "substitution") then
    match key with
    | KeyDict d => Some (c <- substitution_encrypt plaintext d ;; Ok (Text c))
    | _ => None
    end
  else if str_eqb cipher_type (lit "transposition") then
    match key with
    | KeyStr s => Some (c <- transposition_encrypt plaintext s ;; Ok (Text c))
    | _ => None
    end
  else if str_eqb cipher_type (lit "rsa") then
    match key with
    | KeyPair e n =>
        Some (encrypted <- rsa_encrypt plaintext (e, n) ;;
              Ok (Blocks encrypted))
    | _ => None
    end
  else Some (Ok (Text plaintext)).

Definition decrypt_message (ciphertext : content) (cipher_type : str)
  (key : cipher_key) : option (result content) :=
  if str_eqb cipher_type (lit "caesar") then
    match ciphertext, key with
    | Text c, KeyStr s =>
        Some (shift <- int_of_str s ;; Ok (Text (caesar_decrypt c shift)))
    | Text c, KeyInt i => Some (Ok (Text (caesar_decrypt c i)))
    | _, _ => None
    end
  else if str_eqb cipher_type (lit "vigenere") then
    match ciphertext, key with
    | Text c, KeyStr s => Some (p <- vigenere_decrypt c s ;; Ok (Text p))
    | _, _ => None
    end
  else if str_eqb cipher_type (lit "substitution") then
    match ciphertext, key with
    | Text c, KeyDict d =>
        Some (p <- substitution_decrypt c d ;; Ok (Text p))
    | _, _ => None
    end
  else if str_eqb cipher_type (lit "transposition") then
    match ciphertext, key with
    | Text c, KeyStr s =>
        Some (p <- transposition_decrypt c s ;; Ok (Text p))
    | _, _ => None
    end
  else if str_eqb cipher_type (lit "rsa") then
    match ciphertext, key with
    | Blocks c, KeyPair d n => Some (p <- rsa_decrypt c (d, n) ;; Ok (Text p))
    | _, _ => None
    end
  else Some (Ok ciphertext).

End Text.

(** [format_cipher_key] and [parse_cipher_key]; [None] as above. *)
Definition format_cipher_key (cipher_type : str) (key : cipher_key)
  : option wire_key :=
  if str_eqb cipher_type (lit "substitution") then
    match key with
    | KeyDict d => Some (WireItems (map (fun kv => (fst kv, snd kv)) (items d)))
    | _ => None
    end
  else if str_eqb cipher_type (lit "rsa") then
    match key with
    | KeyPair e n => Some (WireList [e; n])
    | _ => None
    end
  else Some (WireKey key).

Definition parse_cipher_key (cipher_type : str) (key_data : wire_key)
  : option cipher_key :=
  if str_eqb cipher_type (lit "substitution") then
    match key_data with
    | WireItems l =>
        Some (KeyDict (fold_left (fun d kv => dict_set d (fst kv) (snd kv)) l []))
    | _ => None
    end
  else if str_eqb cipher_type (lit "rsa") then
    match key_data with
    | WireList [e; n] => Some (KeyPair e n)
    | _ => None
    end
  else
    match key_data with
    | WireKey k => Some k
    | _ => None
    end.

End Protocol.

(** ** Notions in which the properties are stated and proved *)

Module Notions.
Import Ciphers CaesarBreaker.

(** *** Texts *)

Definition printable (c : uchar) : Prop := 32 <= c <= 126.

Definition ascii_text (text : str) : Prop :=
  Forall (fun c => is_ascii c = true) text.

(** A text of ASCII characters none of which is a letter. *)
Definition letterless (text : str) : Prop :=
  Forall (fun c => is_ascii c = true /\ ascii_isalpha c = false) text.

(** A code point that UTF-8 encodes: in range, and no surrogate. *)
Definition scalar_value (c : uchar) : Prop :=
  0 <= c <= 1114111 /\ ~ 55296 <= c <= 57343.

(** *** Miller-Rabin *)

(** [mr_witness n a]: the base [a] shows [n] composite, i.e. the round of
    [a] ends in [return False]. *)
Definition mr_witness (n a : Z) : bool :=
  let '(r, d) := decompose (S (Z.to_nat (Z.log2 (n - 1)))) 0 (n - 1) in
  negb (round_passes r d n a).

(** [count] numbers from [start], two apart. *)
Fixpoint every_other (start : Z) (count : nat) : list Z :=
  match count with
  | O => []
  | S count' => start :: every_other (start + 2) count'
  end.

(** Trial division by the numbers up to the square root decides primality
    below 10 000. *)
Definition small_divisor_free (n : Z) : bool :=
  forallb (fun k => if k * k <=? n then negb (n mod k =? 0) else true)
    (2 :: every_other 3 49).

Definition odd_candidates : list Z := every_other 5 4998.

(** *** Substitution *)

(** The key under which the inverted map holds [v]: the key of the last
    item of the map whose value is [v]. *)
Fixpoint preimage (key : dict) (v : str) : option str :=
  match key with
  | [] => None
  | (k, v') :: key' =>
      match preimage key' v with
      | Some k' => Some k'
      | None => if str_eqb v' v then Some k else None
      end
  end.

Definition reverse_of (key : dict) : dict :=
  fold_left (fun d kv => dict_set d (snd kv) (fst kv)) (items key) [].

(** No two elements of the list are equal. *)
Fixpoint distinct (l : list str) : bool :=
  match l with
  | [] => true
  | s :: l' => negb (existsb (str_eqb s) l') && distinct l'
  end.

(** *** The grid of the transposition cipher *)

(** The grid as a table of its cells: [num_rows] rows of [num_cols] cells. *)
Definition tabulate {A} (num_rows num_cols : nat) (cell : nat -> nat -> A)
  : list (list A) :=
  map (fun i => map (cell i) (seq 0 num_cols)) (seq 0 num_rows).

(** The column [col] of the text laid out in rows of [num_cols]. *)
Definition column (text : str) (num_cols num_rows col : nat) : str :=
  map (fun i => nth (i * num_cols + col)%nat text 0) (seq 0 num_rows).

(** The cells after the columns [cols] have been filled, one after the
    other, with the characters of [text] from [text_index] on. *)
Fixpoint filled (text : str) (num_rows : nat) (cols : list nat)
  (text_index : nat) (cell : nat -> nat -> str) : nat -> nat -> str :=
  match cols with
  | [] => cell
  | col :: cols' =>
      filled text num_rows cols' (text_index + num_rows)
        (fun i j =>
           if (j =? col)%nat && (i <? num_rows)%nat
           then [nth (text_index + i)%nat text 0]
           else cell i j)
  end.

Section Text.
Context {U : Unicode}.

(** What [caesar_encrypt] does to one character. *)
Definition caesar_char (shift : Z) (char : uchar) : uchar :=
  if isupper char then chr ((ord char + shift - 65) mod 26 + 65)
  else if islower char then chr ((ord char + shift - 97) mod 26 + 97)
  else char.

(** What the Vigenere loops do to a character and to a text when the key
    index is [key_index]; [sign] is 1 to encrypt and -1 to decrypt. *)
Definition vigenere_char (sign : Z) (key : str) (key_index : Z)
  (char : uchar) : uchar :=
  if isalpha char then
    let shift := nth (Z.to_nat (key_index mod len key)) key 0 - 65 in
    if isupper char then (char + sign * shift - 65) mod 26 + 65
    else (char + sign * shift - 97) mod 26 + 97
  else char.

Fixpoint vigenere_text (sign : Z) (key : str) (key_index : Z) (text : str)
  : str :=
  match text with
  | [] => []
  | char :: text' =>
      vigenere_char sign key key_index char
      :: vigenere_text sign key
           (if isalpha char then key_index + 1 else key_index) text'
  end.

(** The loop that both directions share, over the map [d] it looks up. *)
Definition translate_step (d : dict) (acc : result str) (char : uchar)
  : result str :=
  result <- acc ;;
  if isalpha char then v <- dict_get d [char] ;; Ok (result ++ v)
  else Ok (result ++ [char]).

Definition letter_of (d : dict) (char : uchar) : str :=
  if isalpha char then
    match dict_get d [char] with Ok v => v | Raise _ => [] end
  else [char].

(** A map over the 26 letters that is no bijection: A and B both go to B. *)
Definition colliding_key : dict :=
  generate_substitution_key (lit "B" :: tl alphabet).

(** *** The candidates of the breaker *)

Section Candidates.
Variables encrypted_text language : str.

(** The candidate of a shift, as the loop computes it. *)
Definition decrypted (shift : Z) : str :=
  caesar_decrypt_with_shift encrypted_text shift.

Definition chi_squared (shift : Z) : float :=
  match calculate_frequency_score (decrypted shift) language with
  | Ok score => score
  | Raise _ => nan
  end.

Definition words_found (shift : Z) : Z :=
  count_dictionary_words (decrypted shift) language.

Definition score (shift : Z) : float :=
  (chi_squared shift - float_of_int (words_found shift * 10))%float.

Definition candidate_of (shift : Z) : candidate :=
  {| shift := shift; text := decrypted shift;
     freq_score := chi_squared shift; word_count := words_found shift;
     combined_score := score shift |}.

(** What holds of the loop variables once the shifts [done] are tried. *)
Definition searched (done : list Z) (st : search_state) : Prop :=
  let '(best_shift, best_score, best_decryption, results) := st in
  results = map candidate_of done /\
  ((best_shift = 0 /\ best_score = infinity /\ best_decryption = [] /\
    forall i, In i done -> (score i <? infinity)%float = false) \/
   (exists before after,
      done = before ++ best_shift :: after /\
      best_score = score best_shift /\
      best_decryption = decrypted best_shift /\
      (forall i, In i before -> (score best_shift <? score i)%float = true) /\
      (forall i, In i after -> (score i <? score best_shift)%float = false))).

End Candidates.

End Text.

(** The pangram of the spec's fixtures, shifted by 3. *)
Definition pangram : str := lit "WKH TXLFN EURZQ IRA MXPSV RYHU WKH ODCB GRJ".

(** *** Case analysis on the comparison of two floats *)

Ltac sf_cases :=
  repeat match goal with
  | s : bool |- _ => destruct s
  end;
  cbn [SFcompare SFltb SFeqb CompOpp] in *;
  change (PosDef.Pos.compare_cont Eq) with Pos.compare in *;
  repeat match goal with
  | H : context [Z.compare ?x ?y] |- _ =>
      destruct (Z.compare_spec x y); cbn [CompOpp] in *
  | |- context [Z.compare ?x ?y] =>
      destruct (Z.compare_spec x y); cbn [CompOpp] in *
  | H : context [Pos.compare ?x ?y] |- _ =>
      destruct (Pos.compare_spec x y); cbn [CompOpp] in *
  | |- context [Pos.compare ?x ?y] =>
      destruct (Pos.compare_spec x y); cbn [CompOpp] in *
  end;
  try discriminate; try reflexivity; try congruence; try lia.

End Notions.

Import Notions.

(* ===================================================================== *)
(** * Part II: properties                                                 *)
(* ===================================================================== *)

(** ** Loops that append *)

Lemma fold_left_append {A B} (step : list B -> A -> list B) (f : A -> B) :
  (forall r a, step r a = r ++ [f a]) ->
  forall l acc, fold_left step l acc = acc ++ map f l.
Proof.
  intros Hstep l; induction l as [|a l IH]; intros acc; simpl.
  - now rewrite app_nil_r.
  - rewrite IH, Hstep, <- app_assoc. reflexivity.
Qed.

Lemma between_true lo hi c : lo <= c <= hi -> between lo hi c = true.
Proof. unfold between; lia. Qed.

Lemma between_false lo hi c : c < lo \/ hi < c -> between lo hi c = false.
Proof. unfold between; lia. Qed.

Module CaesarTheory.
Import Ciphers CaesarBreaker.

Section Text.
Context {U : Unicode}.

Lemma caesar_encrypt_map text shift :
  caesar_encrypt text shift = map (caesar_char shift) text.
Proof.
  unfold caesar_encrypt.
  rewrite (fold_left_append _ (caesar_char shift)); [reflexivity|].
  intros r c. unfold caesar_char.
  destruct (isupper c); [reflexivity|]. destruct (islower c); reflexivity.
Qed.

Lemma chr_arg_range (x : Z) :
  65 <= x mod 26 + 65 <= 90 /\ 97 <= x mod 26 + 97 <= 122.
Proof. pose proof (Z.mod_pos_bound x 26); lia. Qed.

Lemma caesar_decrypt_with_shift_map text shift :
  caesar_decrypt_with_shift text shift = map (caesar_char (- shift)) text.
Proof.
  unfold caesar_decrypt_with_shift.
  rewrite (fold_left_append _ (caesar_char (- shift))); [reflexivity|].
  intros r c. unfold caesar_char, ord.
  replace (c + - shift - 65) with (c - shift - 65) by lia.
  replace (c + - shift - 97) with (c - shift - 97) by lia.
  destruct (isupper c); [reflexivity|]. destruct (islower c); reflexivity.
Qed.

Lemma printable_ascii c : printable c -> is_ascii c = true.
Proof. unfold printable, is_ascii, between; lia. Qed.

Lemma upper_letter c :
  65 <= c <= 90 -> isupper c = true /\ islower c = false /\ isalpha c = true.
Proof.
  intros H. unfold isupper, islower, isalpha, is_ascii, ascii_isalpha,
    ascii_isupper, ascii_islower.
  rewrite (between_true 0 127), (between_true 65 90), (between_false 97 122)
    by lia. auto.
Qed.

Lemma lower_letter c :
  97 <= c <= 122 -> isupper c = false /\ islower c = true /\ isalpha c = true.
Proof.
  intros H. unfold isupper, islower, isalpha, is_ascii, ascii_isalpha,
    ascii_isupper, ascii_islower.
  rewrite (between_true 0 127), (between_false 65 90), (between_true 97 122)
    by lia. auto.
Qed.

Lemma ascii_other c :
  0 <= c <= 127 -> ~ 65 <= c <= 90 -> ~ 97 <= c <= 122 ->
  isupper c = false /\ islower c = false /\ isalpha c = false.
Proof.
  intros H Hu Hl. unfold isupper, islower, isalpha, is_ascii, ascii_isalpha,
    ascii_isupper, ascii_islower.
  rewrite (between_true 0 127), (between_false 65 90), (between_false 97 122)
    by lia. auto.
Qed.

Lemma shift_undo (base c shift : Z) :
  0 <= c - base < 26 ->
  ((c + shift - base) mod 26 + base + - shift - base) mod 26 + base = c.
Proof.
  intros Hc.
  rewrite (Z.mod_eq (c + shift - base) 26) by lia.
  replace (c + shift - base - 26 * ((c + shift - base) / 26) + base + - shift - base)
    with (c - base + (- ((c + shift - base) / 26)) * 26) by lia.
  rewrite Z.mod_add, Z.mod_small by lia. lia.
Qed.

Lemma caesar_char_upper shift c :
  65 <= c <= 90 -> caesar_char shift c = (c + shift - 65) mod 26 + 65.
Proof.
  intros H. destruct (upper_letter c H) as (Hu & _).
  unfold caesar_char. now rewrite Hu.
Qed.

Lemma caesar_char_lower shift c :
  97 <= c <= 122 -> caesar_char shift c = (c + shift - 97) mod 26 + 97.
Proof.
  intros H. destruct (lower_letter c H) as (Hu & Hl & _).
  unfold caesar_char. now rewrite Hu, Hl.
Qed.

Lemma caesar_char_other shift c :
  isupper c = false -> islower c = false -> caesar_char shift c = c.
Proof. intros Hu Hl. unfold caesar_char. now rewrite Hu, Hl. Qed.

(** One character: the shift is undone, a non-letter is left alone, and a
    letter keeps its case. *)
Lemma caesar_char_printable shift c :
  printable c ->
  caesar_char (- shift) (caesar_char shift c) = c /\
  (isalpha c = false -> caesar_char shift c = c) /\
  isupper (caesar_char shift c) = isupper c /\
  islower (caesar_char shift c) = islower c.
Proof.
  intros Hc. unfold printable in Hc.
  assert (Hcases : 65 <= c <= 90 \/ 97 <= c <= 122 \/
                   (~ 65 <= c <= 90 /\ ~ 97 <= c <= 122)) by lia.
  destruct Hcases as [H|[H|[H1 H2]]].
  - (* an upper-case letter *)
    destruct (upper_letter c H) as (Hu & Hl & Ha).
    pose proof (chr_arg_range (c + shift - 65)) as [Hr _].
    destruct (upper_letter _ Hr) as (Hu' & Hl' & _).
    rewrite (caesar_char_upper shift c H).
    rewrite (caesar_char_upper (- shift) _ Hr), Hu', Hl', Hu, Hl, Ha.
    repeat split; try congruence. apply shift_undo; lia.
  - (* a lower-case letter *)
    destruct (lower_letter c H) as (Hu & Hl & Ha).
    pose proof (chr_arg_range (c + shift - 97)) as [_ Hr].
    destruct (lower_letter _ Hr) as (Hu' & Hl' & _).
    rewrite (caesar_char_lower shift c H).
    rewrite (caesar_char_lower (- shift) _ Hr), Hu', Hl', Hu, Hl, Ha.
    repeat split; try congruence. apply shift_undo; lia.
  - destruct (ascii_other c) as (Hu & Hl & Ha); [lia..|].
    rewrite !(caesar_char_other shift c Hu Hl).
    rewrite (caesar_char_other (- shift) c Hu Hl). auto.
Qed.

(** C1. For a text of printable ASCII characters and any integer shift,
    [caesar_decrypt (caesar_encrypt text shift) shift] is [text]; in the
    ciphertext every non-alphabetic character is unchanged and every letter
    has kept its case. *)
Theorem caesar_roundtrip (text : str) (shift : Z) :
  Forall printable text ->
  caesar_decrypt (caesar_encrypt text shift) shift = text /\
  Forall2
    (fun c c' =>
       (isalpha c = false -> c' = c) /\
       isupper c' = isupper c /\ islower c' = islower c)
    text (caesar_encrypt text shift).
Proof.
  intros Hp. unfold caesar_decrypt. rewrite !caesar_encrypt_map.
  induction Hp as [|c text Hc Hp [IHrt IHcase]]; simpl.
  - split; constructor.
  - destruct (caesar_char_printable shift c Hc) as (Hrt & Hna & Hup & Hlo).
    split.
    + now rewrite Hrt, IHrt.
    + constructor; auto.
Qed.

(** C6. [break_caesar_brute_force] returns 26 pairs, the shifts are
    0, 1, ..., 25 in this order, and the text paired with shift [s] is what
    the cipher module's [caesar_decrypt] returns for [s]; the breaker's own
    decryption agrees with [caesar_decrypt] at every integer shift. *)
Theorem brute_force_all (encrypted_text : str) :
  break_caesar_brute_force encrypted_text =
    map (fun s => (s, caesar_decrypt encrypted_text s)) (range 26) /\
  List.length (break_caesar_brute_force encrypted_text) = 26%nat /\
  map fst (break_caesar_brute_force encrypted_text) = range 26 /\
  (forall s : Z,
     caesar_decrypt_with_shift encrypted_text s =
     caesar_decrypt encrypted_text s).
Proof.
  assert (Hsame : forall s : Z,
             caesar_decrypt_with_shift encrypted_text s =
             caesar_decrypt encrypted_text s).
  { intros s. unfold caesar_decrypt.
    now rewrite caesar_decrypt_with_shift_map, caesar_encrypt_map. }
  assert (Hall : break_caesar_brute_force encrypted_text =
                 map (fun s => (s, caesar_decrypt encrypted_text s)) (range 26)).
  { unfold break_caesar_brute_force.
    rewrite (fold_left_append _
               (fun s => (s, caesar_decrypt encrypted_text s))).
    - reflexivity.
    - intros r s. cbv zeta. now rewrite Hsame. }
  split; [exact Hall|]. split; [|split; [|exact Hsame]].
  - rewrite Hall. now rewrite length_map.
  - rewrite Hall, map_map. apply map_id.
Qed.

End Text.
End CaesarTheory.

(** ** Modular arithmetic: [pow], [gcd], [extended_gcd], [mod_inverse] *)

Module ArithTheory.
Import Ciphers.

Lemma pow_pos_spec (base : Z) (exp : positive) (modulus : Z) :
  pow_pos base exp modulus = base ^ Z.pos exp mod modulus.
Proof.
  induction exp as [exp IH|exp IH|]; simpl pow_pos.
  - rewrite IH, Pos2Z.inj_xI, Z.pow_add_r, Z.pow_twice_r, Z.pow_1_r by lia.
    rewrite (Zmult_mod (_ * _) base), <- (Zmult_mod (base ^ _)).
    now rewrite <- Zmult_mod.
  - rewrite IH, Pos2Z.inj_xO, Z.pow_twice_r. now rewrite <- Zmult_mod.
  - now rewrite Z.pow_1_r.
Qed.

Lemma pow_spec (base exp modulus : Z) :
  0 <= exp -> pow base exp modulus = base ^ exp mod modulus.
Proof.
  intros He. destruct exp as [|e|e]; [reflexivity| |lia].
  apply pow_pos_spec.
Qed.

Lemma gcd_loop_spec (fuel : nat) (a b : Z) :
  0 <= a -> 0 <= b -> (Z.abs_nat b < fuel)%nat ->
  gcd_loop fuel a b = Z.gcd a b.
Proof.
  revert a b; induction fuel as [|fuel IH]; intros a b Ha Hb Hf; [lia|].
  cbn [gcd_loop]. destruct (Z.eqb_spec b 0) as [->|Hb0].
  - rewrite Z.gcd_0_r. lia.
  - pose proof (Z.mod_pos_bound a b ltac:(lia)).
    rewrite IH by lia.
    rewrite Z.gcd_comm, Z.gcd_mod by lia. apply Z.gcd_comm.
Qed.

Lemma gcd_spec (a b : Z) : 0 <= a -> 0 <= b -> gcd a b = Z.gcd a b.
Proof. intros Ha Hb. apply gcd_loop_spec; lia. Qed.

(** The triple of [extended_gcd] is a Bezout triple, for all integers. *)
Lemma extended_gcd_rec_bezout (fuel : nat) (a b : Z) :
  let '(g, x, y) := extended_gcd_rec fuel a b in g = a * x + b * y.
Proof.
  revert a b; induction fuel as [|fuel IH]; intros a b; simpl; [lia|].
  destruct (Z.eqb_spec a 0) as [->|Ha]; [lia|].
  specialize (IH (b mod a) a).
  destruct (extended_gcd_rec fuel (b mod a) a) as [[g x1] y1].
  rewrite IH, (Z.mod_eq b a) by exact Ha. lia.
Qed.

Lemma extended_gcd_rec_gcd (fuel : nat) (a b : Z) :
  0 <= a -> 0 <= b -> (Z.abs_nat a < fuel)%nat ->
  fst (fst (extended_gcd_rec fuel a b)) = Z.gcd a b.
Proof.
  revert a b; induction fuel as [|fuel IH]; intros a b Ha Hb Hf; [lia|].
  cbn [extended_gcd_rec]. destruct (Z.eqb_spec a 0) as [->|Ha0].
  - cbn [fst]. rewrite Z.gcd_0_l. lia.
  - pose proof (Z.mod_pos_bound b a ltac:(lia)).
    specialize (IH (b mod a) a ltac:(lia) ltac:(lia) ltac:(lia)).
    destruct (extended_gcd_rec fuel (b mod a) a) as [[g x1] y1].
    cbn [fst] in *. rewrite IH. now rewrite Z.gcd_mod by lia.
Qed.

Lemma extended_gcd_bezout (a b : Z) :
  let '(g, x, y) := extended_gcd a b in g = a * x + b * y.
Proof. apply extended_gcd_rec_bezout. Qed.

Lemma extended_gcd_gcd (a b : Z) :
  0 <= a -> 0 <= b -> fst (fst (extended_gcd a b)) = Z.gcd a b.
Proof. intros Ha Hb. apply extended_gcd_rec_gcd; lia. Qed.

(** C7. For an exponent [e >= 0] and a modulus [phi > 1]:
    [extended_gcd] returns [(g, x, y)] with [g = a*x + b*y] (for all
    integers [a], [b]); [mod_inverse e phi] raises [ValueError] exactly when
    [gcd(e, phi) <> 1]; and when [gcd(e, phi) = 1] it returns [d] with
    [0 <= d < phi] and [(e * d) mod phi = 1]. *)
Theorem mod_inverse_spec (e phi : Z) :
  0 <= e -> 1 < phi ->
  (forall a b : Z,
     let '(g, x, y) := extended_gcd a b in g = a * x + b * y) /\
  (mod_inverse e phi = Raise ValueError <-> Z.gcd e phi <> 1) /\
  (forall e', mod_inverse e phi = Raise e' -> e' = ValueError) /\
  (Z.gcd e phi = 1 ->
   exists d, mod_inverse e phi = Ok d /\ 0 <= d < phi /\ (e * d) mod phi = 1).
Proof.
  intros He Hphi. split; [exact extended_gcd_bezout|].
  pose proof (extended_gcd_bezout e phi) as Hbez.
  pose proof (extended_gcd_gcd e phi He ltac:(lia)) as Hg.
  unfold mod_inverse.
  destruct (extended_gcd e phi) as [[g x] y]. cbn [fst] in Hg.
  rewrite Hg in *. clear g Hg.
  destruct (Z.eqb_spec (Z.gcd e phi) 1) as [H1|H1]; cbn [negb].
  - destruct (Z.eqb_spec phi 0) as [?|_]; [lia|].
    split; [split; [intros H; discriminate H|intros H; contradiction]|].
    split; [intros e' H; discriminate H|].
    intros _. exists (x mod phi). split; [reflexivity|].
    split; [apply Z.mod_pos_bound; lia|].
    rewrite Z.mul_mod_idemp_r by lia.
    replace (e * x) with (1 + (- y) * phi) by lia.
    rewrite Z.mod_add, Z.mod_small by lia. reflexivity.
  - split; [tauto|]. split; [congruence|]. intros; contradiction.
Qed.

End ArithTheory.

(** ** Miller-Rabin: [is_prime] *)

Module PrimeTheory.
Import Ciphers ArithTheory.

Lemma decompose_spec (fuel : nat) (r d : Z) :
  0 < d -> Z.log2 d < Z.of_nat fuel ->
  let '(r', d') := decompose fuel r d in
  r <= r' /\ d = 2 ^ (r' - r) * d' /\ d' mod 2 = 1.
Proof.
  revert r d; induction fuel as [|fuel IH]; intros r d Hd Hf.
  - pose proof (Z.log2_nonneg d). lia.
  - cbn [decompose]. pose proof (Z.mod_pos_bound d 2 ltac:(lia)) as Hm.
    destruct (Z.eqb_spec (d mod 2) 0) as [H0|H0].
    + assert (Hd2 : d = 2 * (d / 2)).
      { rewrite (Z.div_mod d 2) at 1 by lia. lia. }
      assert (0 < d / 2) by lia.
      assert (Z.log2 d = Z.succ (Z.log2 (d / 2))).
      { rewrite Hd2 at 1. now apply Z.log2_double. }
      specialize (IH (r + 1) (d / 2) ltac:(lia) ltac:(lia)).
      destruct (decompose fuel (r + 1) (d / 2)) as [r' d'].
      destruct IH as (Hr & Hdd & Hodd). repeat split; try lia.
      rewrite Hd2, Hdd.
      replace (r' - r) with (Z.succ (r' - (r + 1))) by lia.
      rewrite Z.pow_succ_r by lia. lia.
    + rewrite Z.sub_diag, Z.pow_0_r. repeat split; lia.
Qed.

(** Modulo a prime, only 1 and -1 square to 1. *)
Lemma sqrt_one (n x : Z) :
  Z.prime n -> 0 <= x < n -> (x * x) mod n = 1 -> x = 1 \/ x = n - 1.
Proof.
  intros Hn Hx Hsq. pose proof (Z.prime_ge_2 _ Hn) as Hn2.
  assert (Hdiv : (n | (x - 1) * (x + 1))).
  { exists (x * x / n). pose proof (Z.div_mod (x * x) n ltac:(lia)). lia. }
  apply (Z.divide_prime_mul _ _ _ Hn) in Hdiv.
  destruct Hdiv as [[c Hc]|[c Hc]].
  - left. assert (c = 0) by nia. lia.
  - right. assert (c = 1) by nia. lia.
Qed.

Lemma pow_2 (x n : Z) : pow x 2 n = (x * x) mod n.
Proof. rewrite pow_spec by lia. now rewrite Z.pow_2_r. Qed.

(** If [x] is not 1 or -1 but its [2^j]-th power is 1 modulo a prime, then
    -1 is met within [j - 1] squarings. *)
Lemma squarings_complete (n : Z) (j : nat) :
  Z.prime n ->
  forall x, 0 <= x < n -> x ^ (2 ^ Z.of_nat j) mod n = 1 ->
       x <> 1 -> x <> n - 1 -> squarings (pred j) x n = true.
Proof.
  intros Hn. pose proof (Z.prime_ge_2 _ Hn) as Hn2.
  induction j as [|j IH]; intros x Hx Hpow H1 Hm1.
  - change (2 ^ Z.of_nat 0) with 1 in Hpow.
    rewrite Z.pow_1_r, Z.mod_small in Hpow by lia. lia.
  - assert (Hy : (x * x mod n) ^ (2 ^ Z.of_nat j) mod n = 1).
    { rewrite Z.mod_pow_l, <- Z.pow_2_r, <- Z.pow_mul_r by lia.
      rewrite <- Hpow. f_equal. f_equal.
      rewrite Nat2Z.inj_succ, Z.pow_succ_r by lia. reflexivity. }
    pose proof (Z.mod_pos_bound (x * x) n ltac:(lia)) as Hyr.
    destruct j as [|j].
    + change (2 ^ Z.of_nat 0) with 1 in Hy.
      rewrite Z.pow_1_r, Z.mod_mod in Hy by lia.
      destruct (sqrt_one n x Hn Hx Hy); lia.
    + cbn [pred squarings]. rewrite pow_2.
      destruct (Z.eqb_spec (x * x mod n) (n - 1)) as [|Hne]; [reflexivity|].
      apply (IH (x * x mod n)); auto.
      intros Hone. destruct (sqrt_one n x Hn Hx Hone); lia.
Qed.

(** A prime passes the round of every base that [randrange(2, n - 1)] can
    return. *)
Lemma round_passes_prime (n r d a : Z) :
  Z.prime n -> 0 <= r -> 0 < d -> n - 1 = 2 ^ r * d -> 2 <= a <= n - 2 ->
  round_passes r d n a = true.
Proof.
  intros Hn Hr Hd Hdec Ha. unfold round_passes.
  rewrite pow_spec by lia.
  pose proof (Z.mod_pos_bound (a ^ d) n ltac:(lia)) as Hx.
  destruct (Z.eqb_spec (a ^ d mod n) 1) as [|H1]; [reflexivity|].
  destruct (Z.eqb_spec (a ^ d mod n) (n - 1)) as [|Hm1]; [reflexivity|].
  cbn [orb].
  replace (Z.to_nat (r - 1)) with (pred (Z.to_nat r))
    by (rewrite <- Z2Nat.inj_pred; f_equal; lia).
  apply squarings_complete; auto.
  rewrite Z.mod_pow_l, <- Z.pow_mul_r, Z2Nat.id by (try apply Z.pow_nonneg; lia).
  rewrite (Z.mul_comm d), <- Hdec.
  apply Z.fermat_nz; [assumption|]. rewrite Z.mod_small; lia.
Qed.

Lemma witness_loop_all (bases : list Z) (r d n : Z) :
  witness_loop bases r d n = forallb (round_passes r d n) bases.
Proof.
  induction bases as [|a bases IH]; [reflexivity|].
  cbn [witness_loop forallb]. rewrite IH.
  destruct (round_passes r d n a); reflexivity.
Qed.

Lemma is_prime_odd (draw : nat -> Z) (n : Z) (k : nat) :
  3 < n -> n mod 2 = 1 ->
  is_prime draw n k =
  forallb (fun a => negb (mr_witness n a)) (map draw (seq 0 k)).
Proof.
  intros Hn Hodd. unfold is_prime, mr_witness.
  destruct (Z.ltb_spec n 2); [lia|].
  destruct (Z.eqb_spec n 2); [lia|]. destruct (Z.eqb_spec n 3); [lia|].
  cbn [orb]. rewrite Hodd. cbn [Z.eqb].
  destruct (decompose _ 0 (n - 1)) as [r d].
  rewrite witness_loop_all.
  induction (map draw (seq 0 k)) as [|a l IH]; [reflexivity|].
  cbn [forallb]. now rewrite IH, negb_involutive.
Qed.

Lemma prime_odd (n : Z) : Z.prime n -> 3 < n -> n mod 2 = 1.
Proof.
  intros [_ Hn] H3. pose proof (Z.mod_pos_bound n 2 ltac:(lia)).
  destruct (Z.eq_dec (n mod 2) 0) as [H0|]; [|lia].
  exfalso. apply (Hn 2); [lia|].
  exists (n / 2). pose proof (Z.div_mod n 2 ltac:(lia)). lia.
Qed.

Lemma mr_witness_prime (n a : Z) :
  Z.prime n -> 3 < n -> 2 <= a <= n - 2 -> mr_witness n a = false.
Proof.
  intros Hn H3 Ha. unfold mr_witness.
  pose proof (decompose_spec (S (Z.to_nat (Z.log2 (n - 1)))) 0 (n - 1)
                ltac:(lia)) as Hdec.
  pose proof (Z.log2_nonneg (n - 1)).
  specialize (Hdec ltac:(lia)).
  destruct (decompose _ 0 (n - 1)) as [r d].
  destruct Hdec as (Hr & Hd & Hodd). rewrite Z.sub_0_r in Hd.
  rewrite (round_passes_prime n r d a); auto.
  assert (0 < 2 ^ r) by (apply Z.pow_pos_nonneg; lia). nia.
Qed.

Lemma every_other_In (start : Z) (count : nat) (i : nat) :
  (i < count)%nat -> In (start + 2 * Z.of_nat i) (every_other start count).
Proof.
  revert start i; induction count as [|count IH]; intros start i Hi; [lia|].
  destruct i as [|i]; cbn [every_other].
  - left. lia.
  - right. replace (start + 2 * Z.of_nat (S i))
      with (start + 2 + 2 * Z.of_nat i) by lia.
    apply IH. lia.
Qed.

Lemma small_divisor_free_prime (n : Z) :
  1 < n < 10000 -> n mod 2 = 1 -> small_divisor_free n = true -> Z.prime n.
Proof.
  intros Hn Hodd Hfree. unfold small_divisor_free in Hfree.
  rewrite forallb_forall in Hfree.
  assert (Hk : forall k, 2 <= k -> k * k <= n -> ~ (k | n)).
  { intros k Hk Hkn [c Hc].
    assert (n mod k = 0) by (subst n; apply Z.mod_mul; lia).
    assert (Hin : In k (2 :: every_other 3 49)).
    { destruct (Z.eq_dec k 2) as [->|]; [now left|right].
      pose proof (Z.div_mod k 2 ltac:(lia)) as Hk2.
      pose proof (Z.mod_pos_bound k 2 ltac:(lia)).
      assert (Hkodd : k mod 2 = 1).
      { destruct (Z.eq_dec (k mod 2) 0) as [Hk0|]; [|lia].
        exfalso. rewrite Hk0, Z.add_0_r in Hk2.
        rewrite Hc, Hk2 in Hodd.
        replace (c * (2 * (k / 2))) with (0 + (c * (k / 2)) * 2) in Hodd by ring.
        rewrite Z.mod_add in Hodd by lia. discriminate Hodd. }
      assert (k < 100) by nia.
      assert (Hq : k = 3 + 2 * (k / 2 - 1)) by lia.
      rewrite Hq. rewrite <- (Z2Nat.id (k / 2 - 1)) by lia.
      apply every_other_In. lia. }
    specialize (Hfree k Hin). cbv beta in Hfree.
    destruct (Z.leb_spec (k * k) n); [|lia].
    destruct (Z.eqb_spec (n mod k) 0); [discriminate|lia]. }
  split; [lia|]. intros m Hm [c Hc].
  assert (1 < c < n) by nia.
  destruct (Z_le_dec m c) as [Hle|Hgt].
  - apply (Hk m); [lia|nia|]. now exists c.
  - apply (Hk c); [lia|nia|]. exists m. lia.
Qed.

(** Below 10 000 every odd composite is exposed by the base 2 or 3. *)
Lemma small_composites_have_witness :
  forallb
    (fun n =>
       if mr_witness n 2 then true
       else if mr_witness n 3 then true else small_divisor_free n)
    odd_candidates = true.
Proof. vm_compute. reflexivity. Qed.

Lemma composite_witness_2_3 (n : Z) :
  3 < n < 10000 -> n mod 2 = 1 -> ~ Z.prime n ->
  mr_witness n 2 = true \/ mr_witness n 3 = true.
Proof.
  intros Hn Hodd Hcomp.
  pose proof small_composites_have_witness as Hall.
  rewrite forallb_forall in Hall. specialize (Hall n).
  assert (Hin : In n odd_candidates).
  { pose proof (Z.div_mod n 2 ltac:(lia)).
    pose proof (Z.div_mod (n - 5) 2 ltac:(lia)).
    pose proof (Z.mod_pos_bound (n - 5) 2 ltac:(lia)).
    replace n with (5 + 2 * Z.of_nat (Z.to_nat ((n - 5) / 2))) by lia.
    apply every_other_In. lia. }
  specialize (Hall Hin).
  destruct (mr_witness n 2); [now left|].
  destruct (mr_witness n 3); [now right|].
  exfalso. apply Hcomp. apply small_divisor_free_prime; [lia|assumption..].
Qed.

Lemma first_failure (f : Z -> bool) (draw : nat -> Z) (s k : nat) :
  forallb f (map draw (seq s k)) = false ->
  exists i, (s <= i < s + k)%nat /\ f (draw i) = false.
Proof.
  revert s; induction k as [|k IH]; intros s Hall; [discriminate|].
  cbn [seq map forallb] in Hall.
  destruct (f (draw s)) eqn:Hf.
  - destruct (IH _ Hall) as (i & Hi & Hfi). exists i. split; [lia|exact Hfi].
  - exists s. split; [lia|exact Hf].
Qed.

(** C8, as the code has it. [is_prime] returns [true] for a prime [n]
    whatever bases between 2 and [n - 2] are drawn; it returns [false] for
    [n < 2] and for an even [n > 2], and [true] for 2 and 3, whatever is
    drawn; for an odd composite [n > 3] it returns [false] exactly when one
    of the [k] drawn bases is a witness of compositeness, and below 10 000
    the base 2 or the base 3 is one. *)
Theorem is_prime_cases (draw : nat -> Z) (n : Z) (k : nat) :
  (Z.prime n -> (forall i, (i < k)%nat -> 2 <= draw i <= n - 2) ->
   is_prime draw n k = true) /\
  (n < 2 -> is_prime draw n k = false) /\
  (2 < n -> n mod 2 = 0 -> is_prime draw n k = false) /\
  (n = 2 \/ n = 3 -> is_prime draw n k = true) /\
  (3 < n -> n mod 2 = 1 -> ~ Z.prime n ->
   (is_prime draw n k = false <->
    exists i, (i < k)%nat /\ mr_witness n (draw i) = true) /\
   (n < 10000 -> mr_witness n 2 = true \/ mr_witness n 3 = true)).
Proof.
  repeat split.
  - intros Hn Hdraw. pose proof (Z.prime_ge_2 _ Hn).
    destruct (Z_le_dec n 3) as [Hle|Hgt].
    + unfold is_prime. destruct (Z.ltb_spec n 2); [lia|].
      assert (n = 2 \/ n = 3) as [->| ->] by lia; reflexivity.
    + rewrite is_prime_odd by (try apply prime_odd; auto; lia).
      apply forallb_forall. intros a Hin.
      apply in_map_iff in Hin. destruct Hin as (i & <- & Hi).
      apply in_seq in Hi.
      rewrite mr_witness_prime; auto; try lia. apply Hdraw. lia.
  - intros Hn. unfold is_prime. destruct (Z.ltb_spec n 2); [reflexivity|lia].
  - intros Hn Heven. unfold is_prime.
    destruct (Z.ltb_spec n 2); [reflexivity|].
    destruct (Z.eqb_spec n 2); [lia|].
    destruct (Z.eqb_spec n 3) as [->|]; [discriminate Heven|].
    cbn [orb]. now rewrite Heven.
  - intros [-> | ->]; reflexivity.
  - intros Hfalse. rewrite is_prime_odd in Hfalse by assumption.
    apply first_failure in Hfalse. destruct Hfalse as (i & Hi & Hw).
    exists i. split; [lia|]. now apply negb_false_iff.
  - intros (i & Hi & Hw). rewrite is_prime_odd by assumption.
    destruct (forallb _ _) eqn:Hall; [|reflexivity].
    rewrite forallb_forall in Hall. specialize (Hall (draw i)).
    rewrite Hw in Hall. symmetry. apply Hall.
    apply in_map. apply in_seq. lia.
  - intros Hlt. apply composite_witness_2_3; auto; lia.
Qed.

(** The claim C8 fails on 25: the base 7 is no witness, and five draws of 7
    make [is_prime 25] answer [true]. *)
Lemma is_prime_strong_liar :
  25 < 10000 /\ 25 = 5 * 5 /\ 2 <= 7 <= 25 - 2 /\
  is_prime (fun _ => 7) 25 5 = true.
Proof. repeat split; try lia; reflexivity. Qed.

End PrimeTheory.

(** ** RSA: [rsa_generate_keypair], [rsa_encrypt], [rsa_decrypt] *)

Module RsaTheory.
Import Ciphers ArithTheory.

(** Exponents that are 1 modulo [p - 1] fix every residue modulo a prime
    [p], the multiples of [p] included. *)
Lemma exp_cycle (p k m : Z) :
  Z.prime p -> 0 <= k -> m ^ (1 + k * (p - 1)) mod p = m mod p.
Proof.
  intros Hp Hk. pose proof (Z.prime_ge_2 _ Hp).
  rewrite Z.pow_add_r, Z.pow_1_r by nia.
  destruct (Z.eq_dec (m mod p) 0) as [H0|Hnz].
  - rewrite Zmult_mod, H0. reflexivity.
  - rewrite (Z.mul_comm k), Z.pow_mul_r by lia.
    rewrite Zmult_mod, <- Z.mod_pow_l.
    rewrite (Z.fermat_nz p m Hp Hnz), Z.pow_1_l by lia.
    rewrite (Z.mod_small 1), Z.mul_1_r, Z.mod_mod by lia. reflexivity.
Qed.

Lemma rsa_core (p q e d m : Z) :
  Z.prime p -> Z.prime q -> p <> q -> 0 <= e -> 0 <= d ->
  (e * d) mod ((p - 1) * (q - 1)) = 1 -> 0 <= m < p * q ->
  pow (pow m e (p * q)) d (p * q) = m.
Proof.
  intros Hp Hq Hpq He Hd Hed Hm.
  pose proof (Z.prime_ge_2 _ Hp). pose proof (Z.prime_ge_2 _ Hq).
  assert (Hphi : 0 < (p - 1) * (q - 1)) by nia.
  rewrite !pow_spec by assumption.
  rewrite Z.mod_pow_l, <- Z.pow_mul_r by assumption.
  set (t := e * d / ((p - 1) * (q - 1))).
  assert (Ht : 0 <= t) by (apply Z.div_pos; nia).
  assert (Hexp : e * d = 1 + t * ((p - 1) * (q - 1))).
  { pose proof (Z.div_mod (e * d) ((p - 1) * (q - 1)) ltac:(lia)).
    unfold t. lia. }
  assert (Hmodp : (p | m ^ (e * d) - m)).
  { apply Z.mod_divide; [lia|].
    rewrite Zminus_mod, Hexp.
    replace (t * ((p - 1) * (q - 1))) with (t * (q - 1) * (p - 1)) by ring.
    rewrite exp_cycle by (auto; nia).
    rewrite Z.sub_diag. reflexivity. }
  assert (Hmodq : (q | m ^ (e * d) - m)).
  { apply Z.mod_divide; [lia|].
    rewrite Zminus_mod, Hexp.
    replace (t * ((p - 1) * (q - 1))) with (t * (p - 1) * (q - 1)) by ring.
    rewrite exp_cycle by (auto; nia).
    rewrite Z.sub_diag. reflexivity. }
  apply Zdivide_mod_minus; [lia|].
  destruct Hmodq as [c Hc]. rewrite Hc in Hmodp |- *.
  apply (Z.divide_prime_mul _ _ _ Hp) in Hmodp.
  destruct Hmodp as [[c' Hc']|Hdiv].
  - exists c'. rewrite Hc'. ring.
  - exfalso. apply Hpq. now apply Z.divide_prime_prime.
Qed.



Lemma next_exponent_ge (fuel : nat) (e phi : Z) :
  e <= next_exponent fuel e phi.
Proof.
  revert e; induction fuel as [|fuel IH]; intros e; cbn [next_exponent];
    [lia|].
  destruct (negb _); [|lia]. specialize (IH (e + 2)). lia.
Qed.

(** What a returned key pair satisfies. *)
Lemma rsa_generate_keypair_inv (p q e d n n' : Z) :
  1 < (p - 1) * (q - 1) ->
  rsa_generate_keypair p q = Ok ((e, n), (d, n')) ->
  n = p * q /\ n' = p * q /\ 3 <= e /\ 0 <= d < (p - 1) * (q - 1) /\
  (e * d) mod ((p - 1) * (q - 1)) = 1.
Proof.
  intros Hphi. unfold rsa_generate_keypair.
  set (phi := (p - 1) * (q - 1)) in *.
  set (e0 := if negb (gcd 65537 phi =? 1)
             then next_exponent (Z.to_nat phi) 3 phi else 65537).
  assert (He0 : 3 <= e0).
  { unfold e0. destruct (negb _); [apply next_exponent_ge|lia]. }
  unfold mod_inverse. pose proof (extended_gcd_bezout e0 phi) as Hbez.
  destruct (extended_gcd e0 phi) as [[g x] y].
  destruct (Z.eqb_spec g 1) as [->|]; cbn [negb bind]; [|discriminate].
  destruct (Z.eqb_spec phi 0); [lia|]. cbn [bind].
  intros H; injection H as <- <- <- <-.
  repeat split; try assumption; try (apply Z.mod_pos_bound; lia).
  rewrite Z.mul_mod_idemp_r by lia.
  replace (e0 * x) with (1 + (- y) * phi) by lia.
  rewrite Z.mod_add, Z.mod_small by lia. reflexivity.
Qed.

(** The search for [e] ends: it reaches an odd number coprime with [phi]
    before the turns run out. *)
Lemma next_exponent_coprime (fuel : nat) (e phi target : Z) :
  0 <= e -> 0 < phi -> e <= target -> target - e = 2 * ((target - e) / 2) ->
  (target - e) / 2 <= Z.of_nat fuel -> Z.gcd target phi = 1 ->
  Z.gcd (next_exponent fuel e phi) phi = 1.
Proof.
  revert e; induction fuel as [|fuel IH]; intros e He Hphi Hle Hpar Hfuel Hg;
    cbn [next_exponent].
  - replace e with target by lia. exact Hg.
  - rewrite gcd_spec by lia.
    destruct (Z.eqb_spec (Z.gcd e phi) 1) as [H1|H1]; cbn [negb];
      [exact H1|].
    assert (e <> target) by congruence.
    assert (Hstep : target - (e + 2) = 2 * ((target - e) / 2 - 1)) by lia.
    assert (Hdiv : (target - (e + 2)) / 2 = (target - e) / 2 - 1).
    { rewrite Hstep at 1. rewrite Z.mul_comm. apply Z.div_mul. lia. }
    apply IH; try lia; try assumption; rewrite Hdiv; lia.
Qed.

(** [rsa_generate_keypair] returns a key pair for any two numbers from 2 on. *)
Lemma rsa_generate_keypair_returns (p q : Z) :
  2 <= p -> 2 <= q ->
  exists e d, rsa_generate_keypair p q = Ok ((e, p * q), (d, p * q)).
Proof.
  intros Hp Hq. unfold rsa_generate_keypair.
  set (phi := (p - 1) * (q - 1)). assert (Hphi : 0 < phi) by (unfold phi; nia).
  set (e := if negb (gcd 65537 phi =? 1)
            then next_exponent (Z.to_nat phi) 3 phi else 65537).
  assert (He : 3 <= e /\ Z.gcd e phi = 1).
  { unfold e. rewrite gcd_spec by lia.
    destruct (Z.eqb_spec (Z.gcd 65537 phi) 1) as [H1|H1]; cbn [negb];
      [split; [lia|exact H1]|].
    split; [apply next_exponent_ge|].
    pose proof (Z.div_mod phi 2 ltac:(lia)) as Hdm.
    pose proof (Z.mod_pos_bound phi 2 ltac:(lia)) as Hm.
    assert (phi <> 1) by (intros Hone; rewrite Hone, Z.gcd_1_r in H1; lia).
    destruct (Z.eq_dec (phi mod 2) 0) as [Heven|Hodd].
    - apply (next_exponent_coprime _ 3 phi (phi + 1)); try lia.
      + replace (phi + 1 - 3) with ((phi / 2 - 1) * 2) by lia.
        rewrite Z.div_mul by lia. lia.
      + replace (phi + 1 - 3) with ((phi / 2 - 1) * 2) by lia.
        rewrite Z.div_mul by lia. lia.
      + apply Z.coprime_Bezout. exists 1, (-1). lia.
    - apply (next_exponent_coprime _ 3 phi (phi + 2)); try lia.
      + replace (phi + 2 - 3) with ((phi / 2) * 2) by lia.
        rewrite Z.div_mul by lia. lia.
      + replace (phi + 2 - 3) with ((phi / 2) * 2) by lia.
        rewrite Z.div_mul by lia. lia.
      + apply Z.coprime_Bezout. exists (- (phi / 2)), (phi / 2 + 1). nia. }
  destruct He as [He3 Heg]. unfold mod_inverse.
  pose proof (extended_gcd_gcd e phi ltac:(lia) ltac:(lia)) as Hg.
  destruct (extended_gcd e phi) as [[g x] y]. cbn [fst] in Hg.
  rewrite Hg, Heg. cbn [Z.eqb Pos.eqb negb].
  destruct (Z.eqb_spec phi 0); [lia|]. cbn [bind].
  now exists e, (x mod phi).
Qed.



End RsaTheory.

(** ** Substitution cipher *)

Module SubstitutionTheory.
Import Ciphers.

Lemma str_eqb_eq (a b : str) : str_eqb a b = true <-> a = b.
Proof.
  unfold str_eqb. destruct (list_eq_dec Z.eq_dec a b); split; auto;
    discriminate.
Qed.

Lemma str_eqb_refl (a : str) : str_eqb a a = true.
Proof. now apply str_eqb_eq. Qed.

Lemma str_eqb_neq (a b : str) : a <> b -> str_eqb a b = false.
Proof.
  intros H. destruct (str_eqb a b) eqn:E; [|reflexivity].
  apply str_eqb_eq in E. contradiction.
Qed.

Lemma dict_get_set (d : dict) (k v k' : str) :
  dict_get (dict_set d k v) k' =
  if str_eqb k k' then Ok v else dict_get d k'.
Proof.
  induction d as [|[k0 v0] d IH]; cbn [dict_set dict_get].
  - reflexivity.
  - destruct (str_eqb k0 k) eqn:E0; cbn [dict_get].
    + apply str_eqb_eq in E0. subst k0.
      destruct (str_eqb k k'); reflexivity.
    + destruct (str_eqb k0 k') eqn:E1.
      * apply str_eqb_eq in E1. subst k0.
        destruct (str_eqb k k') eqn:E2; [|reflexivity].
        apply str_eqb_eq in E2. subst k'. now rewrite str_eqb_refl in E0.
      * exact IH.
Qed.

Lemma dict_get_raise (d : dict) (k : str) :
  (dict_get d k = Raise KeyError <-> ~ In k (map fst d)) /\
  (forall e, dict_get d k = Raise e -> e = KeyError).
Proof.
  induction d as [|[k0 v0] d [IH1 IH2]]; cbn [dict_get map fst In].
  - split; [tauto|]. now intros e [= <-].
  - destruct (str_eqb k0 k) eqn:E.
    + apply str_eqb_eq in E. split; [|discriminate].
      split; [discriminate|]. intros H. exfalso. apply H. now left.
    + split; [|exact IH2]. rewrite IH1.
      assert (k0 <> k) by (intros ->; now rewrite str_eqb_refl in E). tauto.
Qed.

Lemma dict_set_keys (d : dict) (k v : str) :
  map fst (dict_set d k v) =
  if existsb (str_eqb k) (map fst d) then map fst d else map fst d ++ [k].
Proof.
  induction d as [|[k0 v0] d IH]; cbn [dict_set map fst existsb app].
  - reflexivity.
  - destruct (str_eqb k0 k) eqn:E.
    + apply str_eqb_eq in E. subst k0. now rewrite str_eqb_refl.
    + assert (k <> k0) by (intros ->; now rewrite str_eqb_refl in E).
      rewrite (str_eqb_neq k k0) by assumption. cbn [orb map fst].
      rewrite IH. destruct (existsb _ _); reflexivity.
Qed.

Lemma preimage_none (key : dict) (v : str) :
  preimage key v = None <-> ~ In v (map snd key).
Proof.
  induction key as [|[k v'] key IH]; cbn [preimage map snd In]; [tauto|].
  destruct (preimage key v) as [k'|].
  - split; [discriminate|]. intros H. exfalso. apply H. right.
    destruct (in_dec (list_eq_dec Z.eq_dec) v (map snd key)) as [|Hn];
      [assumption|].
    apply IH in Hn. discriminate.
  - destruct (str_eqb v' v) eqn:E.
    + apply str_eqb_eq in E. split; [discriminate|]. intros H. exfalso.
      apply H. now left.
    + assert (v' <> v) by (intros ->; now rewrite str_eqb_refl in E).
      split; [|reflexivity]. intros _ [?|Hin]; [contradiction|].
      now apply IH.
Qed.

Lemma reverse_key_get (key : dict) (d0 : dict) (v : str) :
  dict_get (fold_left (fun d kv => dict_set d (snd kv) (fst kv)) key d0) v =
  match preimage key v with
  | Some k => Ok k
  | None => dict_get d0 v
  end.
Proof.
  revert d0; induction key as [|[k v'] key IH]; intros d0;
    cbn [fold_left preimage fst snd]; [reflexivity|].
  rewrite IH, dict_get_set.
  destruct (preimage key v); [reflexivity|].
  destruct (str_eqb v' v); reflexivity.
Qed.

Section Text.
Context {U : Unicode}.

Lemma translate_raise (d : dict) (text : str) (e : exn) :
  fold_left (translate_step d) text (Raise e) = Raise e.
Proof. induction text as [|c text IH]; [reflexivity|exact IH]. Qed.

Lemma translate_step_letter (d : dict) (r v : str) (c : uchar) :
  isalpha c = true -> dict_get d [c] = Ok v ->
  translate_step d (Ok r) c = Ok (r ++ letter_of d c).
Proof.
  intros Ha Hg. unfold translate_step, letter_of. cbn [bind].
  now rewrite Ha, Hg.
Qed.

Lemma translate_step_missing (d : dict) (r : str) (c : uchar) (e : exn) :
  isalpha c = true -> dict_get d [c] = Raise e ->
  translate_step d (Ok r) c = Raise e.
Proof.
  intros Ha Hg. unfold translate_step. cbn [bind]. now rewrite Ha, Hg.
Qed.

Lemma translate_step_other (d : dict) (r : str) (c : uchar) :
  isalpha c = false -> translate_step d (Ok r) c = Ok (r ++ letter_of d c).
Proof.
  intros Ha. unfold translate_step, letter_of. cbn [bind]. now rewrite Ha.
Qed.

Lemma translate_cases (d : dict) (text : str) (r : str) :
  (fold_left (translate_step d) text (Ok r) = Raise KeyError <->
   exists c, In c text /\ isalpha c = true /\ ~ In [c] (map fst d)) /\
  (forall e, fold_left (translate_step d) text (Ok r) = Raise e ->
             e = KeyError) /\
  ((forall c, In c text -> isalpha c = true -> In [c] (map fst d)) ->
   fold_left (translate_step d) text (Ok r) =
   Ok (r ++ flat_map (letter_of d) text)).
Proof.
  revert r; induction text as [|c text IH]; intros r.
  - cbn [fold_left flat_map In]. rewrite app_nil_r.
    split; [|split; [discriminate|reflexivity]].
    split; [discriminate|]. intros (c & [] & _).
  - cbn [fold_left flat_map]. rewrite app_assoc.
    destruct (dict_get_raise d [c]) as [Hr1 Hr2].
    assert (Hstep :
      (translate_step d (Ok r) c = Ok (r ++ letter_of d c) /\
       (isalpha c = true -> In [c] (map fst d))) \/
      (translate_step d (Ok r) c = Raise KeyError /\
       isalpha c = true /\ ~ In [c] (map fst d))).
    { destruct (isalpha c) eqn:Ha.
      - destruct (dict_get d [c]) as [v|e] eqn:Hg.
        + left. split; [now apply (translate_step_letter d r v)|].
          intros _. destruct (in_dec (list_eq_dec Z.eq_dec) [c] (map fst d))
            as [|Hn]; [assumption|]. apply Hr1 in Hn. discriminate.
        + right. pose proof (Hr2 e eq_refl). subst e.
          split; [now apply translate_step_missing|].
          split; [reflexivity|]. now apply Hr1.
      - left. split; [now apply translate_step_other|discriminate]. }
    destruct Hstep as [[-> Hin]|(-> & Ha & Hn)].
    + destruct (IH (r ++ letter_of d c)) as (IH1 & IH2 & IH3).
      split; [|split; [exact IH2|]].
      * rewrite IH1. split.
        -- intros (c' & Hc' & H'). exists c'. split; [now right|exact H'].
        -- intros (c' & [<-|Hc'] & Ha' & Hn').
           ++ exfalso. auto.
           ++ exists c'. auto.
      * intros Hall. apply IH3. intros c' Hc'. apply Hall. now right.
    + rewrite translate_raise. split; [|split].
      * split; [|reflexivity]. intros _. exists c.
        split; [now left|]. split; assumption.
      * now intros e [= <-].
      * intros Hall. exfalso. apply Hn, Hall; [now left|exact Ha].
Qed.

Lemma substitution_encrypt_translate (text : str) (key : dict) :
  substitution_encrypt text key = fold_left (translate_step key) text (Ok []).
Proof. reflexivity. Qed.

Lemma substitution_decrypt_translate (text : str) (key : dict) :
  substitution_decrypt text key =
  fold_left (translate_step (reverse_of key)) text (Ok []).
Proof. reflexivity. Qed.

Lemma reverse_of_keys (key : dict) (v : str) :
  In v (map fst (reverse_of key)) <-> In v (map snd key).
Proof.
  destruct (dict_get_raise (reverse_of key) v) as [Hr _].
  unfold reverse_of, items in Hr. rewrite reverse_key_get in Hr.
  pose proof (preimage_none key v) as Hp.
  destruct (preimage key v) as [k|].
  - split; intros Hin.
    + destruct (in_dec (list_eq_dec Z.eq_dec) v (map snd key)) as [|Hn];
        [assumption|]. apply Hp in Hn. discriminate.
    + destruct (in_dec (list_eq_dec Z.eq_dec) v (map fst (reverse_of key)))
        as [|Hn]; [assumption|]. apply Hr in Hn. discriminate.
  - cbn [dict_get] in Hr. split; intros Hin; exfalso.
    + apply (proj1 Hr eq_refl). exact Hin.
    + apply (proj1 Hp eq_refl). exact Hin.
Qed.

Lemma substitution_decrypt_raises (text : str) (key : dict) :
  (substitution_decrypt text key = Raise KeyError <->
   exists c, In c text /\ isalpha c = true /\ ~ In [c] (map snd key)) /\
  (forall e, substitution_decrypt text key = Raise e -> e = KeyError).
Proof.
  rewrite substitution_decrypt_translate.
  destruct (translate_cases (reverse_of key) text []) as (H1 & H2 & _).
  split; [|exact H2]. apply (iff_trans H1).
  split; intros (c & Hin & Ha & Hn); exists c;
    (split; [exact Hin|split; [exact Ha|]]);
    intros Hv; apply Hn; now apply reverse_of_keys.
Qed.

Lemma substitution_decrypt_returns (text : str) (key : dict) :
  (forall c, In c text -> isalpha c = true -> In [c] (map snd key)) ->
  substitution_decrypt text key =
  Ok (flat_map
        (fun c =>
           if isalpha c then
             match preimage key [c] with Some k => k | None => [] end
           else [c])
        text).
Proof.
  intros Hall. rewrite substitution_decrypt_translate.
  destruct (translate_cases (reverse_of key) text []) as (_ & _ & H3).
  etransitivity.
  - apply H3. intros c Hin Ha. apply reverse_of_keys. now apply Hall.
  - cbn [app]. f_equal. apply flat_map_ext. intros c. unfold letter_of.
    destruct (isalpha c); [|reflexivity].
    unfold reverse_of, items. rewrite reverse_key_get.
    destruct (preimage key [c]); reflexivity.
Qed.

(** C4, as the code has it. [substitution_decrypt] checks nothing about the
    map: it raises [KeyError], and no other error, exactly when the text has
    an alphabetic character that is not a value of the map; otherwise it
    returns the text in which every alphabetic character is replaced by the
    key of the last item of the map that has it as value, so of two keys with
    the same value the earlier one is silently lost. *)
Theorem substitution_decrypt_cases (text : str) (key : dict) :
  (substitution_decrypt text key = Raise KeyError <->
   exists c, In c text /\ isalpha c = true /\ ~ In [c] (map snd key)) /\
  (forall e, substitution_decrypt text key = Raise e -> e = KeyError) /\
  ((forall c, In c text -> isalpha c = true -> In [c] (map snd key)) ->
   substitution_decrypt text key =
   Ok (flat_map
         (fun c =>
            if isalpha c then
              match preimage key [c] with Some k => k | None => [] end
            else [c])
         text)).
Proof.
  destruct (substitution_decrypt_raises text key) as [H1 H2].
  split; [exact H1|]. split; [exact H2|].
  apply substitution_decrypt_returns.
Qed.

Lemma in_alphabet (s : str) :
  In s alphabet <-> exists u, s = [u] /\ 65 <= u <= 90.
Proof.
  unfold alphabet. rewrite in_map_iff. split.
  - intros (u & <- & Hu). exists u. split; [reflexivity|].
    apply in_map_iff in Hu. destruct Hu as (i & <- & Hi).
    unfold range in Hi. apply in_map_iff in Hi. destruct Hi as (j & <- & Hj).
    apply in_seq in Hj. lia.
  - intros (u & -> & Hu). exists u. split; [reflexivity|].
    apply in_map_iff. exists (u - 65). split; [lia|].
    unfold range. apply in_map_iff. exists (Z.to_nat (u - 65)).
    split; [lia|]. apply in_seq. lia.
Qed.

Lemma lower_upper_letter (u : uchar) :
  65 <= u <= 90 -> lower [u] = [u + 32].
Proof.
  intros Hu. unfold lower. cbn [forallb map]. unfold is_ascii, ascii_lower,
    ascii_isupper. rewrite (between_true 0 127), (between_true 65 90) by lia.
  reflexivity.
Qed.

(** The items of a generated key, in order: each letter of the alphabet and
    its lower-case form as keys, the shuffled letter at the same index and
    its lower-case form as values. *)
Lemma generated_key_items (shuffled : list str) :
  List.length shuffled = 26%nat ->
  map fst (generate_substitution_key shuffled) =
    flat_map (fun s => [s; lower s]) alphabet /\
  map snd (generate_substitution_key shuffled) =
    flat_map (fun s => [s; lower s]) shuffled.
Proof.
  intros Hlen.
  do 26 (destruct shuffled as [|? shuffled]; [discriminate Hlen|]).
  destruct shuffled; [|discriminate Hlen].
  split; vm_compute; reflexivity.
Qed.

Lemma letter_pair (l : list str) (c : uchar) :
  (forall s, In s l -> exists u, s = [u] /\ 65 <= u <= 90) ->
  In [c] (flat_map (fun s => [s; lower s]) l) -> ascii_isalpha c = true.
Proof.
  intros Hl Hin. apply in_flat_map in Hin. destruct Hin as (s & Hs & Hc).
  destruct (Hl s Hs) as (u & -> & Hu). rewrite lower_upper_letter in Hc by lia.
  unfold ascii_isalpha, ascii_isupper, ascii_islower, between.
  destruct Hc as [[= <-]|[[= <-]|[]]]; lia.
Qed.

(** C10. With a key from [generate_substitution_key] (the shuffle leaves a
    permutation of the alphabet) and a text that has an alphabetic character
    outside the ASCII letters, [substitution_encrypt] and
    [substitution_decrypt] raise [KeyError]; the key has 52 items, and its
    keys are exactly the one-letter strings of the ASCII letters. *)
Theorem substitution_foreign_letter
  (shuffled : list str) (text : str) (c : uchar) :
  Permutation alphabet shuffled ->
  In c text -> isalpha c = true -> ascii_isalpha c = false ->
  substitution_encrypt text (generate_substitution_key shuffled)
    = Raise KeyError /\
  substitution_decrypt text (generate_substitution_key shuffled)
    = Raise KeyError /\
  List.length (generate_substitution_key shuffled) = 52%nat /\
  (forall s, In s (map fst (generate_substitution_key shuffled)) <->
             exists l, s = [l] /\ ascii_isalpha l = true).
Proof.
  intros Hperm Hin Ha Hc.
  assert (Hlen : List.length shuffled = 26%nat).
  { rewrite <- (Permutation_length Hperm). reflexivity. }
  destruct (generated_key_items shuffled Hlen) as [Hkeys Hvals].
  assert (Hshuf : forall s, In s shuffled -> exists u, s = [u] /\ 65 <= u <= 90).
  { intros s Hs. apply in_alphabet.
    apply (Permutation_in _ (Permutation_sym Hperm) Hs). }
  split; [|split; [|split; [|intros s; split]]].
  - rewrite substitution_encrypt_translate.
    apply (proj2 (proj1 (translate_cases _ text []))). exists c.
    split; [exact Hin|]. split; [exact Ha|]. rewrite Hkeys. intros Hk.
    apply letter_pair in Hk; [congruence|]. intros s. apply in_alphabet.
  - apply (proj2 (proj1 (substitution_decrypt_raises text _))). exists c.
    split; [exact Hin|]. split; [exact Ha|]. rewrite Hvals. intros Hk.
    apply letter_pair in Hk; [congruence|exact Hshuf].
  - rewrite <- (length_map fst), Hkeys. reflexivity.
  - rewrite Hkeys. intros Hs. apply in_flat_map in Hs.
    destruct Hs as (a & Ha' & Hs). apply in_alphabet in Ha'.
    destruct Ha' as (u & -> & Hu). rewrite lower_upper_letter in Hs by lia.
    unfold ascii_isalpha, ascii_isupper, ascii_islower, between.
    destruct Hs as [<-|[<-|[]]]; eexists; (split; [reflexivity|lia]).
  - rewrite Hkeys. intros (l & -> & Hl). apply in_flat_map.
    unfold ascii_isalpha, ascii_isupper, ascii_islower, between in Hl.
    destruct (Z_le_dec l 90) as [Hle|Hgt].
    + exists [l]. split; [apply in_alphabet; exists l; split; [reflexivity|lia]|].
      now left.
    + exists [l - 32].
      split; [apply in_alphabet; exists (l - 32); split; [reflexivity|lia]|].
      right. left. rewrite lower_upper_letter by lia. f_equal. lia.
Qed.

End Text.
End SubstitutionTheory.

(** ** Python floats: the order [<] *)

Module FloatTheory.

Lemma SFltb_irrefl a : SFltb a a = false.
Proof. destruct a; unfold SFltb; sf_cases. Qed.

Lemma SFltb_trans a b c :
  SFltb a b = true -> SFltb b c = true -> SFltb a c = true.
Proof. destruct a, b, c; unfold SFltb; intros; sf_cases. Qed.

Lemma SFltb_negtrans a b c :
  b <> S754_nan ->
  SFltb a b = false -> SFltb b c = false -> SFltb a c = false.
Proof. destruct a, b, c; unfold SFltb; intros; sf_cases. Qed.

Lemma SFeqb_refl a : a <> S754_nan -> SFeqb a a = true.
Proof. destruct a; unfold SFeqb; intros; sf_cases. Qed.

Lemma SFltb_zero_eqb a :
  SFltb (S754_zero false) a = true -> SFeqb a (S754_zero false) = false.
Proof. destruct a; unfold SFltb, SFeqb; intros; sf_cases. Qed.

Lemma SFltb_infinity a : SFltb (S754_infinity false) a = false.
Proof. destruct a; unfold SFltb; sf_cases. Qed.

Lemma is_nan_spec (x : float) : is_nan x = false -> Prim2SF x <> S754_nan.
Proof.
  unfold is_nan. rewrite eqb_spec. intros H Hn. rewrite Hn in H.
  discriminate H.
Qed.

Lemma ltb_irrefl (x : float) : (x <? x)%float = false.
Proof. rewrite ltb_spec. apply SFltb_irrefl. Qed.

Lemma ltb_trans (x y z : float) :
  (x <? y)%float = true -> (y <? z)%float = true -> (x <? z)%float = true.
Proof. rewrite !ltb_spec. apply SFltb_trans. Qed.

(** On numbers, "not less" is transitive. *)
Lemma ltb_negtrans (x y z : float) :
  is_nan y = false ->
  (x <? y)%float = false -> (y <? z)%float = false -> (x <? z)%float = false.
Proof.
  intros Hy. rewrite !ltb_spec. apply SFltb_negtrans. now apply is_nan_spec.
Qed.

Lemma ltb_asym (x y : float) :
  (x <? y)%float = true -> (y <? x)%float = false.
Proof.
  intros H. destruct (y <? x)%float eqn:E; [|reflexivity].
  pose proof (ltb_trans _ _ _ H E) as Hxx. now rewrite ltb_irrefl in Hxx.
Qed.

Lemma ltb_infinity (x : float) : (infinity <? x)%float = false.
Proof. rewrite ltb_spec. apply SFltb_infinity. Qed.

(** What the guard [expected_freq > 0] gives: the divisor is not zero. *)
Lemma positive_nonzero (x : float) :
  (0 <? x)%float = true -> (x =? 0)%float = false.
Proof. rewrite ltb_spec, eqb_spec. apply SFltb_zero_eqb. Qed.

End FloatTheory.

(** ** The stable sort *)

Section StableSort.
Variables (A K : Type) (lt : K -> K -> bool) (key : A -> K).
Variable number : K -> Prop.
Hypothesis lt_trans :
  forall a b c, lt a b = true -> lt b c = true -> lt a c = true.
Hypothesis lt_negtrans :
  forall a b c, number b -> lt a b = false -> lt b c = false -> lt a c = false.

Lemma insert_sorted_length (a : A) (s : list A) :
  List.length (insert_sorted lt key a s) = S (List.length s).
Proof.
  induction s as [|y s IHs]; cbn [insert_sorted]; [reflexivity|].
  destruct (lt (key y) (key a)); cbn [List.length]; [now rewrite IHs|].
  reflexivity.
Qed.

Lemma sorted_length (l : list A) :
  List.length (sorted lt key l) = List.length l.
Proof.
  induction l as [|a l IH]; [reflexivity|].
  cbn [sorted fold_right]. fold (sorted lt key l).
  rewrite insert_sorted_length, IH. reflexivity.
Qed.

(** The sorted list is a rearrangement of the list. *)
Lemma insert_sorted_perm (a : A) (s : list A) :
  Permutation (insert_sorted lt key a s) (a :: s).
Proof.
  induction s as [|y s IHs]; cbn [insert_sorted]; [reflexivity|].
  destruct (lt (key y) (key a)); [|reflexivity].
  rewrite IHs. apply perm_swap.
Qed.

Lemma sorted_perm (l : list A) : Permutation (sorted lt key l) l.
Proof.
  induction l as [|a l IH]; [reflexivity|].
  cbn [sorted fold_right]. fold (sorted lt key l).
  rewrite insert_sorted_perm. now constructor.
Qed.

(** The first element of the sorted list is the earliest minimum: every
    element before it in [l] has a larger key, no element after it has a
    smaller one. *)
Lemma sorted_head (l : list A) (x : A) (rest : list A) :
  Forall (fun a => number (key a)) l ->
  sorted lt key l = x :: rest ->
  exists l1 l2, l = l1 ++ x :: l2 /\
    (forall y, In y l1 -> lt (key x) (key y) = true) /\
    (forall y, In y l2 -> lt (key y) (key x) = false).
Proof.
  revert x rest; induction l as [|a l IH]; intros x rest Hnum Hs;
    [discriminate Hs|].
  inversion Hnum as [|? ? Ha Hl]; subst.
  cbn [sorted fold_right] in Hs. fold (sorted lt key l) in Hs.
  destruct (sorted lt key l) as [|x' rest'] eqn:Hsl.
  - cbn [insert_sorted] in Hs. injection Hs as <- <-.
    assert (l = []) as ->.
    { pose proof (sorted_length l) as Hlen. rewrite Hsl in Hlen.
      destruct l; [reflexivity|discriminate Hlen]. }
    exists [], []. repeat split; intros y [].
  - destruct (IH x' rest' Hl eq_refl) as (l1 & l2 & -> & H1 & H2).
    assert (Hx' : number (key x')).
    { rewrite Forall_forall in Hl. apply Hl. apply in_or_app. right. now left. }
    cbn [insert_sorted] in Hs. destruct (lt (key x') (key a)) eqn:Hlt.
    + injection Hs as <- <-. exists (a :: l1), l2. repeat split.
      * intros y [<-|Hy]; [exact Hlt|now apply H1].
      * exact H2.
    + injection Hs as <- <-. exists [], (l1 ++ x' :: l2). repeat split.
      * intros y [].
      * intros y Hy. apply in_app_or in Hy. destruct Hy as [Hy|[<-|Hy]].
        -- destruct (lt (key y) (key a)) eqn:Hya; [|reflexivity].
           pose proof (lt_trans _ _ _ (H1 y Hy) Hya). congruence.
        -- exact Hlt.
        -- apply (lt_negtrans _ (key x')); auto.
Qed.

End StableSort.

(** ** Columnar transposition *)

Module TranspositionTheory.
Import Ciphers.

(** Reads and comprehensions that stay in range raise nothing. *)
Lemma getitem_ok {A} (l : list A) (i : Z) (d : A) :
  (Z.to_nat i < List.length l)%nat -> getitem l i = Ok (nth (Z.to_nat i) l d).
Proof.
  intros H. unfold getitem. now rewrite (nth_error_nth' l d H).
Qed.

Lemma for_each_map {A B} (f : A -> result B) (g : A -> B) (l : list A) :
  (forall a, In a l -> f a = Ok (g a)) -> for_each f l = Ok (map g l).
Proof.
  induction l as [|a l IH]; intros H; cbn [for_each map]; [reflexivity|].
  rewrite H by (now left). cbn [bind].
  rewrite IH by (intros; apply H; now right). reflexivity.
Qed.

Lemma nth_map_seq {A} (g : nat -> A) (s n i : nat) (d : A) :
  (i < n)%nat -> nth i (map g (seq s n)) d = g (s + i)%nat.
Proof.
  intros H. rewrite (nth_indep _ d (g 0%nat)) by (now rewrite length_map, length_seq).
  rewrite map_nth. now rewrite seq_nth.
Qed.

Lemma setitem_nat_seq {A} (g : nat -> A) (n s j : nat) (v : A) :
  (j < n)%nat ->
  setitem_nat (map g (seq s n)) j v
  = Ok (map (fun j' => if (j' =? s + j)%nat then v else g j') (seq s n)).
Proof.
  revert s j; induction n as [|n IH]; intros s j Hj; [lia|].
  cbn [seq map setitem_nat]. destruct j as [|j].
  - rewrite Nat.add_0_r, Nat.eqb_refl. do 2 f_equal.
    apply map_ext_in. intros j' Hj'. apply in_seq in Hj'.
    destruct (Nat.eqb_spec j' s); [lia|reflexivity].
  - rewrite IH by lia. cbn [bind].
    destruct (Nat.eqb_spec s (s + S j)); [lia|]. do 2 f_equal.
    apply map_ext. intros j'. now rewrite Nat.add_succ_comm.
Qed.

Lemma tabulate_ext {A} (num_rows num_cols : nat) (f g : nat -> nat -> A) :
  (forall i j, (i < num_rows)%nat -> (j < num_cols)%nat -> f i j = g i j) ->
  tabulate num_rows num_cols f = tabulate num_rows num_cols g.
Proof.
  intros H. unfold tabulate. apply map_ext_in. intros i Hi.
  apply map_ext_in. intros j Hj. apply in_seq in Hi, Hj. apply H; lia.
Qed.

Lemma tabulate_length {A} (num_rows num_cols : nat) (f : nat -> nat -> A) :
  List.length (tabulate num_rows num_cols f) = num_rows.
Proof. unfold tabulate. now rewrite length_map, length_seq. Qed.

(** The loops of [transposition_decrypt] on a grid given by its cells. *)
Section Grid.
Variables (text : str) (num_rows num_cols : nat).

(** One assignment [grid[row][col_index] = text[text_index]]. *)
Lemma fill_cell_tabulate (col_index : Z) (cell : nat -> nat -> str)
  (text_index row : nat) :
  (row < num_rows)%nat -> (Z.to_nat col_index < num_cols)%nat ->
  (text_index < List.length text)%nat ->
  fill_cell text col_index
    (Ok (tabulate num_rows num_cols cell, Z.of_nat text_index)) (Z.of_nat row)
  = Ok (tabulate num_rows num_cols
          (fun i j =>
             if (i =? row)%nat && (j =? Z.to_nat col_index)%nat
             then [nth text_index text 0] else cell i j),
        Z.of_nat (S text_index)).
Proof.
  intros Hrow Hcol Ht. unfold fill_cell. cbn [bind].
  rewrite (getitem_ok text _ 0) by (now rewrite Nat2Z.id). cbn [bind].
  rewrite (getitem_ok (tabulate _ _ _) _ [])
    by (now rewrite Nat2Z.id, tabulate_length).
  rewrite !Nat2Z.id. cbn [bind].
  unfold tabulate at 1. rewrite nth_map_seq by assumption. cbn [Nat.add].
  unfold setitem. rewrite setitem_nat_seq by assumption. cbn [bind Nat.add].
  unfold tabulate at 1. rewrite Nat2Z.id.
  rewrite setitem_nat_seq by assumption. cbn [bind Nat.add].
  f_equal. f_equal; [|lia].
  unfold tabulate. apply map_ext. intros i.
  destruct (Nat.eqb_spec i row) as [->|Hne]; cbn [andb]; [|reflexivity].
  reflexivity.
Qed.

(** The inner loop, after [m] rows. *)
Lemma fill_column_prefix (col_index : Z) (cell : nat -> nat -> str)
  (text_index m : nat) :
  (m <= num_rows)%nat -> (Z.to_nat col_index < num_cols)%nat ->
  (text_index + m <= List.length text)%nat ->
  fold_left (fill_cell text col_index) (range m)
    (Ok (tabulate num_rows num_cols cell, Z.of_nat text_index))
  = Ok (tabulate num_rows num_cols
          (fun i j =>
             if (j =? Z.to_nat col_index)%nat && (i <? m)%nat
             then [nth (text_index + i)%nat text 0] else cell i j),
        Z.of_nat (text_index + m)).
Proof.
  intros Hm Hcol Ht. induction m as [|m IH].
  - cbn [range seq map fold_left]. rewrite Nat.add_0_r. do 2 f_equal.
    apply tabulate_ext. intros i j _ _. now rewrite andb_false_r.
  - unfold range in *. rewrite seq_S, map_app, fold_left_app.
    rewrite IH by lia. cbn [Nat.add map fold_left].
    rewrite fill_cell_tabulate by lia.
    f_equal. f_equal; [|lia].
    apply tabulate_ext. intros i j _ _.
    destruct (Nat.eqb_spec i m) as [->|Hne];
      destruct (Nat.eqb_spec j (Z.to_nat col_index)); cbn [andb].
    + destruct (Nat.ltb_spec m (S m)); [reflexivity|lia].
    + reflexivity.
    + destruct (Nat.ltb_spec i m), (Nat.ltb_spec i (S m));
        try reflexivity; lia.
    + reflexivity.
Qed.

(** The outer loop over the columns of [key_order]. *)
Lemma fill_columns {B} (cols : list (Z * B)) (cell : nat -> nat -> str)
  (text_index : nat) :
  (forall col, In col cols -> (Z.to_nat (fst col) < num_cols)%nat) ->
  (text_index + List.length cols * num_rows <= List.length text)%nat ->
  fold_left
    (fun state col =>
       fold_left (fill_cell text (fst col)) (range num_rows) state)
    cols (Ok (tabulate num_rows num_cols cell, Z.of_nat text_index))
  = Ok (tabulate num_rows num_cols
          (filled text num_rows (map (fun col => Z.to_nat (fst col)) cols)
             text_index cell),
        Z.of_nat (text_index + List.length cols * num_rows)).
Proof.
  revert cell text_index; induction cols as [|col cols IH];
    intros cell text_index Hcols Ht.
  - cbn [fold_left map filled List.length Nat.mul]. now rewrite Nat.add_0_r.
  - cbn [fold_left map filled List.length Nat.mul] in *.
    rewrite fill_column_prefix by (try apply Hcols; try (now left); lia).
    rewrite IH by (try (intros; apply Hcols; now right); lia).
    do 2 f_equal. lia.
Qed.

End Grid.

Lemma column_length (text : str) (num_cols num_rows col : nat) :
  List.length (column text num_cols num_rows col) = num_rows.
Proof. unfold column. now rewrite length_map, length_seq. Qed.

(** Filling from a text made of columns of [padded] puts every character
    back in its cell. *)
Lemma filled_columns (padded : str) (num_cols num_rows i j : nat)
  (cols : list nat) (before : str) (cell : nat -> nat -> str) :
  (i < num_rows)%nat ->
  filled (before ++ List.concat (map (column padded num_cols num_rows) cols))
    num_rows cols (List.length before) cell i j
  = if existsb (Nat.eqb j) cols
    then [nth (i * num_cols + j)%nat padded 0] else cell i j.
Proof.
  intros Hi. revert before cell; induction cols as [|col cols IH];
    intros before cell; [reflexivity|].
  cbn [map List.concat filled existsb].
  rewrite app_assoc.
  replace (List.length before + num_rows)%nat
    with (List.length (before ++ column padded num_cols num_rows col))
    by (now rewrite length_app, column_length).
  rewrite IH. destruct (existsb _ cols); [now rewrite orb_true_r|].
  rewrite orb_false_r.
  destruct (Nat.eqb_spec j col) as [->|Hne]; cbn [andb]; [|reflexivity].
  destruct (Nat.ltb_spec i num_rows); [|lia].
  rewrite <- app_assoc, app_nth2_plus, app_nth1
    by (now rewrite column_length).
  unfold column. now rewrite nth_map_seq.
Qed.

Lemma concat_singletons {A B} (g : A -> B) (l : list A) :
  List.concat (map (fun a => [g a]) l) = map g l.
Proof. induction l as [|a l IH]; cbn; [reflexivity|now rewrite IH]. Qed.

Lemma firstn_plus {A} (a b : nat) (l : list A) :
  firstn (a + b) l = firstn a l ++ firstn b (skipn a l).
Proof.
  revert l; induction a as [|a IH]; intros l; [reflexivity|].
  destruct l as [|x l]; cbn [Nat.add firstn skipn app].
  - now rewrite firstn_nil.
  - now rewrite IH.
Qed.

Lemma map_nth_firstn {A} (l : list A) (d : A) (n : nat) :
  (n <= List.length l)%nat ->
  map (fun j => nth j l d) (seq 0 n) = firstn n l.
Proof.
  revert n; induction l as [|x l IH]; intros n H.
  - destruct n; [reflexivity|cbn in H; lia].
  - destruct n as [|n]; [reflexivity|].
    cbn [seq map firstn nth]. f_equal.
    rewrite <- seq_shift, map_map. cbn [nth]. apply IH. cbn in H; lia.
Qed.

Lemma map_nth_seq {A} (l : list A) (d : A) (s n : nat) :
  (s + n <= List.length l)%nat ->
  map (fun j => nth (s + j)%nat l d) (seq 0 n) = firstn n (skipn s l).
Proof.
  intros H. rewrite <- (map_nth_firstn _ d) by (rewrite length_skipn; lia).
  apply map_ext. intros j. now rewrite nth_skipn.
Qed.

(** Reading the grid row by row gives the text back. *)
Lemma rows_concat {A} (l : list A) (d : A) (num_cols num_rows : nat) :
  (num_rows * num_cols <= List.length l)%nat ->
  List.concat
    (map (fun i => map (fun j => nth (i * num_cols + j)%nat l d) (seq 0 num_cols))
       (seq 0 num_rows))
  = firstn (num_rows * num_cols) l.
Proof.
  induction num_rows as [|r IH]; intros H; [reflexivity|].
  rewrite seq_S, map_app, concat_app. cbn [map List.concat Nat.add].
  rewrite app_nil_r, IH by lia.
  rewrite map_nth_seq by lia.
  cbn [Nat.mul]. rewrite (Nat.add_comm num_cols), firstn_plus. reflexivity.
Qed.

Lemma rstrip_repeat (x : uchar) (k : nat) : rstrip x (repeat x k) = [].
Proof.
  induction k as [|k IH]; [reflexivity|].
  cbn [repeat rstrip]. rewrite IH. now rewrite Z.eqb_refl.
Qed.

(** [rstrip] removes the padding (and any [x] the text ended with). *)
Lemma rstrip_padding (x : uchar) (s : str) (k : nat) :
  rstrip x (s ++ repeat x k) = rstrip x s.
Proof.
  induction s as [|c s IH]; [apply rstrip_repeat|].
  cbn [app rstrip]. now rewrite IH.
Qed.

Lemma enumerate_columns {A} (l : list A) (s : nat) :
  map (fun col : Z * A => Z.to_nat (fst col))
    (combine (map Z.of_nat (seq s (List.length l))) l)
  = seq s (List.length l).
Proof.
  revert s; induction l as [|a l IH]; intros s; [reflexivity|].
  cbn [List.length seq map combine fst]. now rewrite Nat2Z.id, IH.
Qed.

(** The column indices of [key_order] are a rearrangement of
    [range(num_cols)]. *)
Lemma key_order_columns {A} (lt : A -> A -> bool) (key : list A) :
  Permutation
    (map (fun col => Z.to_nat (fst col)) (sorted lt snd (enumerate key)))
    (seq 0 (List.length key)).
Proof.
  rewrite sorted_perm. unfold enumerate, range.
  now rewrite enumerate_columns.
Qed.

Lemma concat_length {A B} (g : A -> list B) (n : nat) (l : list A) :
  (forall a, In a l -> List.length (g a) = n) ->
  List.length (List.concat (map g l)) = (List.length l * n)%nat.
Proof.
  induction l as [|a l IH]; intros H; [reflexivity|].
  cbn [map List.concat List.length Nat.mul].
  rewrite length_app, H by (now left).
  now rewrite IH by (intros; apply H; now right).
Qed.

Lemma index_bound (l : list Z) (x : Z) : In x l -> 0 <= index l x < len l.
Proof.
  unfold len. induction l as [|y l IH]; intros Hin; [destruct Hin|].
  cbn [index List.length]. destruct (Z.eqb_spec y x) as [|Hne]; [lia|].
  destruct Hin as [Hin|Hin]; [congruence|]. specialize (IH Hin). lia.
Qed.

Lemma str_of_int_digit (n : Z) : 1 <= n <= 9 -> List.length (str_of_int n) = 1%nat.
Proof.
  intros H.
  assert (n = 1 \/ n = 2 \/ n = 3 \/ n = 4 \/ n = 5 \/ n = 6 \/ n = 7
          \/ n = 8 \/ n = 9) as Hn by lia.
  repeat destruct Hn as [->|Hn]; try subst n; reflexivity.
Qed.

Lemma digits_nonempty (fuel : nat) (n : Z) (acc : str) :
  acc <> [] -> digits fuel n acc <> [].
Proof.
  revert n acc; induction fuel as [|fuel IH]; intros n acc H; [exact H|].
  cbn [digits]. destruct (n / 10 =? 0); [discriminate|].
  apply IH. discriminate.
Qed.

Section Text.
Context {U : Unicode}.

Lemma numeric_key_nonempty (key : str) : key <> [] -> numeric_key key <> [].
Proof.
  intros H. unfold numeric_key. destruct (isdigit key); [exact H|].
  cbn [negb]. destruct key as [|c key]; [congruence|].
  cbn [map List.concat]. intros Habs. apply app_eq_nil in Habs.
  destruct Habs as [Habs _]. revert Habs. unfold str_of_int.
  cbn [digits]. destruct (_ =? 0); [discriminate|].
  apply digits_nonempty. discriminate.
Qed.

Lemma numeric_key_digits (key : str) :
  isdigit key = true -> numeric_key key = key.
Proof. intros H. unfold numeric_key. now rewrite H. Qed.

(** The ciphertext, column by column. *)
Lemma transposition_encrypt_columns (text key : str) :
  let num_cols := List.length (numeric_key key) in
  let num_rows := Z.to_nat ((len text + Z.of_nat num_cols - 1) / Z.of_nat num_cols) in
  let padded := text ++ repeat 88 (num_cols * num_rows - List.length text) in
  let cols := map (fun col => Z.to_nat (fst col))
                (sorted Z.ltb snd (enumerate (numeric_key key))) in
  key <> [] ->
  List.length padded = (num_rows * num_cols)%nat /\
  transposition_encrypt text key
  = Ok (List.concat (map (column padded num_cols num_rows) cols)).
Proof.
  intros num_cols num_rows padded cols Hkey.
  apply numeric_key_nonempty in Hkey.
  assert (Hn : (0 < num_cols)%nat).
  { subst num_cols. destruct (numeric_key key); [congruence|cbn; lia]. }
  assert (Hrows : Z.of_nat num_rows
                  = (len text + Z.of_nat num_cols - 1) / Z.of_nat num_cols).
  { subst num_rows. rewrite Z2Nat.id; [reflexivity|].
    apply Z.div_pos; unfold len; lia. }
  assert (Hfit : (List.length text <= num_cols * num_rows)%nat).
  { apply Nat2Z.inj_le. rewrite Nat2Z.inj_mul, Hrows.
    pose proof (Z.mul_div_le (len text + Z.of_nat num_cols - 1)
                  (Z.of_nat num_cols) ltac:(lia)).
    pose proof (Z.mod_pos_bound (len text + Z.of_nat num_cols - 1)
                  (Z.of_nat num_cols) ltac:(lia)).
    pose proof (Z.div_mod (len text + Z.of_nat num_cols - 1)
                  (Z.of_nat num_cols) ltac:(lia)).
    unfold len in *. lia. }
  assert (Hlen : List.length padded = (num_rows * num_cols)%nat).
  { subst padded. rewrite length_app, repeat_length. lia. }
  split; [exact Hlen|].
  unfold transposition_encrypt, ceil_div.
  change (len (numeric_key key)) with (Z.of_nat num_cols).
  destruct (Z.eqb_spec (Z.of_nat num_cols) 0) as [H0|_]; [lia|].
  cbn [bind]. rewrite <- Hrows, !Nat2Z.id.
  replace (Z.to_nat (Z.of_nat num_cols * Z.of_nat num_rows - len text))
    with (num_cols * num_rows - List.length text)%nat by (unfold len; lia).
  fold padded.
  rewrite (for_each_map _
             (fun i => map (fun j => nth (Z.to_nat i * num_cols + Z.to_nat j)%nat padded 0)
                         (range num_cols))).
  2:{ intros i Hi. apply for_each_map. intros j Hj.
      unfold range in Hi, Hj. apply in_map_iff in Hi, Hj.
      destruct Hi as (i' & <- & Hi), Hj as (j' & <- & Hj).
      apply in_seq in Hi, Hj.
      rewrite (getitem_ok _ _ 0).
      - do 2 f_equal. lia.
      - apply Nat.lt_le_trans with (num_rows * num_cols)%nat; [nia|].
        apply Nat.eq_le_incl. symmetry. exact Hlen. }
  cbn [bind].
  rewrite (for_each_map _
             (fun col => column padded num_cols num_rows (Z.to_nat (fst col)))).
  2:{ intros col Hcol.
      assert (Hc : (Z.to_nat (fst col) < num_cols)%nat).
      { pose proof (key_order_columns Z.ltb (numeric_key key)) as Hp.
        apply (Permutation_in (Z.to_nat (fst col))) in Hp.
        - apply in_seq in Hp. exact (proj2 Hp).
        - apply in_map_iff. now exists col. }
      unfold range. rewrite map_map.
      rewrite (for_each_map _ (fun row => nth (Z.to_nat (fst col)) row 0)).
      2:{ intros row Hrow. apply getitem_ok.
          apply in_map_iff in Hrow. destruct Hrow as (i & <- & _).
          now rewrite !length_map, length_seq. }
      f_equal. rewrite map_map. unfold column. apply map_ext. intros i.
      rewrite map_map, nth_map_seq by assumption.
      cbn [Nat.add]. now rewrite !Nat2Z.id. }
  cbn [bind]. subst cols. rewrite map_map. reflexivity.
Qed.

(** For every text and every key that is not empty, [transposition_encrypt]
    returns a ciphertext of [num_cols * num_rows] characters, where
    [num_cols] is the length of the numeric key, and [transposition_decrypt]
    gives the text back without its trailing X's. *)
Theorem transposition_roundtrip (text key : str) :
  key <> [] ->
  exists ciphertext,
    transposition_encrypt text key = Ok ciphertext /\
    len ciphertext
    = len (numeric_key key)
      * ((len text + len (numeric_key key) - 1) / len (numeric_key key)) /\
    transposition_decrypt ciphertext key = Ok (rstrip 88 text).
Proof.
  intros Hkey.
  destruct (transposition_encrypt_columns text key Hkey) as [Hlen Henc].
  set (num_cols := List.length (numeric_key key)) in *.
  set (num_rows := Z.to_nat _) in *.
  set (padded := text ++ _) in *.
  set (key_order := sorted Z.ltb snd (enumerate (numeric_key key))) in *.
  set (cols := map _ key_order) in *.
  set (ciphertext := List.concat _) in *.
  pose proof (key_order_columns Z.ltb (numeric_key key)) as Hperm.
  fold key_order cols num_cols in Hperm.
  assert (Hn : (0 < num_cols)%nat).
  { apply numeric_key_nonempty in Hkey. subst num_cols.
    destruct (numeric_key key); [congruence|cbn; lia]. }
  assert (Hcols : List.length key_order = num_cols).
  { apply Permutation_length in Hperm. subst cols.
    now rewrite length_map, length_seq in Hperm. }
  assert (Hsize : List.length ciphertext = (num_cols * num_rows)%nat).
  { subst ciphertext cols. rewrite map_map.
    etransitivity;
      [apply (concat_length _ num_rows); intros; apply column_length|].
    now rewrite Hcols. }
  assert (Hrows : Z.of_nat num_rows
                  = (len text + Z.of_nat num_cols - 1) / Z.of_nat num_cols).
  { subst num_rows. rewrite Z2Nat.id; [reflexivity|].
    apply Z.div_pos; unfold len; lia. }
  exists ciphertext. split; [exact Henc|]. split.
  { change (len (numeric_key key)) with (Z.of_nat num_cols).
    rewrite <- Hrows. unfold len. rewrite Hsize. lia. }
  unfold transposition_decrypt, ceil_div.
  change (len (numeric_key key)) with (Z.of_nat num_cols).
  destruct (Z.eqb_spec (Z.of_nat num_cols) 0) as [H0|_]; [lia|].
  cbn [bind].
  replace ((len ciphertext + Z.of_nat num_cols - 1) / Z.of_nat num_cols)
    with (Z.of_nat num_rows).
  2:{ apply Z.div_unique with (r := Z.of_nat num_cols - 1); [lia|].
      unfold len. rewrite Hsize. lia. }
  rewrite !Nat2Z.id. fold key_order.
  match goal with
  | |- context [fold_left _ key_order (Ok (?grid, 0))] =>
      replace grid with (tabulate num_rows num_cols (fun _ _ => ([] : str)))
  end.
  2:{ unfold tabulate, range. rewrite map_map. apply map_ext. intros i.
      now rewrite map_map. }
  change 0 with (Z.of_nat 0).
  rewrite fill_columns.
  2:{ intros col Hcol.
      apply (Permutation_in (Z.to_nat (fst col))) in Hperm.
      - apply in_seq in Hperm. exact (proj2 Hperm).
      - apply in_map_iff. now exists col. }
  2:{ rewrite Hcols. apply Nat.eq_le_incl. symmetry. exact Hsize. }
  cbn [bind fst]. fold cols.
  rewrite (tabulate_ext _ _ _
             (fun i j => [nth (i * num_cols + j)%nat padded 0])).
  2:{ intros i j Hi Hj.
      etransitivity;
        [exact (filled_columns padded num_cols num_rows i j cols []
                  (fun _ _ => []) Hi)|].
      replace (existsb (Nat.eqb j) cols) with true; [reflexivity|].
      symmetry. apply existsb_exists. exists j.
      split; [|apply Nat.eqb_refl].
      apply Permutation_in with (seq 0 num_cols);
        [now symmetry|apply in_seq; lia]. }
  unfold tabulate. rewrite map_map.
  rewrite (map_ext _
             (fun i => map (fun j => nth (i * num_cols + j)%nat padded 0)
                         (seq 0 num_cols)))
    by (intros i; apply concat_singletons).
  rewrite rows_concat by (apply Nat.eq_le_incl; symmetry; exact Hlen).
  rewrite <- Hlen, firstn_all. subst padded. now rewrite rstrip_padding.
Qed.

(** The numeric key has the length of the key when the key is a digit
    string, or a word of at most nine characters (every rank is then one
    digit). *)
Lemma numeric_key_length (key : str) :
  isdigit key = true \/ len key <= 9 -> len (numeric_key key) = len key.
Proof.
  intros H. unfold numeric_key.
  destruct (isdigit key) eqn:Hd; [reflexivity|]. cbn [negb].
  destruct H as [H|H]; [discriminate H|].
  unfold len in *. f_equal.
  etransitivity; [apply (concat_length _ 1)|apply Nat.mul_1_r].
  intros char Hin. apply str_of_int_digit.
  assert (Hs : In char (sorted Z.ltb (fun c => c) key))
    by (apply (Permutation_in char (Permutation_sym (sorted_perm _ _ _ _ key))), Hin).
  apply index_bound in Hs. unfold len in Hs.
  rewrite (Permutation_length (sorted_perm _ _ _ _ key)) in Hs. lia.
Qed.

(** For such keys the length of the ciphertext is a multiple of the length
    of the key. *)
Theorem transposition_encrypt_multiple (text key : str) :
  key <> [] -> isdigit key = true \/ len key <= 9 ->
  exists ciphertext,
    transposition_encrypt text key = Ok ciphertext /\
    len ciphertext mod len key = 0.
Proof.
  intros Hkey Hshape.
  destruct (transposition_roundtrip text key Hkey) as (c & Henc & Hlen & _).
  exists c. split; [exact Henc|].
  rewrite Hlen, (numeric_key_length key Hshape).
  rewrite Z.mul_comm. apply Z.mod_mul.
  unfold len. destruct key; [congruence|cbn [List.length]; lia].
Qed.

End Text.

End TranspositionTheory.

(** ** The Caesar breaker *)

Module BreakerTheory.
Import CaesarBreaker FloatTheory.

Section Text.
Context {U : Unicode}.

(** [calculate_frequency_score] raises nothing: the only divisions are by
    100 and by an [expected_freq] that passed the test [> 0]. *)
Lemma calculate_frequency_score_ok (text language : str) :
  exists score, calculate_frequency_score text language = Ok score.
Proof.
  unfold calculate_frequency_score.
  destruct (len (filter isalpha (upper text)) =? 0); [now exists infinity|].
  match goal with |- context [fold_left ?f _ _] => set (step := f) end.
  assert (Hstep : forall chi letter,
             exists chi', step (Ok chi) letter = Ok chi').
  { intros chi letter. unfold step. cbn [bind].
    unfold float_truediv at 1.
    replace (float_of_int 100 =? 0)%float with false by reflexivity.
    cbn [bind].
    match goal with
    | |- context [(0 <? ?e)%float] => destruct (0 <? e)%float eqn:Hpos
    end.
    - unfold float_truediv. rewrite (positive_nonzero _ Hpos). cbn [bind].
      eexists; reflexivity.
    - eexists; reflexivity. }
  generalize 0%float as chi. generalize ascii_uppercase as letters.
  induction letters as [|letter letters IH]; intros chi; cbn [fold_left].
  - now exists chi.
  - destruct (Hstep chi letter) as [chi' ->]. apply IH.
Qed.

Lemma calculate_frequency_score_no_letters (text language : str) :
  filter isalpha (upper text) = [] ->
  calculate_frequency_score text language = Ok infinity.
Proof. intros H. unfold calculate_frequency_score. now rewrite H. Qed.

Variables encrypted_text language : str.

#[local] Abbreviation decrypted := (Notions.decrypted encrypted_text).
#[local] Abbreviation words_found :=
  (Notions.words_found encrypted_text language).
#[local] Abbreviation score := (Notions.score encrypted_text language).
#[local] Abbreviation candidate_of :=
  (Notions.candidate_of encrypted_text language).
#[local] Abbreviation searched := (Notions.searched encrypted_text language).

Lemma try_shift_ok (st : search_state) (shift : Z) :
  try_shift encrypted_text language (Ok st) shift =
  let '(best_shift, best_score, best_decryption, results) := st in
  if (score shift <? best_score)%float then
    Ok (shift, score shift, decrypted shift, results ++ [candidate_of shift])
  else
    Ok (best_shift, best_score, best_decryption,
        results ++ [candidate_of shift]).
Proof.
  destruct st as [[[bs bsc] bd] rs]. unfold try_shift. cbn [bind].
  unfold Notions.candidate_of, Notions.score, Notions.chi_squared,
    Notions.words_found, Notions.decrypted.
  destruct (calculate_frequency_score_ok
              (caesar_decrypt_with_shift encrypted_text shift) language)
    as [f ->].
  reflexivity.
Qed.

Lemma search_step (done : list Z) (st : search_state) (shift : Z) :
  (forall i, In i done -> is_nan (score i) = false) ->
  searched done st ->
  exists st', try_shift encrypted_text language (Ok st) shift = Ok st' /\
              searched (done ++ [shift]) st'.
Proof.
  intros Hnum Hinv. rewrite try_shift_ok.
  destruct st as [[[bs bsc] bd] rs]. destruct Hinv as [Hrs Hbest].
  destruct (score shift <? bsc)%float eqn:Hlt; eexists; (split; [reflexivity|]);
    (split; [rewrite map_app, Hrs; reflexivity|]).
  - (* the new candidate is better than every earlier one *)
    right. exists done, []. split; [reflexivity|]. split; [reflexivity|].
    split; [reflexivity|]. split; [|intros i []].
    intros i Hi.
    assert (Hge : (score i <? bsc)%float = false).
    { destruct Hbest as [(_ & -> & _ & Hall)|
                         (before & after & -> & -> & _ & Hb & Ha)].
      - now apply Hall.
      - apply in_app_or in Hi. destruct Hi as [Hi|[<-|Hi]].
        + apply ltb_asym. now apply Hb.
        + apply ltb_irrefl.
        + now apply Ha. }
    destruct (score shift <? score i)%float eqn:E; [reflexivity|].
    pose proof (ltb_negtrans _ _ _ (Hnum i Hi) E Hge). congruence.
  - destruct Hbest as [(-> & -> & -> & Hall)|
                       (before & after & -> & -> & -> & Hb & Ha)].
    + left. repeat split. intros i Hi. apply in_app_or in Hi.
      destruct Hi as [Hi|[<-|[]]]; [now apply Hall|exact Hlt].
    + right. exists before, (after ++ [shift]).
      split; [now rewrite <- app_assoc|]. repeat split; [exact Hb|].
      intros i Hi. apply in_app_or in Hi.
      destruct Hi as [Hi|[<-|[]]]; [now apply Ha|exact Hlt].
Qed.

Lemma search_loop (todo done : list Z) (st : search_state) :
  (forall i, In i (done ++ todo) -> is_nan (score i) = false) ->
  searched done st ->
  exists st', fold_left (try_shift encrypted_text language) todo (Ok st)
              = Ok st' /\
              searched (done ++ todo) st'.
Proof.
  revert done st; induction todo as [|shift todo IH]; intros done st Hnum Hinv.
  - exists st. rewrite app_nil_r. now split.
  - cbn [fold_left].
    destruct (search_step done st shift) as (st' & -> & Hinv'); auto.
    { intros i Hi. apply Hnum. apply in_or_app. now left. }
    replace (done ++ shift :: todo) with ((done ++ [shift]) ++ todo)
      by now rewrite <- app_assoc.
    apply IH; [|exact Hinv'].
    intros i Hi. apply Hnum. now rewrite <- app_assoc in Hi.
Qed.

Lemma seq_split (s n : nat) (l1 l2 : list nat) (x : nat) :
  seq s n = l1 ++ x :: l2 ->
  (forall i, In i l1 <-> (s <= i < x)%nat) /\
  (forall i, In i l2 <-> (x < i < s + n)%nat) /\
  (s <= x < s + n)%nat.
Proof.
  revert s n; induction l1 as [|a l1 IH]; intros s n Hseq.
  - destruct n as [|n]; [discriminate Hseq|]. cbn [seq app] in Hseq.
    injection Hseq as <- <-. split; [|split; [|lia]].
    + intros i. split; [intros []|lia].
    + intros i. rewrite in_seq. lia.
  - destruct n as [|n]; [discriminate Hseq|]. cbn [seq app] in Hseq.
    injection Hseq as <- Hseq. destruct (IH _ _ Hseq) as (H1 & H2 & H3).
    split; [|split; [|lia]].
    + intros i. cbn [In]. rewrite H1. lia.
    + intros i. rewrite H2. lia.
Qed.

Lemma range_split (n : nat) (before after : list Z) (b : Z) :
  range n = before ++ b :: after ->
  (forall i, In i before <-> 0 <= i < b) /\
  (forall i, In i after <-> b < i < Z.of_nat n) /\
  0 <= b < Z.of_nat n.
Proof.
  unfold range. intros Hr.
  apply map_eq_app in Hr. destruct Hr as (l1 & l' & Hseq & <- & Hr).
  apply map_eq_cons in Hr. destruct Hr as (x & l2 & -> & <- & <-).
  destruct (seq_split _ _ _ _ _ Hseq) as (H1 & H2 & H3).
  split; [|split; [|lia]].
  - intros i. rewrite in_map_iff. split.
    + intros (j & <- & Hj). apply H1 in Hj. lia.
    + intros Hi. exists (Z.to_nat i). split; [lia|]. apply H1. lia.
  - intros i. rewrite in_map_iff. split.
    + intros (j & <- & Hj). apply H2 in Hj. lia.
    + intros Hi. exists (Z.to_nat i). split; [lia|]. apply H2. lia.
Qed.

Lemma in_range (n : nat) (i : Z) : In i (range n) <-> 0 <= i < Z.of_nat n.
Proof.
  unfold range. rewrite in_map_iff. split.
  - intros (j & <- & Hj). apply in_seq in Hj. lia.
  - intros Hi. exists (Z.to_nat i). split; [lia|]. apply in_seq. lia.
Qed.

(** C5. When none of the 26 combined scores is a NaN,
    [break_caesar_frequency] returns a shift between 0 and 25 whose
    combined score [chi_squared - 10 * words_found] no shift undercuts, and
    which every lower shift exceeds (of equal minima the lowest shift wins).
    The confidence is 0 when the decrypted text that is returned has no
    whitespace-delimited token, and otherwise the number of dictionary words
    of the winning candidate divided by the number of tokens, times 100.
    The text that is returned is the winning candidate as soon as one
    combined score is below infinity. *)
Theorem break_caesar_frequency_best :
  (forall i, 0 <= i <= 25 -> is_nan (score i) = false) ->
  exists best_decryption best_shift confidence,
    break_caesar_frequency encrypted_text language
      = Ok (best_decryption, best_shift, confidence) /\
    0 <= best_shift <= 25 /\
    (forall i, 0 <= i <= 25 -> (score i <? score best_shift)%float = false) /\
    (forall i, 0 <= i < best_shift ->
               (score best_shift <? score i)%float = true) /\
    confidence =
      match split best_decryption with
      | [] => 0%float
      | words =>
          (float_of_int (words_found best_shift) / float_of_int (len words)
           * float_of_int 100)%float
      end /\
    ((exists i, 0 <= i <= 25 /\ (score i <? infinity)%float = true) ->
     best_decryption = decrypted best_shift).
Proof.
  intros Hnum.
  assert (Hnum' : forall i, In i ([] ++ range 26) -> is_nan (score i) = false).
  { intros i Hi. apply in_range in Hi. apply Hnum. lia. }
  destruct (search_loop (range 26) [] (0, infinity, [], []) Hnum')
    as ([[[bs bsc] bd] rs] & Hfold & Hrs & Hbest).
  { split; [reflexivity|]. left. repeat split. intros i []. }
  cbn [app] in Hrs, Hbest.
  unfold break_caesar_frequency.
  match goal with
  | |- context [bind ?loop _] =>
      replace loop with (Ok (bs, bsc, bd, rs) : result search_state)
        by (symmetry; exact Hfold)
  end.
  cbn [bind].
  (* the head of the sorted results *)
  destruct (sorted PrimFloat.ltb combined_score rs) as [|first rest] eqn:Hsorted.
  { pose proof (sorted_length _ _ PrimFloat.ltb combined_score rs) as Hlen.
    rewrite Hsorted, Hrs, length_map in Hlen. discriminate Hlen. }
  assert (Hhead :
    exists before j after, range 26 = before ++ j :: after /\
      first = candidate_of j /\
      (forall i, In i before -> (score j <? score i)%float = true) /\
      (forall i, In i after -> (score i <? score j)%float = false)).
  { destruct (sorted_head _ _ PrimFloat.ltb combined_score
                (fun k => is_nan k = false) ltb_trans ltb_negtrans
                rs first rest) as (l1 & l2 & Hsplit & H1 & H2).
    - rewrite Hrs. apply Forall_forall. intros c Hc.
      apply in_map_iff in Hc. destruct Hc as (i & <- & Hi).
      apply in_range in Hi. apply Hnum. lia.
    - exact Hsorted.
    - rewrite Hrs in Hsplit. apply map_eq_app in Hsplit.
      destruct Hsplit as (d1 & d' & Hd & <- & Hd').
      apply map_eq_cons in Hd'. destruct Hd' as (j & d2 & -> & <- & <-).
      exists d1, j, d2. split; [exact Hd|]. split; [reflexivity|]. split.
      + intros i Hi. apply (H1 (candidate_of i)). now apply in_map.
      + intros i Hi. apply (H2 (candidate_of i)). now apply in_map. }
  destruct Hhead as (hb & j & ha & Hj & -> & Hjb & Hja). clear Hsorted.
  destruct (range_split _ _ _ _ Hj) as (Hjb' & Hja' & Hjr).
  cbn [getitem Z.to_nat nth_error bind].
  destruct Hbest as [(-> & -> & -> & Hall)|
                     (before & after & Hsplit & -> & -> & Hb & Ha)].
  - (* no score was below infinity *)
    exists [], 0, 0%float. cbn [split split_aux bind].
    split; [reflexivity|]. split; [lia|]. split; [|split; [|split]].
    + intros i Hi.
      apply (ltb_negtrans _ infinity); [reflexivity| |apply ltb_infinity].
      apply Hall. apply in_range. lia.
    + intros i Hi. lia.
    + reflexivity.
    + intros (i & Hi & Hlt). rewrite Hall in Hlt; [discriminate Hlt|].
      apply in_range. lia.
  - destruct (range_split _ _ _ _ Hsplit) as (Hb' & Ha' & Hr).
    assert (Hsame : j = bs).
    { destruct (Z.lt_trichotomy j bs) as [Hlt|[Heq|Hgt]]; [|exact Heq|].
      - assert (Hin1 : In j before) by (apply Hb'; lia).
        assert (Hin2 : In bs ha) by (apply Hja'; lia).
        pose proof (Hb j Hin1). pose proof (Hja bs Hin2). congruence.
      - assert (Hin1 : In bs hb) by (apply Hjb'; lia).
        assert (Hin2 : In j after) by (apply Ha'; lia).
        pose proof (Hjb bs Hin1). pose proof (Ha j Hin2). congruence. }
    subst j.
    assert (Hmin : forall i, 0 <= i <= 25 ->
                     (score i <? score bs)%float = false).
    { intros i Hi. destruct (Z.lt_trichotomy i bs) as [Hlt|[->|Hgt]].
      - apply ltb_asym. apply Hb. apply Hb'. lia.
      - apply ltb_irrefl.
      - apply Ha. apply Ha'. lia. }
    assert (Hfirst : forall i, 0 <= i < bs ->
                       (score bs <? score i)%float = true).
    { intros i Hi. apply Hb. apply Hb'. lia. }
    destruct (split (decrypted bs)) as [|w ws] eqn:Hwords.
    + exists (decrypted bs), bs, 0%float. cbn [bind]. rewrite Hwords.
      repeat split; auto; lia.
    + exists (decrypted bs), bs. unfold int_truediv.
      replace (len (w :: ws) =? 0) with false
        by (symmetry; apply Z.eqb_neq; unfold len; cbn [List.length]; lia).
      cbn [bind word_count candidate_of]. eexists.
      split; [reflexivity|]. rewrite Hwords.
      repeat split; auto; lia.
Qed.



End Text.
End BreakerTheory.

(** ** Caesar: the algebra of the shifts *)

Module CaesarAlgebra.
Import Ciphers CaesarBreaker.
Import CaesarTheory.
Section Text.
Context {U : Unicode}.

Lemma caesar_char_compose (a b : Z) (c : uchar) :
  caesar_char b (caesar_char a c) = caesar_char (a + b) c.
Proof.
  unfold caesar_char at 2 3. unfold chr, ord.
  destruct (isupper c) eqn:Hup.
  - pose proof (chr_arg_range (c + a - 65)) as [Hr _].
    rewrite caesar_char_upper by exact Hr.
    f_equal. replace (c + (a + b) - 65) with (c + a - 65 + b) by ring.
    rewrite <- (Zplus_mod_idemp_l (c + a - 65)). f_equal. ring.
  - destruct (islower c) eqn:Hlo.
    + pose proof (chr_arg_range (c + a - 97)) as [_ Hr].
      rewrite caesar_char_lower by exact Hr.
      f_equal. replace (c + (a + b) - 97) with (c + a - 97 + b) by ring.
      rewrite <- (Zplus_mod_idemp_l (c + a - 97)). f_equal. ring.
    + now apply caesar_char_other.
Qed.

Lemma caesar_char_period (shift k : Z) (c : uchar) :
  caesar_char (shift + 26 * k) c = caesar_char shift c.
Proof.
  unfold caesar_char, chr, ord.
  replace (c + (shift + 26 * k) - 65) with (c + shift - 65 + k * 26) by ring.
  replace (c + (shift + 26 * k) - 97) with (c + shift - 97 + k * 26) by ring.
  now rewrite !Z.mod_add by lia.
Qed.

Lemma caesar_char_zero (c : uchar) : printable c -> caesar_char 0 c = c.
Proof.
  intros Hc. destruct (caesar_char_printable 0 c Hc) as [H _].
  rewrite caesar_char_compose in H. exact H.
Qed.

(** X1. Caesar shifts add up and count modulo 26, for every text:
    encrypting by [a] and then by [b] is encrypting by [a + b]; decrypting
    by [b] what was encrypted by [a] is encrypting by [a - b]; the shift
    [a] encrypts as [a mod 26] does, and decrypts as [26 - a mod 26]
    encrypts. *)
Theorem caesar_shift_algebra (text : str) (a b : Z) :
  caesar_encrypt (caesar_encrypt text a) b = caesar_encrypt text (a + b) /\
  caesar_decrypt (caesar_encrypt text a) b = caesar_encrypt text (a - b) /\
  caesar_encrypt text a = caesar_encrypt text (a mod 26) /\
  caesar_decrypt text a = caesar_encrypt text (26 - a mod 26).
Proof.
  unfold caesar_decrypt. rewrite !caesar_encrypt_map, !map_map.
  repeat split; apply map_ext; intros c.
  - apply caesar_char_compose.
  - rewrite caesar_char_compose. f_equal.
  - rewrite (Z.div_mod a 26) at 1 by lia.
    rewrite Z.add_comm. apply caesar_char_period.
  - rewrite <- (caesar_char_period (26 - a mod 26) (- (a / 26) - 1)).
    f_equal. pose proof (Z.div_mod a 26). lia.
Qed.

(** X2. A cased letter outside ASCII does not survive the Caesar round
    trip: a text that holds one is not what [caesar_decrypt] gives back
    from its ciphertext, for no cased letter of a ciphertext is outside
    ASCII. *)
Theorem caesar_roundtrip_foreign (text : str) (shift : Z) (c : uchar) :
  In c text -> isupper c = true \/ islower c = true -> is_ascii c = false ->
  caesar_decrypt (caesar_encrypt text shift) shift <> text /\
  Forall (fun c' => isupper c' = true \/ islower c' = true ->
                    is_ascii c' = true)
    (caesar_encrypt text shift).
Proof.
  intros Hin Hcased Hna. unfold caesar_decrypt.
  rewrite !caesar_encrypt_map. split.
  - rewrite map_map. intros Heq.
    assert (Hc : caesar_char (- shift) (caesar_char shift c) = c).
    { clear Hcased Hna. induction text as [|x t IH]; [destruct Hin|].
      cbn [map] in Heq. injection Heq as Hx Ht.
      destruct Hin as [->|Hin]; [exact Hx|now apply IH]. }
    rewrite caesar_char_compose in Hc. unfold caesar_char, chr, ord in Hc.
    unfold is_ascii, between in Hna.
    pose proof (chr_arg_range (c + (shift + - shift) - 65)) as [H1 _].
    pose proof (chr_arg_range (c + (shift + - shift) - 97)) as [_ H2].
    destruct (isupper c); [lia|]. destruct (islower c); [lia|].
    destruct Hcased; discriminate.
  - apply Forall_forall. intros c' Hc'.
    apply in_map_iff in Hc'. destruct Hc' as (x & <- & _).
    unfold caesar_char, chr, ord, is_ascii.
    pose proof (chr_arg_range (x + shift - 65)) as [H1 _].
    pose proof (chr_arg_range (x + shift - 97)) as [_ H2].
    destruct (isupper x) eqn:Hup; [intros _; apply between_true; lia|].
    destruct (islower x) eqn:Hlo; [intros _; apply between_true; lia|].
    rewrite Hup, Hlo. intros [H|H]; discriminate H.
Qed.

End Text.
End CaesarAlgebra.

(** ** Vigenere *)

Module VigenereTheory.
Import Ciphers.
Import CaesarTheory TranspositionTheory.
Section Text.
Context {U : Unicode}.

Lemma vigenere_raise {A B} (step : result A -> B -> result A) (l : list B)
  (e : exn) :
  (forall b, step (Raise e) b = Raise e) ->
  fold_left step l (Raise e) = Raise e.
Proof. intros H. induction l as [|b l IH]; cbn; [reflexivity|now rewrite H]. Qed.

Lemma key_letter (key : str) (key_index : Z) :
  key <> [] ->
  (i <- int_mod key_index (len key) ;; getitem key i)
  = Ok (nth (Z.to_nat (key_index mod len key)) key 0).
Proof.
  intros Hk. unfold int_mod, len.
  assert (0 < Z.of_nat (List.length key))
    by (destruct key; [congruence|cbn [List.length]; lia]).
  destruct (Z.eqb_spec (Z.of_nat (List.length key)) 0); [lia|]. cbn [bind].
  apply getitem_ok.
  pose proof (Z.mod_pos_bound key_index (Z.of_nat (List.length key))). lia.
Qed.

Lemma vigenere_loop (sign : Z) (key : str)
  (step : result (str * Z) -> uchar -> result (str * Z)) (text : str) :
  (forall r ki c,
     step (Ok (r, ki)) c
     = Ok (r ++ [vigenere_char sign key ki c],
           if isalpha c then ki + 1 else ki)) ->
  forall r ki, exists ki',
    fold_left step text (Ok (r, ki))
    = Ok (r ++ vigenere_text sign key ki text, ki').
Proof.
  intros Hstep. induction text as [|c text IH]; intros r ki.
  - exists ki. cbn. now rewrite app_nil_r.
  - cbn [fold_left vigenere_text]. rewrite Hstep.
    destruct (IH (r ++ [vigenere_char sign key ki c])
                (if isalpha c then ki + 1 else ki)) as (ki' & Hfold).
    exists ki'. etransitivity; [exact Hfold|]. now rewrite <- app_assoc.
Qed.

Lemma vigenere_encrypt_text (text key : str) :
  upper key <> [] ->
  vigenere_encrypt text key = Ok (vigenere_text 1 (upper key) 0 text).
Proof.
  intros Hk. unfold vigenere_encrypt.
  set (step := fun _ _ => _).
  assert (Hstep : forall r ki c,
             step (Ok (r, ki)) c
             = Ok (r ++ [vigenere_char 1 (upper key) ki c],
                   if isalpha c then ki + 1 else ki)).
  { intros r ki c. unfold step, vigenere_char. cbn [bind].
    destruct (isalpha c); [|reflexivity].
    pose proof (key_letter (upper key) ki Hk) as Hl.
    destruct (int_mod ki (len (upper key))) as [i|e]; [|discriminate Hl].
    cbn [bind] in Hl |- *. rewrite Hl. cbn [bind]. unfold ord, chr. cbv zeta.
    set (shift := nth (Z.to_nat (ki mod len (upper key))) (upper key) 0 - 65).
    rewrite Z.mul_1_l.
    destruct (isupper c); reflexivity. }
  destruct (vigenere_loop 1 (upper key) step text Hstep [] 0)
    as (ki' & Hfold).
  match goal with
  | |- bind ?loop _ = _ =>
      replace loop
        with (Ok ([] ++ vigenere_text 1 (upper key) 0 text, ki')
              : result (str * Z))
        by (symmetry; exact Hfold)
  end.
  reflexivity.
Qed.

Lemma vigenere_decrypt_text (text key : str) :
  upper key <> [] ->
  vigenere_decrypt text key = Ok (vigenere_text (-1) (upper key) 0 text).
Proof.
  intros Hk. unfold vigenere_decrypt.
  set (step := fun _ _ => _).
  assert (Hstep : forall r ki c,
             step (Ok (r, ki)) c
             = Ok (r ++ [vigenere_char (-1) (upper key) ki c],
                   if isalpha c then ki + 1 else ki)).
  { intros r ki c. unfold step, vigenere_char. cbn [bind].
    destruct (isalpha c); [|reflexivity].
    pose proof (key_letter (upper key) ki Hk) as Hl.
    destruct (int_mod ki (len (upper key))) as [i|e]; [|discriminate Hl].
    cbn [bind] in Hl |- *. rewrite Hl. cbn [bind]. unfold ord, chr. cbv zeta.
    set (shift := nth (Z.to_nat (ki mod len (upper key))) (upper key) 0 - 65).
    replace (c + -1 * shift) with (c - shift) by ring.
    destruct (isupper c); reflexivity. }
  destruct (vigenere_loop (-1) (upper key) step text Hstep [] 0)
    as (ki' & Hfold).
  match goal with
  | |- bind ?loop _ = _ =>
      replace loop
        with (Ok ([] ++ vigenere_text (-1) (upper key) 0 text, ki')
              : result (str * Z))
        by (symmetry; exact Hfold)
  end.
  reflexivity.
Qed.

Lemma ascii_cases (c : uchar) :
  is_ascii c = true ->
  65 <= c <= 90 \/ 97 <= c <= 122 \/
  (0 <= c <= 127 /\ ~ 65 <= c <= 90 /\ ~ 97 <= c <= 122).
Proof. unfold is_ascii, between. lia. Qed.

Lemma vigenere_char_undo (key : str) (ki : Z) (c : uchar) :
  is_ascii c = true ->
  isalpha (vigenere_char 1 key ki c) = isalpha c /\
  vigenere_char (-1) key ki (vigenere_char 1 key ki c) = c.
Proof.
  intros Hc. unfold vigenere_char. cbv zeta.
  set (shift := nth (Z.to_nat (ki mod len key)) key 0 - 65).
  destruct (ascii_cases c Hc) as [Hu|[Hl|(Ha & Hnu & Hnl)]].
  - destruct (upper_letter c Hu) as (-> & _ & ->).
    pose proof (chr_arg_range (c + 1 * shift - 65)) as [Hr _].
    destruct (upper_letter _ Hr) as (-> & _ & ->).
    split; [reflexivity|].
    rewrite Z.mul_1_l.
    replace ((c + shift - 65) mod 26 + 65 + -1 * shift - 65)
      with ((c + shift - 65) mod 26 + 65 + - shift - 65) by ring.
    apply shift_undo. lia.
  - destruct (lower_letter c Hl) as (-> & _ & ->).
    pose proof (chr_arg_range (c + 1 * shift - 97)) as [_ Hr].
    destruct (lower_letter _ Hr) as (-> & _ & ->).
    split; [reflexivity|].
    rewrite Z.mul_1_l.
    replace ((c + shift - 97) mod 26 + 97 + -1 * shift - 97)
      with ((c + shift - 97) mod 26 + 97 + - shift - 97) by ring.
    apply shift_undo. lia.
  - destruct (ascii_other c Ha Hnu Hnl) as (_ & _ & Hna).
    rewrite !Hna. split; reflexivity.
Qed.

Lemma vigenere_text_undo (key : str) (text : str) (ki : Z) :
  ascii_text text ->
  vigenere_text (-1) key ki (vigenere_text 1 key ki text) = text.
Proof.
  intros Ht. revert ki. induction Ht as [|c text Hc _ IH]; intros ki;
    [reflexivity|].
  cbn [vigenere_text].
  destruct (vigenere_char_undo key ki c Hc) as [-> ->].
  now rewrite IH.
Qed.

Lemma vigenere_undo (text key : str) :
  upper key <> [] -> ascii_text text ->
  exists ciphertext,
    vigenere_encrypt text key = Ok ciphertext /\
    len ciphertext = len text /\
    vigenere_decrypt ciphertext key = Ok text.
Proof.
  intros Hk Ht. exists (vigenere_text 1 (upper key) 0 text).
  split; [now apply vigenere_encrypt_text|]. split.
  - unfold len. f_equal. generalize 0.
    induction text as [|c text IH]; intros ki; [reflexivity|].
    cbn [vigenere_text List.length]. f_equal. apply IH.
    now inversion Ht.
  - rewrite vigenere_decrypt_text by assumption.
    now rewrite vigenere_text_undo.
Qed.

(** X3. For a key whose upper-case form is not empty and an ASCII text,
    [vigenere_encrypt] returns a ciphertext as long as the text, and
    [vigenere_decrypt] with the same key gives the text back. *)
Theorem vigenere_roundtrip (text key : str) :
  upper key <> [] -> ascii_text text ->
  exists ciphertext,
    vigenere_encrypt text key = Ok ciphertext /\
    len ciphertext = len text /\
    vigenere_decrypt ciphertext key = Ok text.
Proof. apply vigenere_undo. Qed.

Lemma empty_key_loop
  (step : result (str * Z) -> uchar -> result (str * Z)) (text : str) :
  (forall r ki c,
     step (Ok (r, ki)) c
     = if isalpha c then Raise ZeroDivisionError else Ok (r ++ [c], ki)) ->
  (forall e c, step (Raise e) c = Raise e) ->
  forall r ki,
    fold_left step text (Ok (r, ki))
    = if existsb isalpha text then Raise ZeroDivisionError
      else Ok (r ++ text, ki).
Proof.
  intros Hstep Hraise. induction text as [|c text IH]; intros r ki.
  - cbn. now rewrite app_nil_r.
  - cbn [fold_left existsb]. rewrite Hstep. destruct (isalpha c); cbn [orb].
    + now apply vigenere_raise.
    + etransitivity; [apply IH|]. now rewrite <- app_assoc.
Qed.

Lemma upper_nil : upper [] = [].
Proof. reflexivity. Qed.

(** X4. With the empty key both directions raise [ZeroDivisionError] as
    soon as the text has a letter, and return the text unchanged when it
    has none. *)
Theorem vigenere_empty_key (text : str) :
  ((exists c, In c text /\ isalpha c = true) ->
   vigenere_encrypt text [] = Raise ZeroDivisionError /\
   vigenere_decrypt text [] = Raise ZeroDivisionError) /\
  ((forall c, In c text -> isalpha c = false) ->
   vigenere_encrypt text [] = Ok text /\ vigenere_decrypt text [] = Ok text).
Proof.
  assert (Henc : vigenere_encrypt text []
                 = if existsb isalpha text then Raise ZeroDivisionError
                   else Ok text).
  { unfold vigenere_encrypt. rewrite upper_nil.
    set (step := fun _ _ => _).
    match goal with
    | |- bind ?loop _ = _ =>
        replace loop
          with (if existsb isalpha text then Raise ZeroDivisionError
                else Ok ([] ++ text, 0) : result (str * Z))
    end.
    - now destruct (existsb isalpha text).
    - symmetry. apply (empty_key_loop step text); [|reflexivity].
      intros r ki c. unfold step. cbn [bind]. now destruct (isalpha c). }
  assert (Hdec : vigenere_decrypt text []
                 = if existsb isalpha text then Raise ZeroDivisionError
                   else Ok text).
  { unfold vigenere_decrypt. rewrite upper_nil.
    set (step := fun _ _ => _).
    match goal with
    | |- bind ?loop _ = _ =>
        replace loop
          with (if existsb isalpha text then Raise ZeroDivisionError
                else Ok ([] ++ text, 0) : result (str * Z))
    end.
    - now destruct (existsb isalpha text).
    - symmetry. apply (empty_key_loop step text); [|reflexivity].
      intros r ki c. unfold step. cbn [bind]. now destruct (isalpha c). }
  rewrite Henc, Hdec. split.
  - intros (c & Hin & Hc).
    assert (existsb isalpha text = true) as ->
      by (apply existsb_exists; now exists c).
    split; reflexivity.
  - intros Hnone.
    assert (existsb isalpha text = false) as ->.
    { destruct (existsb isalpha text) eqn:He; [|reflexivity].
      apply existsb_exists in He. destruct He as (c & Hin & Hc).
      rewrite (Hnone c Hin) in Hc. discriminate Hc. }
    split; reflexivity.
Qed.

Lemma vigenere_text_single (sign : Z) (k : uchar) (text : str) (ki : Z) :
  ascii_text text ->
  vigenere_text sign [k] ki text = map (caesar_char (sign * (k - 65))) text.
Proof.
  intros Ht. revert ki. induction Ht as [|c text Hc _ IH]; intros ki;
    [reflexivity|].
  cbn [vigenere_text map]. rewrite IH. f_equal.
  unfold vigenere_char, caesar_char, chr, ord, len. cbn [List.length].
  change (Z.of_nat 1) with 1. rewrite Z.mod_1_r. cbn [Z.to_nat nth].
  destruct (ascii_cases c Hc) as [Hu|[Hl|(Ha & Hnu & Hnl)]].
  - now destruct (upper_letter c Hu) as (-> & _ & ->).
  - now destruct (lower_letter c Hl) as (-> & -> & ->).
  - now destruct (ascii_other c Ha Hnu Hnl) as (-> & -> & ->).
Qed.

(** X5. With a key of one ASCII character [k], the Vigenere cipher on an
    ASCII text is the Caesar cipher of shift [ord(k.upper()) - 65], in both
    directions. *)
Theorem vigenere_single_letter (text : str) (k : uchar) :
  is_ascii k = true -> ascii_text text ->
  vigenere_encrypt text [k] = Ok (caesar_encrypt text (ascii_upper k - 65)) /\
  vigenere_decrypt text [k] = Ok (caesar_decrypt text (ascii_upper k - 65)).
Proof.
  intros Hk Ht.
  assert (Hup : upper [k] = [ascii_upper k]).
  { unfold upper. cbn [forallb]. now rewrite Hk. }
  rewrite vigenere_encrypt_text, vigenere_decrypt_text
    by (rewrite Hup; discriminate).
  rewrite Hup, !vigenere_text_single by assumption.
  unfold caesar_decrypt. rewrite !caesar_encrypt_map.
  split; do 3 f_equal; ring.
Qed.

Lemma ascii_text_forallb (s : str) :
  ascii_text s <-> forallb is_ascii s = true.
Proof.
  unfold ascii_text. rewrite Forall_forall, forallb_forall. reflexivity.
Qed.

Lemma upper_ascii (s : str) : ascii_text s -> upper s = map ascii_upper s.
Proof. intros H. unfold upper. now rewrite (proj1 (ascii_text_forallb s) H). Qed.

Lemma lower_ascii (s : str) : ascii_text s -> lower s = map ascii_lower s.
Proof. intros H. unfold lower. now rewrite (proj1 (ascii_text_forallb s) H). Qed.

Lemma ascii_upper_ascii (c : uchar) :
  is_ascii c = true ->
  is_ascii (ascii_upper c) = true /\ is_ascii (ascii_lower c) = true /\
  ascii_upper (ascii_upper c) = ascii_upper c /\
  ascii_upper (ascii_lower c) = ascii_upper c.
Proof.
  unfold is_ascii, ascii_upper, ascii_lower, ascii_islower, ascii_isupper,
    between.
  intros H.
  repeat match goal with
         | |- context [?a <=? ?b] => destruct (Z.leb_spec a b)
         end; cbn [andb] in *; repeat split; try reflexivity; try lia.
Qed.

(** The case of an ASCII key does not matter. *)
Lemma vigenere_key_case (text key : str) :
  ascii_text key ->
  vigenere_encrypt text (upper key) = vigenere_encrypt text key /\
  vigenere_encrypt text (lower key) = vigenere_encrypt text key /\
  vigenere_decrypt text (upper key) = vigenere_decrypt text key /\
  vigenere_decrypt text (lower key) = vigenere_decrypt text key.
Proof.
  intros Hk.
  assert (Hk' : forall c, In c key -> is_ascii c = true)
    by (apply Forall_forall; exact Hk).
  assert (Hu : upper (upper key) = upper key).
  { rewrite (upper_ascii key Hk). rewrite upper_ascii.
    - rewrite map_map. apply map_ext_in. intros c Hc.
      apply ascii_upper_ascii. now apply Hk'.
    - apply Forall_forall. intros c Hc. apply in_map_iff in Hc.
      destruct Hc as (x & <- & Hx). apply ascii_upper_ascii. now apply Hk'. }
  assert (Hl : upper (lower key) = upper key).
  { rewrite (lower_ascii key Hk), (upper_ascii key Hk). rewrite upper_ascii.
    - rewrite map_map. apply map_ext_in. intros c Hc.
      apply ascii_upper_ascii. now apply Hk'.
    - apply Forall_forall. intros c Hc. apply in_map_iff in Hc.
      destruct Hc as (x & <- & Hx). apply ascii_upper_ascii. now apply Hk'. }
  unfold vigenere_encrypt, vigenere_decrypt. rewrite Hu, Hl.
  repeat split; reflexivity.
Qed.

End Text.
End VigenereTheory.

(** ** The brute force of the Caesar breaker *)

Module BruteForceTheory.
Import Ciphers CaesarBreaker.
Import CaesarTheory CaesarAlgebra TranspositionTheory.
Section Text.
Context {U : Unicode}.

Lemma brute_force_map (encrypted_text : str) :
  break_caesar_brute_force encrypted_text
  = map (fun s => (s, caesar_decrypt_with_shift encrypted_text s)) (range 26).
Proof.
  unfold break_caesar_brute_force.
  now rewrite (fold_left_append _
                 (fun s => (s, caesar_decrypt_with_shift encrypted_text s))).
Qed.

(** X6. The brute force finds every plaintext: for a text of printable
    ASCII characters and any shift, the list that
    [break_caesar_brute_force] returns for the ciphertext holds the text at
    index [shift mod 26], paired with that shift. *)
Theorem brute_force_finds (plaintext : str) (shift : Z) :
  Forall printable plaintext ->
  getitem (break_caesar_brute_force (caesar_encrypt plaintext shift))
    (shift mod 26)
  = Ok (shift mod 26, plaintext).
Proof.
  intros Hp. pose proof (Z.mod_pos_bound shift 26 ltac:(lia)) as Hm.
  rewrite brute_force_map.
  rewrite (getitem_ok _ _ (0, ([] : str)))
    by (rewrite length_map; unfold range; rewrite length_map, length_seq; lia).
  unfold range. rewrite map_map, nth_map_seq by lia.
  cbn [Nat.add]. rewrite Z2Nat.id by lia. do 2 f_equal.
  rewrite caesar_decrypt_with_shift_map, caesar_encrypt_map, map_map.
  rewrite <- (map_id plaintext) at 2. apply map_ext_in. intros c Hc.
  rewrite caesar_char_compose.
  replace (shift + - (shift mod 26)) with (0 + 26 * (shift / 26))
    by (pose proof (Z.div_mod shift 26); lia).
  rewrite caesar_char_period. apply caesar_char_zero.
  rewrite Forall_forall in Hp. now apply Hp.
Qed.

End Text.
End BruteForceTheory.

(** ** Euclid: [gcd] on all integers *)

Module EuclidTheory.
Import Ciphers.
Import ArithTheory.

Lemma gcd_loop_abs (fuel : nat) (a b : Z) :
  (Z.abs_nat b < fuel)%nat -> Z.abs (gcd_loop fuel a b) = Z.gcd a b.
Proof.
  revert a b; induction fuel as [|fuel IH]; intros a b Hfuel; [lia|].
  cbn [gcd_loop]. destruct (Z.eqb_spec b 0) as [->|Hb].
  - now rewrite Z.gcd_0_r.
  - rewrite IH.
    + rewrite Z.gcd_comm, Z.gcd_mod by assumption. apply Z.gcd_comm.
    + pose proof (Z.mod_pos_bound a b). pose proof (Z.mod_neg_bound a b). lia.
Qed.

(** X7. For any two integers [gcd(a, b)] is their greatest common divisor
    up to its sign, and the divisor itself when neither is negative;
    [gcd(a, 0)] is [a]. *)
Theorem gcd_abs (a b : Z) :
  Z.abs (gcd a b) = Z.gcd a b /\
  gcd a 0 = a /\
  (0 <= a -> 0 <= b -> gcd a b = Z.gcd a b).
Proof.
  split; [|split].
  - unfold gcd. apply gcd_loop_abs. lia.
  - reflexivity.
  - apply gcd_spec.
Qed.

End EuclidTheory.

(** ** The search for a prime: [generate_prime] *)

Module PrimeSearchTheory.
Import Ciphers.
Import PrimeTheory.

Lemma candidate_shape (bits num : Z) :
  1 <= bits -> 0 <= num < 2 ^ bits ->
  let candidate := Z.lor num (Z.lor (Z.shiftl 1 (bits - 1)) 1) in
  2 ^ (bits - 1) <= candidate < 2 ^ bits /\ candidate mod 2 = 1.
Proof.
  intros Hbits Hnum candidate.
  assert (Hshift : Z.shiftl 1 (bits - 1) = 2 ^ (bits - 1))
    by (rewrite Z.shiftl_1_l; reflexivity).
  assert (Hpos : 0 < 2 ^ (bits - 1)) by (apply Z.pow_pos_nonneg; lia).
  assert (Hmask : 0 <= Z.lor (Z.shiftl 1 (bits - 1)) 1)
    by (apply Z.lor_nonneg; lia).
  assert (Hc : 0 <= candidate) by (apply Z.lor_nonneg; lia).
  assert (Hlog : Z.log2 candidate
                 = Z.max (Z.log2 num) (Z.max (bits - 1) 0)).
  { unfold candidate. rewrite !Z.log2_lor by lia.
    rewrite Hshift, Z.log2_pow2 by lia. reflexivity. }
  assert (Hodd : Z.odd candidate = true).
  { rewrite <- Z.bit0_odd. unfold candidate. rewrite !Z.lor_spec.
    cbn. now rewrite !orb_true_r. }
  assert (Hc0 : 0 < candidate).
  { destruct (Z.eq_dec candidate 0) as [H0|]; [|lia].
    rewrite H0 in Hodd. discriminate Hodd. }
  assert (Hlognum : Z.log2 num < bits).
  { destruct (Z.eq_dec num 0) as [->|]; [cbn; lia|].
    apply Z.log2_lt_pow2; lia. }
  repeat split.
  - apply Z.log2_le_pow2; lia.
  - apply Z.log2_lt_pow2; lia.
  - rewrite Zmod_odd, Hodd. reflexivity.
Qed.

Lemma is_prime_prime (draw : nat -> Z) (n : Z) (k : nat) :
  Z.prime n -> (forall i, (i < k)%nat -> 2 <= draw i <= n - 2) ->
  is_prime draw n k = true.
Proof.
  intros Hn Hdraw. pose proof (Z.prime_ge_2 _ Hn).
  destruct (Z_le_dec n 3) as [Hle|Hgt].
  - unfold is_prime. destruct (Z.ltb_spec n 2); [lia|].
    assert (n = 2 \/ n = 3) as [->| ->] by lia; reflexivity.
  - rewrite is_prime_odd by (try apply prime_odd; auto; lia).
    apply forallb_forall. intros a Hin.
    apply in_map_iff in Hin. destruct Hin as (i & <- & Hi).
    apply in_seq in Hi.
    rewrite mr_witness_prime; auto; try lia. apply Hdraw. lia.
Qed.

Lemma generate_prime_found
  (attempts : list (Z * (nat -> Z))) (bits num : Z) :
  (forall a, In a attempts -> 0 <= fst a < 2 ^ bits) ->
  generate_prime attempts bits = Ok (Some num) ->
  1 <= bits /\ 2 ^ (bits - 1) <= num < 2 ^ bits /\ num mod 2 = 1 /\
  exists before raw draw after,
    attempts = before ++ (raw, draw) :: after /\
    num = Z.lor raw (Z.lor (Z.shiftl 1 (bits - 1)) 1) /\
    is_prime draw num 5 = true /\
    forall a, In a before ->
      is_prime (snd a) (Z.lor (fst a) (Z.lor (Z.shiftl 1 (bits - 1)) 1)) 5
      = false.
Proof.
  intros Hraw. unfold generate_prime.
  destruct (Z.ltb_spec bits 1) as [|Hbits]; [discriminate|].
  intros H; injection H as H. split; [exact Hbits|].
  induction attempts as [|[raw draw] attempts IH]; [discriminate H|].
  cbn [generate_prime_loop] in H.
  destruct (is_prime draw _ 5) eqn:Hp.
  - injection H as <-.
    destruct (candidate_shape bits raw Hbits (Hraw (raw, draw) (or_introl eq_refl)))
      as (Hb & Hodd).
    repeat split; try apply Hb; try exact Hodd.
    exists [], raw, draw, attempts. repeat split; try assumption.
    intros a [].
  - destruct IH as (Hb & Hodd & before & raw' & draw' & after & -> & Hn & Hp' & Hrej);
      [intros a Ha; apply Hraw; now right|exact H|].
    repeat split; try apply Hb; try exact Hodd.
    exists ((raw, draw) :: before), raw', draw', after.
    repeat split; try assumption.
    intros a [<-|Ha]; [exact Hp|now apply Hrej].
Qed.

(** X8. When every draw of [getrandbits(bits)] is below [2^bits] and
    [generate_prime] returns [num], then [bits >= 1], [num] has exactly
    [bits] bits and is odd, and it is the candidate of the first turn whose
    candidate passed [is_prime]. *)
Theorem generate_prime_shape
  (attempts : list (Z * (nat -> Z))) (bits num : Z) :
  (forall a, In a attempts -> 0 <= fst a < 2 ^ bits) ->
  generate_prime attempts bits = Ok (Some num) ->
  1 <= bits /\ 2 ^ (bits - 1) <= num < 2 ^ bits /\ num mod 2 = 1 /\
  exists before raw draw after,
    attempts = before ++ (raw, draw) :: after /\
    num = Z.lor raw (Z.lor (Z.shiftl 1 (bits - 1)) 1) /\
    is_prime draw num 5 = true /\
    forall a, In a before ->
      is_prime (snd a) (Z.lor (fst a) (Z.lor (Z.shiftl 1 (bits - 1)) 1)) 5
      = false.
Proof. apply generate_prime_found. Qed.

(** X9. The search ends at a prime candidate at the latest: when the
    candidate of some turn is prime, and the bases drawn for it are between
    2 and [candidate - 2], [generate_prime] returns that candidate or the
    candidate of an earlier turn. *)
Theorem generate_prime_accepts
  (before after : list (Z * (nat -> Z))) (bits raw : Z) (draw : nat -> Z) :
  let candidate := Z.lor raw (Z.lor (Z.shiftl 1 (bits - 1)) 1) in
  1 <= bits -> Z.prime candidate ->
  (forall i, (i < 5)%nat -> 2 <= draw i <= candidate - 2) ->
  exists num,
    generate_prime (before ++ (raw, draw) :: after) bits = Ok (Some num) /\
    (num = candidate \/
     exists a, In a before /\
               num = Z.lor (fst a) (Z.lor (Z.shiftl 1 (bits - 1)) 1)).
Proof.
  intros candidate Hbits Hprime Hdraw. unfold generate_prime.
  destruct (Z.ltb_spec bits 1); [lia|].
  induction before as [|[raw' draw'] before IH]; cbn [app generate_prime_loop].
  - fold candidate. rewrite (is_prime_prime draw candidate 5 Hprime Hdraw).
    exists candidate. split; [reflexivity|now left].
  - destruct (is_prime draw' _ 5).
    + eexists. split; [reflexivity|]. right. exists (raw', draw').
      split; [now left|reflexivity].
    + destruct IH as (num & Hnum & Hcase). exists num. split; [exact Hnum|].
      destruct Hcase as [->|(a & Ha & ->)]; [now left|].
      right. exists a. split; [now right|reflexivity].
Qed.

(** X10. [generate_prime] raises [ValueError] for [bits < 1], and for
    [bits = 1] it never returns: every candidate is 1 and is rejected,
    whatever is drawn. *)
Theorem generate_prime_one_bit (attempts : list (Z * (nat -> Z))) (bits : Z) :
  (bits < 1 -> generate_prime attempts bits = Raise ValueError) /\
  (bits = 1 -> (forall a, In a attempts -> 0 <= fst a < 2 ^ bits) ->
   generate_prime attempts bits = Ok None).
Proof.
  split.
  - intros H. unfold generate_prime. destruct (Z.ltb_spec bits 1); [reflexivity|lia].
  - intros -> Hraw. unfold generate_prime.
    destruct (Z.ltb_spec 1 1); [lia|]. f_equal.
    induction attempts as [|[raw draw] attempts IH]; [reflexivity|].
    cbn [generate_prime_loop].
    assert (Hr : raw = 0 \/ raw = 1).
    { specialize (Hraw (raw, draw) (or_introl eq_refl)). cbn in Hraw. lia. }
    rewrite IH by (intros a Ha; apply Hraw; now right).
    destruct Hr as [-> | ->]; reflexivity.
Qed.

End PrimeSearchTheory.

(** ** Key pairs: [rsa_generate_keypair] *)

Module KeyPairTheory.
Import Ciphers.
Import ArithTheory RsaTheory PrimeSearchTheory.

(** X11. For any [p] and [q] from 2 on with [(p-1)(q-1) > 1],
    [rsa_generate_keypair] raises nothing and returns a key pair
    [((e, pq), (d, pq))] with [e >= 3] coprime with [(p-1)(q-1)],
    [0 <= d < (p-1)(q-1)] and [e * d] equal to 1 modulo [(p-1)(q-1)]. *)
Theorem rsa_generate_keypair_wellformed (p q : Z) :
  2 <= p -> 2 <= q -> 1 < (p - 1) * (q - 1) ->
  exists e d,
    rsa_generate_keypair p q = Ok ((e, p * q), (d, p * q)) /\
    3 <= e /\ 0 <= d < (p - 1) * (q - 1) /\
    (e * d) mod ((p - 1) * (q - 1)) = 1 /\
    Z.gcd e ((p - 1) * (q - 1)) = 1.
Proof.
  intros Hp Hq Hphi.
  destruct (rsa_generate_keypair_returns p q Hp Hq) as (e & d & Hkey).
  exists e, d. split; [exact Hkey|].
  destruct (rsa_generate_keypair_inv _ _ _ _ _ _ Hphi Hkey)
    as (_ & _ & He & Hd & Hed).
  repeat split; try assumption; try apply Hd.
  apply Z.coprime_Bezout.
  exists d, (- (e * d / ((p - 1) * (q - 1)))).
  pose proof (Z.div_mod (e * d) ((p - 1) * (q - 1)) ltac:(lia)). lia.
Qed.

(** X12. From 5 bits on, two numbers that [generate_prime] returned give a
    key pair whose modulus has [2 * bits - 1] or [2 * bits] bits and is
    above 255, so that every byte is below the modulus. *)
Theorem generated_modulus
  (attempts_p attempts_q : list (Z * (nat -> Z))) (bits p q : Z) :
  5 <= bits ->
  (forall a, In a attempts_p -> 0 <= fst a < 2 ^ bits) ->
  (forall a, In a attempts_q -> 0 <= fst a < 2 ^ bits) ->
  generate_prime attempts_p bits = Ok (Some p) ->
  generate_prime attempts_q bits = Ok (Some q) ->
  exists e d,
    rsa_generate_keypair p q = Ok ((e, p * q), (d, p * q)) /\
    2 ^ (2 * bits - 2) <= p * q < 2 ^ (2 * bits) /\ 255 < p * q.
Proof.
  intros Hbits Hap Haq Hgp Hgq.
  destruct (generate_prime_found _ _ _ Hap Hgp) as (_ & Hp & _).
  destruct (generate_prime_found _ _ _ Haq Hgq) as (_ & Hq & _).
  assert (Hlow : 2 ^ 4 <= 2 ^ (bits - 1)) by (apply Z.pow_le_mono_r; lia).
  change (2 ^ 4) with 16 in Hlow.
  destruct (rsa_generate_keypair_returns p q) as (e & d & Hkey); try lia.
  exists e, d. split; [exact Hkey|].
  replace (2 * bits - 2) with ((bits - 1) + (bits - 1)) by ring.
  replace (2 * bits) with (bits + bits) by ring.
  rewrite !Z.pow_add_r by lia. nia.
Qed.

End KeyPairTheory.

(** ** RSA over UTF-8 *)

Module Utf8Theory.
Import Ciphers.
Import ArithTheory RsaTheory.

Lemma utf8_decode_1 (b0 : Z) (rest : list Z) :
  0 <= b0 <= 127 ->
  utf8_decode (b0 :: rest) = (s <- utf8_decode rest ;; Ok (b0 :: s)).
Proof.
  intros H0. unfold utf8_decode at 1; fold utf8_decode.
  now rewrite (between_true 0 127 b0) by lia.
Qed.

Lemma utf8_decode_2 (b0 b1 : Z) (rest : list Z) :
  194 <= b0 <= 223 -> 128 <= b1 <= 191 ->
  utf8_decode (b0 :: b1 :: rest)
  = (s <- utf8_decode rest ;; Ok ((b0 - 192) * 64 + (b1 - 128) :: s)).
Proof.
  intros H0 H1. unfold utf8_decode at 1; fold utf8_decode.
  rewrite (between_false 0 127 b0), (between_true 194 223 b0) by lia.
  unfold continuation. now rewrite (between_true 128 191 b1) by lia.
Qed.

Lemma utf8_decode_3 (b0 b1 b2 : Z) (rest : list Z) :
  224 <= b0 <= 239 -> 128 <= b1 <= 191 -> 128 <= b2 <= 191 ->
  (b0 = 224 -> 160 <= b1) -> (b0 = 237 -> b1 <= 159) ->
  utf8_decode (b0 :: b1 :: b2 :: rest)
  = (s <- utf8_decode rest ;;
     Ok ((b0 - 224) * 4096 + (b1 - 128) * 64 + (b2 - 128) :: s)).
Proof.
  intros H0 H1 H2 Hlow Hhigh. unfold utf8_decode at 1; fold utf8_decode.
  rewrite (between_false 0 127 b0), (between_false 194 223 b0),
    (between_true 224 239 b0) by lia.
  unfold continuation.
  rewrite (between_true 128 191 b1), (between_true 128 191 b2) by lia.
  destruct (Z.eqb_spec b0 224), (Z.ltb_spec b1 160), (Z.eqb_spec b0 237),
    (Z.ltb_spec 159 b1); cbn [andb negb]; try lia; reflexivity.
Qed.

Lemma utf8_decode_4 (b0 b1 b2 b3 : Z) (rest : list Z) :
  240 <= b0 <= 244 -> 128 <= b1 <= 191 -> 128 <= b2 <= 191 ->
  128 <= b3 <= 191 ->
  (b0 = 240 -> 144 <= b1) -> (b0 = 244 -> b1 <= 143) ->
  utf8_decode (b0 :: b1 :: b2 :: b3 :: rest)
  = (s <- utf8_decode rest ;;
     Ok ((b0 - 240) * 262144 + (b1 - 128) * 4096 + (b2 - 128) * 64
         + (b3 - 128) :: s)).
Proof.
  intros H0 H1 H2 H3 Hlow Hhigh. unfold utf8_decode at 1; fold utf8_decode.
  rewrite (between_false 0 127 b0), (between_false 194 223 b0),
    (between_false 224 239 b0), (between_true 240 244 b0) by lia.
  unfold continuation.
  rewrite (between_true 128 191 b1), (between_true 128 191 b2),
    (between_true 128 191 b3) by lia.
  destruct (Z.eqb_spec b0 240), (Z.ltb_spec b1 144), (Z.eqb_spec b0 244),
    (Z.ltb_spec 143 b1); cbn [andb negb]; try lia; reflexivity.
Qed.

Lemma utf8_char_roundtrip (c : uchar) :
  scalar_value c ->
  exists b,
    utf8_encode_char c = Ok b /\
    Forall (fun x => 0 <= x <= 255) b /\
    forall rest,
      utf8_decode (b ++ rest) = (s <- utf8_decode rest ;; Ok (c :: s)).
Proof.
  intros [Hrange Hsur]. unfold utf8_encode_char.
  destruct (Z.ltb_spec c 128) as [H1|H1].
  { exists [c]. split; [reflexivity|]. split; [repeat constructor; lia|].
    intros rest. cbn [app]. apply utf8_decode_1. lia. }
  destruct (Z.ltb_spec c 2048) as [H2|H2].
  { set (b0 := 192 + c / 64). set (b1 := 128 + c mod 64).
    assert (Hb0 : 194 <= b0 <= 223) by (unfold b0; Z.div_mod_to_equations; lia).
    assert (Hb1 : 128 <= b1 <= 191) by (unfold b1; Z.div_mod_to_equations; lia).
    assert (Hv : (b0 - 192) * 64 + (b1 - 128) = c)
      by (unfold b0, b1; Z.div_mod_to_equations; lia).
    exists [b0; b1]. split; [reflexivity|].
    split; [repeat constructor; lia|].
    intros rest. cbn [app]. rewrite utf8_decode_2 by assumption.
    now rewrite Hv. }
  rewrite (between_false 55296 57343 c) by lia.
  destruct (Z.ltb_spec c 65536) as [H3|H3].
  { set (b0 := 224 + c / 4096). set (b1 := 128 + (c / 64) mod 64).
    set (b2 := 128 + c mod 64).
    assert (Hb0 : 224 <= b0 <= 239) by (unfold b0; Z.div_mod_to_equations; lia).
    assert (Hb1 : 128 <= b1 <= 191) by (unfold b1; Z.div_mod_to_equations; lia).
    assert (Hb2 : 128 <= b2 <= 191) by (unfold b2; Z.div_mod_to_equations; lia).
    assert (Hlow : b0 = 224 -> 160 <= b1)
      by (unfold b0, b1; Z.div_mod_to_equations; lia).
    assert (Hhigh : b0 = 237 -> b1 <= 159)
      by (unfold b0, b1; Z.div_mod_to_equations; lia).
    assert (Hv : (b0 - 224) * 4096 + (b1 - 128) * 64 + (b2 - 128) = c)
      by (unfold b0, b1, b2; Z.div_mod_to_equations; lia).
    exists [b0; b1; b2]. split; [reflexivity|].
    split; [repeat constructor; lia|].
    intros rest. cbn [app]. rewrite utf8_decode_3 by assumption.
    now rewrite Hv. }
  set (b0 := 240 + c / 262144). set (b1 := 128 + (c / 4096) mod 64).
  set (b2 := 128 + (c / 64) mod 64). set (b3 := 128 + c mod 64).
  assert (Hb0 : 240 <= b0 <= 244) by (unfold b0; Z.div_mod_to_equations; lia).
  assert (Hb1 : 128 <= b1 <= 191) by (unfold b1; Z.div_mod_to_equations; lia).
  assert (Hb2 : 128 <= b2 <= 191) by (unfold b2; Z.div_mod_to_equations; lia).
  assert (Hb3 : 128 <= b3 <= 191) by (unfold b3; Z.div_mod_to_equations; lia).
  assert (Hlow : b0 = 240 -> 144 <= b1)
    by (unfold b0, b1; Z.div_mod_to_equations; lia).
  assert (Hhigh : b0 = 244 -> b1 <= 143)
    by (unfold b0, b1; Z.div_mod_to_equations; lia).
  assert (Hv : (b0 - 240) * 262144 + (b1 - 128) * 4096 + (b2 - 128) * 64
               + (b3 - 128) = c)
    by (unfold b0, b1, b2, b3; Z.div_mod_to_equations; lia).
  exists [b0; b1; b2; b3]. split; [reflexivity|].
  split; [repeat constructor; lia|].
  intros rest. cbn [app]. rewrite utf8_decode_4 by assumption.
  now rewrite Hv.
Qed.

Lemma utf8_roundtrip (text : str) :
  Forall scalar_value text ->
  exists b,
    utf8_encode text = Ok b /\ Forall (fun x => 0 <= x <= 255) b /\
    utf8_decode b = Ok text.
Proof.
  induction 1 as [|c text Hc _ (b & Henc & Hb & Hdec)].
  - exists []. repeat split; constructor.
  - destruct (utf8_char_roundtrip c Hc) as (bc & Hec & Hbc & Hdc).
    exists (bc ++ b). cbn [utf8_encode]. rewrite Hec, Henc.
    split; [reflexivity|]. split; [now apply Forall_app|].
    now rewrite Hdc, Hdec.
Qed.

Lemma rsa_encrypt_bytes (message : str) (e n : Z) :
  rsa_encrypt message (e, n)
  = (message_bytes <- utf8_encode message ;;
     Ok (map (fun byte => pow byte e n) message_bytes)).
Proof.
  unfold rsa_encrypt. destruct (utf8_encode message) as [b|err]; [|reflexivity].
  cbn [bind]. now rewrite (fold_left_append _ (fun byte => pow byte e n)).
Qed.

Lemma rsa_decrypt_bytes (encrypted_message : list Z) (d n : Z) :
  rsa_decrypt encrypted_message (d, n)
  = (b <- bytes (map (fun c => pow c d n) encrypted_message) ;; utf8_decode b).
Proof.
  unfold rsa_decrypt.
  now rewrite (fold_left_append _ (fun c => pow c d n)).
Qed.

Lemma rsa_roundtrip_scalar (p q e d n : Z) (text : str) :
  Z.prime p -> Z.prime q -> p <> q ->
  rsa_generate_keypair p q = Ok ((e, n), (d, n)) ->
  255 < n ->
  Forall scalar_value text ->
  exists encrypted,
    rsa_encrypt text (e, n) = Ok encrypted /\
    rsa_decrypt encrypted (d, n) = Ok text.
Proof.
  intros Hp Hq Hpq Hkey Hn Htext.
  pose proof (Z.prime_ge_2 _ Hp). pose proof (Z.prime_ge_2 _ Hq).
  apply rsa_generate_keypair_inv in Hkey; [|nia].
  destruct Hkey as (-> & _ & He & Hd & Hed).
  destruct (utf8_roundtrip text Htext) as (b & Henc & Hb & Hdec).
  exists (map (fun byte => pow byte e (p * q)) b).
  rewrite rsa_encrypt_bytes, Henc. split; [reflexivity|].
  rewrite rsa_decrypt_bytes, map_map.
  assert (Hid : map (fun x => pow (pow x e (p * q)) d (p * q)) b = b).
  { rewrite <- (map_id b) at 2. apply map_ext_in. intros x Hx.
    rewrite Forall_forall in Hb. specialize (Hb x Hx).
    apply rsa_core; auto; lia. }
  rewrite Hid. unfold bytes.
  assert (Hbytes : forallb (between 0 255) b = true).
  { apply forallb_forall. intros x Hx. rewrite Forall_forall in Hb.
    apply between_true. now apply Hb. }
  rewrite Hbytes. exact Hdec.
Qed.

(** X13. With a key pair built from two distinct primes and a modulus
    above 255, every text of code points that UTF-8 encodes (in range, no
    surrogate) is encrypted, and decrypting the result gives the text
    back. *)
Theorem rsa_roundtrip_unicode (p q e d n : Z) (text : str) :
  Z.prime p -> Z.prime q -> p <> q ->
  rsa_generate_keypair p q = Ok ((e, n), (d, n)) ->
  255 < n ->
  Forall scalar_value text ->
  exists encrypted,
    rsa_encrypt text (e, n) = Ok encrypted /\
    rsa_decrypt encrypted (d, n) = Ok text.
Proof. apply rsa_roundtrip_scalar. Qed.

Lemma utf8_encode_char_raises (c : uchar) :
  (utf8_encode_char c = Raise UnicodeEncodeError <-> 55296 <= c <= 57343) /\
  (forall e, utf8_encode_char c = Raise e -> e = UnicodeEncodeError).
Proof.
  unfold utf8_encode_char, between.
  destruct (Z.ltb_spec c 128);
    [split; [split; [discriminate|lia]|discriminate]|].
  destruct (Z.ltb_spec c 2048);
    [split; [split; [discriminate|lia]|discriminate]|].
  destruct (Z.leb_spec 55296 c), (Z.leb_spec c 57343); cbn [andb].
  - split; [split; [lia|reflexivity]|]. intros e He. now injection He.
  - destruct (Z.ltb_spec c 65536);
      split; try discriminate; split; try discriminate; lia.
  - destruct (Z.ltb_spec c 65536);
      split; try discriminate; split; try discriminate; lia.
  - destruct (Z.ltb_spec c 65536);
      split; try discriminate; split; try discriminate; lia.
Qed.

Lemma utf8_encode_raises (text : str) :
  (utf8_encode text = Raise UnicodeEncodeError <->
   exists c, In c text /\ 55296 <= c <= 57343) /\
  (forall e, utf8_encode text = Raise e -> e = UnicodeEncodeError).
Proof.
  induction text as [|c text [IH1 IH2]].
  - split; [|discriminate]. split; [discriminate|intros (c & [] & _)].
  - cbn [utf8_encode].
    destruct (utf8_encode_char_raises c) as [Hc1 Hc2].
    destruct (utf8_encode_char c) as [b|e].
    + cbn [bind]. destruct (utf8_encode text) as [bs|e]; cbn [bind].
      * split; [|discriminate]. split; [discriminate|].
        intros (x & [<-|Hx] & Hs).
        -- apply Hc1 in Hs. discriminate Hs.
        -- assert (Habs : Ok bs = Raise UnicodeEncodeError)
             by (apply IH1; now exists x).
           discriminate Habs.
      * assert (e = UnicodeEncodeError) as -> by (now apply IH2).
        split; [|intros e' H; now injection H].
        split; [|reflexivity].
        intros _. destruct (proj1 IH1 eq_refl) as (x & Hx & Hs).
        exists x. split; [now right|exact Hs].
    + assert (e = UnicodeEncodeError) as -> by (now apply Hc2).
      cbn [bind]. split; [|intros e' H; now injection H].
      split; [|reflexivity].
      intros _. exists c. split; [now left|]. now apply Hc1.
Qed.

(** X14. For a public key with [e >= 0] and [n > 0], [rsa_encrypt] raises
    [UnicodeEncodeError] exactly when the text holds a surrogate, and
    nothing else; what it returns is [b^e mod n] for each UTF-8 byte [b] of
    the text, one integer per byte, each in [[0, n)]. *)
Theorem rsa_encrypt_errors (text : str) (e n : Z) :
  0 <= e -> 0 < n ->
  (rsa_encrypt text (e, n) = Raise UnicodeEncodeError <->
   exists c, In c text /\ 55296 <= c <= 57343) /\
  (forall err, rsa_encrypt text (e, n) = Raise err ->
               err = UnicodeEncodeError) /\
  (forall encrypted,
     rsa_encrypt text (e, n) = Ok encrypted ->
     exists message_bytes,
       utf8_encode text = Ok message_bytes /\
       encrypted = map (fun byte => byte ^ e mod n) message_bytes /\
       len encrypted = len message_bytes /\
       Forall (fun c => 0 <= c < n) encrypted).
Proof.
  intros He Hn. rewrite rsa_encrypt_bytes.
  destruct (utf8_encode_raises text) as [H1 H2].
  destruct (utf8_encode text) as [b|err]; cbn [bind].
  - split; [|split; [discriminate|]].
    + split; [discriminate|]. intros H. apply H1 in H. discriminate H.
    + intros encrypted H. injection H as <-. exists b.
      split; [reflexivity|].
      split; [apply map_ext; intros byte; now apply pow_spec|].
      split; [unfold len; now rewrite length_map|].
      apply Forall_forall. intros c Hc.
      apply in_map_iff in Hc. destruct Hc as (x & <- & _).
      rewrite pow_spec by assumption. apply Z.mod_pos_bound. lia.
  - assert (err = UnicodeEncodeError) as -> by (now apply H2).
    split; [|split; [|discriminate]].
    + split; [intros _; now apply H1|reflexivity].
    + intros e' H. now injection H.
Qed.

Lemma utf8_decode_raises (n : nat) (b : list Z) (e : exn) :
  (List.length b <= n)%nat -> utf8_decode b = Raise e ->
  e = UnicodeDecodeError.
Proof.
  revert b e; induction n as [|n IH]; intros b e Hlen.
  - destruct b; [discriminate|cbn in Hlen; lia].
  - destruct b as [|b0 t0]; [discriminate|].
    unfold utf8_decode at 1; fold utf8_decode. cbn [List.length] in Hlen.
    assert (Hrec : forall t (k : str -> result str) e',
              (List.length t <= n)%nat ->
              (s <- utf8_decode t ;; k s) = Raise e' ->
              (forall s, k s = Raise e' -> e' = UnicodeDecodeError) ->
              e' = UnicodeDecodeError).
    { intros t k e' Ht Hrun Hk. destruct (utf8_decode t) as [s|e0] eqn:Hd.
      - now apply (Hk s).
      - cbn [bind] in Hrun. injection Hrun as <-. now apply (IH t). }
    destruct (between 0 127 b0).
    { intros H. apply (Hrec t0 _ e ltac:(lia) H). discriminate. }
    destruct t0 as [|b1 t1]; [now intros [= <-]|]. cbn [List.length] in Hlen.
    destruct (between 194 223 b0).
    { destruct (continuation b1); [|now intros [= <-]].
      intros H. apply (Hrec t1 _ e ltac:(lia) H). discriminate. }
    destruct t1 as [|b2 t2]; [now intros [= <-]|]. cbn [List.length] in Hlen.
    destruct (between 224 239 b0).
    { match goal with |- context [if ?c then _ else _] => destruct c end;
        [|now intros [= <-]].
      intros H. apply (Hrec t2 _ e ltac:(lia) H). discriminate. }
    destruct t2 as [|b3 t3]; [now intros [= <-]|]. cbn [List.length] in Hlen.
    match goal with |- context [if ?c then _ else _] => destruct c end;
      [|now intros [= <-]].
    intros H. apply (Hrec t3 _ e ltac:(lia) H). discriminate.
Qed.

(** X15. For [d >= 0] and [n > 0], [rsa_decrypt] raises [ValueError]
    exactly when some block decrypts to a value above 255; any other error
    is [UnicodeDecodeError], the only one possible when [n <= 256]. *)
Theorem rsa_decrypt_errors (encrypted_message : list Z) (d n : Z) :
  0 <= d -> 0 < n ->
  (rsa_decrypt encrypted_message (d, n) = Raise ValueError <->
   exists c, In c encrypted_message /\ 255 < c ^ d mod n) /\
  (forall e, rsa_decrypt encrypted_message (d, n) = Raise e ->
             e = ValueError \/ e = UnicodeDecodeError) /\
  (n <= 256 ->
   forall e, rsa_decrypt encrypted_message (d, n) = Raise e ->
             e = UnicodeDecodeError).
Proof.
  intros Hd Hn. rewrite rsa_decrypt_bytes. unfold bytes.
  set (decrypted_bytes := map (fun c => pow c d n) encrypted_message).
  assert (Hall : forallb (between 0 255) decrypted_bytes = true <->
                 forall c, In c encrypted_message -> c ^ d mod n <= 255).
  { unfold decrypted_bytes. rewrite forallb_forall. split.
    - intros H c Hc. specialize (H (pow c d n) (in_map _ _ _ Hc)).
      rewrite pow_spec in H by assumption. unfold between in H.
      destruct (Z.leb_spec (c ^ d mod n) 255); [assumption|].
      rewrite andb_false_r in H. discriminate H.
    - intros H x Hx. apply in_map_iff in Hx. destruct Hx as (c & <- & Hc).
      rewrite pow_spec by assumption. apply between_true.
      pose proof (Z.mod_pos_bound (c ^ d) n Hn). specialize (H c Hc). lia. }
  destruct (forallb (between 0 255) decrypted_bytes) eqn:Hb; cbn [bind].
  - split; [|split].
    + split.
      * intros H. apply (utf8_decode_raises _ _ _ (Nat.le_refl _)) in H.
        discriminate H.
      * intros (c & Hc & Hbig). pose proof (proj1 Hall eq_refl c Hc). lia.
    + intros e H. right.
      now apply (utf8_decode_raises _ _ _ (Nat.le_refl _)) in H.
    + intros _ e H.
      now apply (utf8_decode_raises _ _ _ (Nat.le_refl _)) in H.
  - split; [|split].
    + split; [|reflexivity]. intros _.
      destruct (existsb (fun c => 255 <? c ^ d mod n) encrypted_message)
        eqn:He.
      * apply existsb_exists in He. destruct He as (c & Hc & Hbig).
        exists c. split; [exact Hc|]. now apply Z.ltb_lt.
      * assert (Habs : false = true); [|discriminate Habs].
        apply Hall. intros c Hc.
        destruct (Z.leb_spec (c ^ d mod n) 255) as [|Hbig]; [assumption|].
        assert (Hex : existsb (fun c => 255 <? c ^ d mod n) encrypted_message
                      = true).
        { apply existsb_exists. exists c. split; [exact Hc|].
          now apply Z.ltb_lt. }
        congruence.
    + intros e H. left. now injection H.
    + intros Hsmall e _.
      assert (Habs : false = true); [|discriminate Habs].
      apply Hall. intros c Hc.
      pose proof (Z.mod_pos_bound (c ^ d) n Hn). lia.
Qed.

End Utf8Theory.

(** ** Substitution: the round trip *)

Module SubstitutionRoundTrip.
Import Ciphers.
Import CaesarTheory SubstitutionTheory BreakerTheory.

Lemma distinct_NoDup (l : list str) : distinct l = true -> NoDup l.
Proof.
  induction l as [|s l IH]; intros H; [constructor|].
  cbn [distinct] in H. apply andb_true_iff in H. destruct H as [Hs Hl].
  constructor; [|now apply IH].
  intros Hin. apply negb_true_iff in Hs.
  assert (existsb (str_eqb s) l = true).
  { apply existsb_exists. exists s. split; [exact Hin|apply str_eqb_refl]. }
  congruence.
Qed.

Lemma dict_get_In (d : dict) (k v : str) :
  dict_get d k = Ok v -> In (k, v) d.
Proof.
  induction d as [|[k' v'] d IH]; [discriminate|].
  cbn [dict_get]. destruct (str_eqb k' k) eqn:He.
  - intros [= ->]. apply str_eqb_eq in He. subst. now left.
  - intros H. right. now apply IH.
Qed.

Lemma preimage_In (key : dict) (k v : str) :
  preimage key v = Some k -> In (k, v) key.
Proof.
  induction key as [|[k' v'] key IH]; [discriminate|].
  cbn [preimage]. destruct (preimage key v) as [k''|].
  - intros [= ->]. right. now apply IH.
  - destruct (str_eqb v' v) eqn:He; [|discriminate].
    intros [= ->]. apply str_eqb_eq in He. subst. now left.
Qed.

Lemma injective_key (key : dict) (k k' v : str) :
  NoDup (map snd key) -> In (k, v) key -> In (k', v) key -> k = k'.
Proof.
  induction key as [|[k0 v0] key IH]; intros Hnd H1 H2; [destruct H1|].
  cbn [map snd] in Hnd. inversion Hnd as [|? ? Hnotin Hnd']; subst.
  destruct H1 as [H1|H1], H2 as [H2|H2].
  - congruence.
  - exfalso. apply Hnotin. apply in_map_iff. exists (k', v).
    split; [cbn; congruence|exact H2].
  - exfalso. apply Hnotin. apply in_map_iff. exists (k, v).
    split; [cbn; congruence|exact H1].
  - now apply IH.
Qed.

Section Text.
Context {U : Unicode}.

Lemma substitution_roundtrip_injective (text : str) (key : dict) :
  NoDup (map snd key) ->
  (forall k v, In (k, v) key -> exists c, v = [c] /\ isalpha c = true) ->
  (forall c, In c text -> isalpha c = true -> In [c] (map fst key)) ->
  exists ciphertext,
    substitution_encrypt text key = Ok ciphertext /\
    len ciphertext = len text /\
    substitution_decrypt ciphertext key = Ok text.
Proof.
  intros Hinj Hval Hdom.
  exists (flat_map (letter_of key) text).
  destruct (translate_cases key text []) as (_ & _ & Henc).
  split; [rewrite substitution_encrypt_translate; exact (Henc Hdom)|].
  assert (Hletter : forall c, In c text ->
            (isalpha c = false /\ letter_of key c = [c]) \/
            (exists c', isalpha c = true /\ letter_of key c = [c'] /\
                        isalpha c' = true /\ In ([c], [c']) key)).
  { intros c Hc. unfold letter_of. destruct (isalpha c) eqn:Ha; [|now left].
    right. specialize (Hdom c Hc Ha).
    destruct (dict_get key [c]) as [v|e] eqn:Hg.
    - apply dict_get_In in Hg. destruct (Hval _ _ Hg) as (c' & -> & Hc').
      now exists c'.
    - destruct (dict_get_raise key [c]) as [H1 H2].
      pose proof (H2 e Hg). subst e. apply H1 in Hg. contradiction. }
  split.
  - unfold len. f_equal. clear Henc Hdom.
    induction text as [|c text IH]; [reflexivity|].
    cbn [flat_map]. rewrite length_app, IH
      by (intros; apply Hletter; now right).
    destruct (Hletter c (or_introl eq_refl)) as [[_ ->]|(c' & _ & -> & _)];
      reflexivity.
  - rewrite substitution_decrypt_returns.
    + f_equal. clear Henc Hdom.
      induction text as [|c text IH]; [reflexivity|].
      cbn [flat_map]. rewrite flat_map_app, IH
        by (intros; apply Hletter; now right).
      destruct (Hletter c (or_introl eq_refl))
        as [[Hna ->]|(c' & Ha & -> & Ha' & Hin)]; cbn [flat_map app].
      * now rewrite Hna.
      * rewrite Ha'. destruct (preimage key [c']) as [k|] eqn:Hp.
        -- apply preimage_In in Hp.
           rewrite (injective_key key k [c] [c'] Hinj Hp Hin). reflexivity.
        -- apply preimage_none in Hp. exfalso. apply Hp.
           apply in_map_iff. now exists ([c], [c']).
    + intros c' Hc' Ha'. apply in_flat_map in Hc'.
      destruct Hc' as (c & Hc & Hin).
      destruct (Hletter c Hc) as [[Hna Hl]|(c'' & Ha & Hl & _ & Hitem)];
        rewrite Hl in Hin; destruct Hin as [<-|[]].
      * congruence.
      * apply in_map_iff. now exists ([c], [c'']).
Qed.

(** X16. For a key whose values are single letters, no two of them equal,
    and a text whose letters are all keys of it, [substitution_encrypt]
    returns a ciphertext as long as the text and [substitution_decrypt]
    gives the text back. *)
Theorem substitution_roundtrip_one_to_one (text : str) (key : dict) :
  NoDup (map snd key) ->
  (forall k v, In (k, v) key -> exists c, v = [c] /\ isalpha c = true) ->
  (forall c, In c text -> isalpha c = true -> In [c] (map fst key)) ->
  exists ciphertext,
    substitution_encrypt text key = Ok ciphertext /\
    len ciphertext = len text /\
    substitution_decrypt ciphertext key = Ok text.
Proof. apply substitution_roundtrip_injective. Qed.

Lemma letters_distinct :
  NoDup (flat_map (fun s => [s; lower s]) alphabet).
Proof. apply distinct_NoDup. vm_compute. reflexivity. Qed.

Lemma letter_in_key (c : uchar) :
  ascii_isalpha c = true ->
  In [c] (flat_map (fun s => [s; lower s]) alphabet).
Proof.
  intros Hc. apply in_flat_map.
  unfold ascii_isalpha, ascii_isupper, ascii_islower, between in Hc.
  assert (65 <= c <= 90 \/ 97 <= c <= 122) as [Hu|Hl].
  { revert Hc.
    destruct (Z.leb_spec 65 c), (Z.leb_spec c 90), (Z.leb_spec 97 c),
      (Z.leb_spec c 122); cbn; intros Hc; try discriminate Hc; lia. }
  - exists [c]. split; [apply in_alphabet; now exists c|now left].
  - exists [c - 32].
    split; [apply in_alphabet; exists (c - 32); split; [reflexivity|lia]|].
    right. left. rewrite lower_upper_letter by lia. f_equal. lia.
Qed.

Lemma substitution_roundtrip_letters (shuffled : list str) (text : str) :
  Permutation alphabet shuffled ->
  (forall c, In c text -> isalpha c = true -> ascii_isalpha c = true) ->
  exists ciphertext,
    substitution_encrypt text (generate_substitution_key shuffled)
      = Ok ciphertext /\
    len ciphertext = len text /\
    substitution_decrypt ciphertext (generate_substitution_key shuffled)
      = Ok text.
Proof.
  intros Hperm Htext.
  assert (Hlen : List.length shuffled = 26%nat)
    by (rewrite <- (Permutation_length Hperm); reflexivity).
  destruct (generated_key_items shuffled Hlen) as [Hfst Hsnd].
  apply substitution_roundtrip_injective.
  - rewrite Hsnd.
    apply (Permutation_NoDup
             (l := flat_map (fun s => [s; lower s]) alphabet));
      [|exact letters_distinct].
    now apply Permutation_flat_map.
  - intros k v Hin.
    assert (Hv : In v (map snd (generate_substitution_key shuffled)))
      by (apply in_map_iff; exists (k, v); split; [reflexivity|exact Hin]).
    rewrite Hsnd in Hv. apply in_flat_map in Hv.
    destruct Hv as (s & Hs & Hv).
    apply (Permutation_in _ (Permutation_sym Hperm)) in Hs.
    apply in_alphabet in Hs. destruct Hs as (u & -> & Hu).
    rewrite lower_upper_letter in Hv by assumption.
    destruct Hv as [<-|[<-|[]]].
    + exists u. split; [reflexivity|]. now apply upper_letter.
    + exists (u + 32). split; [reflexivity|]. apply lower_letter. lia.
  - intros c Hc Ha. rewrite Hfst. apply letter_in_key. now apply Htext.
Qed.

(** X17. With a key that [generate_substitution_key] built from a shuffle
    of the alphabet, a text whose letters are all ASCII makes the round
    trip: encryption returns a ciphertext of the same length, decryption
    the text. *)
Theorem substitution_roundtrip (shuffled : list str) (text : str) :
  Permutation alphabet shuffled ->
  (forall c, In c text -> isalpha c = true -> ascii_isalpha c = true) ->
  exists ciphertext,
    substitution_encrypt text (generate_substitution_key shuffled)
      = Ok ciphertext /\
    len ciphertext = len text /\
    substitution_decrypt ciphertext (generate_substitution_key shuffled)
      = Ok text.
Proof. apply substitution_roundtrip_letters. Qed.

Lemma for_each_raises {A B} (f : A -> result B) (l : list A) :
  (forall a e, f a = Raise e -> e = KeyError) ->
  (for_each f l = Raise KeyError <-> exists a, In a l /\ f a = Raise KeyError)
  /\ (forall e, for_each f l = Raise e -> e = KeyError).
Proof.
  intros Hf. induction l as [|a l [IH1 IH2]].
  - split; [|discriminate]. split; [discriminate|intros (a & [] & _)].
  - cbn [for_each]. destruct (f a) as [b|e] eqn:Ha; cbn [bind].
    + destruct (for_each f l) as [bs|e]; cbn [bind].
      * split; [|discriminate]. split; [discriminate|].
        intros (x & [<-|Hx] & Hr); [congruence|].
        assert (Habs : Ok bs = Raise KeyError) by (apply IH1; now exists x).
        discriminate Habs.
      * assert (e = KeyError) as -> by (now apply IH2).
        split; [|intros e' H; now injection H].
        split; [|reflexivity].
        intros _. destruct (proj1 IH1 eq_refl) as (x & Hx & Hr).
        exists x. split; [now right|exact Hr].
    + assert (e = KeyError) as -> by (now apply (Hf a)).
      split; [|intros e' H; now injection H].
      split; [|reflexivity]. intros _. exists a. split; [now left|exact Ha].
Qed.

(** X18. [format_substitution_key] raises [KeyError], and nothing else,
    exactly when the key lacks one of the letters A to Z; for a generated
    key it returns the two header lines followed by the 26 images in the
    order of the alphabet, separated by spaces. *)
Theorem format_substitution_key_spec (key : dict) :
  (format_substitution_key key = Raise KeyError <->
   exists i, 0 <= i < 26 /\ ~ In [65 + i] (map fst key)) /\
  (forall e, format_substitution_key key = Raise e -> e = KeyError) /\
  (forall shuffled,
     List.length shuffled = 26%nat ->
     key = generate_substitution_key shuffled ->
     format_substitution_key key
     = Ok (lit "Substitution Key:" ++ [10]
           ++ lit "A B C D E F G H I J K L M N O P Q R S T U V W X Y Z"
           ++ [10] ++ join (lit " ") shuffled)).
Proof.
  split; [|split].
  - unfold format_substitution_key.
    destruct (for_each_raises (fun i => dict_get key [chr (65 + i)]) (range 26))
      as [H1 _]; [intros a e; apply dict_get_raise|].
    destruct (for_each _ (range 26)) as [letters|e]; cbn [bind].
    + split; [discriminate|]. intros (i & Hi & Hn).
      assert (Habs : Ok letters = Raise KeyError); [|discriminate Habs].
      apply H1. exists i. split; [apply in_range; lia|].
      now apply dict_get_raise.
    + split.
      * intros H. injection H as ->.
        destruct (proj1 H1 eq_refl) as (i & Hi & Hr).
        exists i. split; [apply in_range in Hi; lia|].
        now apply dict_get_raise.
      * intros (i & Hi & Hn).
        assert (He : Raise e = Raise KeyError :> result (list str)).
        { apply H1. exists i. split; [apply in_range; lia|].
          now apply dict_get_raise. }
        injection He as ->. reflexivity.
  - unfold format_substitution_key.
    destruct (for_each_raises (fun i => dict_get key [chr (65 + i)]) (range 26))
      as [_ H2]; [intros a e; apply dict_get_raise|].
    destruct (for_each _ (range 26)) as [letters|e]; cbn [bind];
      [discriminate|]. intros e' H. injection H as <-. now apply H2.
  - intros shuffled Hlen ->.
    do 26 (destruct shuffled as [|? shuffled]; [discriminate Hlen|]).
    destruct shuffled; [|discriminate Hlen].
    vm_compute. reflexivity.
Qed.

End Text.
End SubstitutionRoundTrip.

(** ** Columnar transposition: errors, lengths, round trip *)

Module TranspositionErrors.
Import Ciphers.
Import TranspositionTheory.

Lemma rstrip_last_other (x c : uchar) (t : str) :
  c <> x -> rstrip x (t ++ [c]) = t ++ [c].
Proof.
  intros Hc. induction t as [|a t IH].
  - cbn. destruct (Z.eqb_spec c x); [contradiction|reflexivity].
  - cbn [app rstrip]. rewrite IH. now destruct (t ++ [c]) eqn:E;
      [destruct t; discriminate E|].
Qed.

Lemma rstrip_last_filler (x : uchar) (t : str) :
  rstrip x (t ++ [x]) = rstrip x t.
Proof.
  induction t as [|a t IH].
  - cbn. now rewrite Z.eqb_refl.
  - cbn [app rstrip]. now rewrite IH.
Qed.

Lemma rstrip_shorter (x : uchar) (s : str) :
  (List.length (rstrip x s) <= List.length s)%nat.
Proof.
  induction s as [|c s IH]; [reflexivity|].
  cbn [rstrip]. destruct (rstrip x s) as [|a t].
  - destruct (c =? x); cbn; lia.
  - cbn [List.length] in *. lia.
Qed.

Lemma rstrip_fixed (x : uchar) (s : str) :
  rstrip x s = s <-> forall t, s <> t ++ [x].
Proof.
  split.
  - intros H t ->. rewrite rstrip_last_filler in H.
    pose proof (rstrip_shorter x t) as Hl. rewrite H in Hl.
    rewrite length_app in Hl. cbn in Hl. lia.
  - intros H. destruct s as [|a s]; [reflexivity|].
    destruct (exists_last (l := a :: s)) as (t & c & Heq); [discriminate|].
    rewrite Heq. apply rstrip_last_other. intros ->. now apply (H t).
Qed.

Lemma bind_raise_fold {A B} (step : result A -> B -> result A) (l : list B)
  (e : exn) :
  (forall b, step (Raise e) b = Raise e) ->
  fold_left step l (Raise e) = Raise e.
Proof. intros H. induction l as [|b l IH]; cbn; [reflexivity|now rewrite H]. Qed.

Section Grid.
Variables (text : str) (num_rows num_cols : nat).

Lemma fill_column_raise (col_index : Z) (rows : list Z) (e : exn) :
  fold_left (fill_cell text col_index) rows (Raise e) = Raise e.
Proof. now apply bind_raise_fold. Qed.

Lemma fill_columns_raise {B} (cols : list (Z * B)) (rows : list Z) (e : exn) :
  fold_left
    (fun state col => fold_left (fill_cell text (fst col)) rows state)
    cols (Raise e)
  = Raise e.
Proof.
  apply (bind_raise_fold
           (fun state col => fold_left (fill_cell text (fst col)) rows state)).
  intros col. apply fill_column_raise.
Qed.

Lemma fill_cell_overrun (col_index : Z) (grid : list (list str))
  (text_index : nat) (row : Z) :
  (List.length text <= text_index)%nat ->
  fill_cell text col_index (Ok (grid, Z.of_nat text_index)) row
  = Raise IndexError.
Proof.
  intros H. unfold fill_cell. cbn [bind]. unfold getitem.
  rewrite Nat2Z.id. apply nth_error_None in H. now rewrite H.
Qed.

Lemma fill_column_overrun (col_index : Z) (cell : nat -> nat -> str)
  (text_index : nat) :
  (Z.to_nat col_index < num_cols)%nat ->
  (text_index <= List.length text < text_index + num_rows)%nat ->
  fold_left (fill_cell text col_index) (range num_rows)
    (Ok (tabulate num_rows num_cols cell, Z.of_nat text_index))
  = Raise IndexError.
Proof.
  intros Hcol Ht.
  set (i := (List.length text - text_index)%nat).
  assert (Hsplit : range num_rows
                   = range i ++ Z.of_nat i
                     :: map Z.of_nat (seq (S i) (num_rows - i - 1))).
  { unfold range.
    replace num_rows with (i + S (num_rows - i - 1))%nat at 1 by lia.
    rewrite seq_app, map_app. reflexivity. }
  rewrite Hsplit, fold_left_app.
  rewrite (fill_column_prefix text num_rows num_cols) by lia.
  cbn [fold_left].
  rewrite fill_cell_overrun by lia. apply fill_column_raise.
Qed.

Lemma fill_columns_overrun {B} (cols : list (Z * B))
  (cell : nat -> nat -> str) (text_index : nat) :
  (forall col, In col cols -> (Z.to_nat (fst col) < num_cols)%nat) ->
  (text_index <= List.length text
   < text_index + List.length cols * num_rows)%nat ->
  fold_left
    (fun state col =>
       fold_left (fill_cell text (fst col)) (range num_rows) state)
    cols (Ok (tabulate num_rows num_cols cell, Z.of_nat text_index))
  = Raise IndexError.
Proof.
  revert cell text_index; induction cols as [|col cols IH];
    intros cell text_index Hcols Ht; cbn [List.length Nat.mul] in Ht; [lia|].
  cbn [fold_left].
  destruct (Nat.le_gt_cases (text_index + num_rows) (List.length text))
    as [Hfit|Hover].
  - rewrite (fill_column_prefix text num_rows num_cols)
      by (try apply Hcols; try (now left); lia).
    apply IH; [intros; apply Hcols; now right|lia].
  - rewrite fill_column_overrun by (try apply Hcols; try (now left); lia).
    apply (fill_columns_raise cols).
Qed.

End Grid.

Lemma flat_map_split {A B} (f h : A -> list B) (l : list A) :
  Permutation (flat_map (fun a => f a ++ h a) l)
    (flat_map f l ++ flat_map h l).
Proof.
  induction l as [|a l IH]; [reflexivity|].
  cbn [flat_map]. rewrite IH, <- !app_assoc.
  apply Permutation_app_head. apply Permutation_app_swap_app.
Qed.

Lemma flat_map_singletons {A B} (h : A -> B) (l : list A) :
  flat_map (fun a => [h a]) l = map h l.
Proof. induction l as [|a l IH]; cbn; [reflexivity|now rewrite IH]. Qed.

Lemma flat_map_nil {A B} (l : list A) :
  flat_map (fun _ : A => @nil B) l = [].
Proof. induction l as [|a l IH]; [reflexivity|exact IH]. Qed.

(** Reading a grid column by column or row by row gives the same
    characters. *)
Lemma columns_rows {A} (cell : nat -> nat -> A) (num_rows num_cols : nat) :
  Permutation
    (flat_map (fun j => map (fun i => cell i j) (seq 0 num_rows))
       (seq 0 num_cols))
    (flat_map (fun i => map (cell i) (seq 0 num_cols)) (seq 0 num_rows)).
Proof.
  induction num_cols as [|n IH].
  - cbn [seq flat_map map]. now rewrite flat_map_nil.
  - rewrite seq_S, flat_map_app. cbn [Nat.add flat_map]. rewrite app_nil_r.
    rewrite (flat_map_ext (fun i => map (cell i) (seq 0 n ++ [n]))
               (fun i => map (cell i) (seq 0 n) ++ [cell i n]))
      by (intros i; now rewrite map_app).
    rewrite flat_map_split, flat_map_singletons.
    now apply Permutation_app_tail.
Qed.

Section Text.
Context {U : Unicode}.

Lemma numeric_key_nil : numeric_key [] = [].
Proof. reflexivity. Qed.

Lemma transposition_decrypt_fold (text key : str) :
  let num_cols := List.length (numeric_key key) in
  let num_rows :=
    Z.to_nat ((len text + Z.of_nat num_cols - 1) / Z.of_nat num_cols) in
  key <> [] ->
  (0 < num_cols)%nat /\
  Z.of_nat num_rows = (len text + Z.of_nat num_cols - 1) / Z.of_nat num_cols /\
  transposition_decrypt text key
  = (filled <-
       fold_left
         (fun state col =>
            fold_left (fill_cell text (fst col)) (range num_rows) state)
         (sorted Z.ltb snd (enumerate (numeric_key key)))
         (Ok (tabulate num_rows num_cols (fun _ _ => ([] : str)),
              Z.of_nat 0)) ;;
     Ok (rstrip 88
           (List.concat (map (fun row => List.concat row) (fst filled))))).
Proof.
  intros num_cols num_rows Hkey.
  assert (Hn : (0 < num_cols)%nat).
  { apply numeric_key_nonempty in Hkey. subst num_cols.
    destruct (numeric_key key); [congruence|cbn; lia]. }
  assert (Hrows : Z.of_nat num_rows
                  = (len text + Z.of_nat num_cols - 1) / Z.of_nat num_cols).
  { subst num_rows. rewrite Z2Nat.id; [reflexivity|].
    apply Z.div_pos; unfold len; lia. }
  split; [exact Hn|]. split; [exact Hrows|].
  unfold transposition_decrypt, ceil_div.
  change (len (numeric_key key)) with (Z.of_nat num_cols).
  destruct (Z.eqb_spec (Z.of_nat num_cols) 0) as [H0|_]; [lia|].
  cbn [bind]. rewrite <- Hrows, !Nat2Z.id.
  match goal with
  | |- context [fold_left _ _ (Ok (?grid, 0))] =>
      replace grid with (tabulate num_rows num_cols (fun _ _ => ([] : str)))
  end.
  2:{ unfold tabulate, range. rewrite map_map. apply map_ext. intros i.
      now rewrite map_map. }
  reflexivity.
Qed.

(** X19. With the empty key both directions raise [ZeroDivisionError].
    With any other key [transposition_encrypt] raises nothing, and
    [transposition_decrypt] returns when the length of its text is a
    multiple of the number of columns and raises [IndexError] when it is
    not. *)
Theorem transposition_errors (text key : str) :
  (key = [] ->
   transposition_encrypt text key = Raise ZeroDivisionError /\
   transposition_decrypt text key = Raise ZeroDivisionError) /\
  (key <> [] ->
   (exists ciphertext, transposition_encrypt text key = Ok ciphertext) /\
   (len text mod len (numeric_key key) = 0 ->
    exists plaintext, transposition_decrypt text key = Ok plaintext) /\
   (len text mod len (numeric_key key) <> 0 ->
    transposition_decrypt text key = Raise IndexError)).
Proof.
  split.
  - intros ->. split; reflexivity.
  - intros Hkey. split; [|split].
    + destruct (transposition_roundtrip text key Hkey) as (c & Hc & _).
      now exists c.
    + intros Hmod.
      destruct (transposition_decrypt_fold text key Hkey) as (Hn & Hrows & ->).
      set (num_cols := List.length (numeric_key key)) in *.
      set (num_rows := Z.to_nat _) in *.
      change (len (numeric_key key)) with (Z.of_nat num_cols) in Hmod.
      pose proof (key_order_columns Z.ltb (numeric_key key)) as Hperm.
      fold num_cols in Hperm.
      assert (Hsize : List.length text = (num_cols * num_rows)%nat).
      { apply Nat2Z.inj. rewrite Nat2Z.inj_mul, Hrows.
        change (Z.of_nat (List.length text)) with (len text).
        assert (Hq : len text = Z.of_nat num_cols * (len text / Z.of_nat num_cols))
          by (apply Z.div_exact; lia).
        rewrite Hq at 2.
        replace (Z.of_nat num_cols * (len text / Z.of_nat num_cols)
                 + Z.of_nat num_cols - 1)
          with (len text / Z.of_nat num_cols * Z.of_nat num_cols
                + (Z.of_nat num_cols - 1)) by ring.
        rewrite Z.div_add_l, (Z.div_small (Z.of_nat num_cols - 1)) by lia.
        lia. }
      rewrite fill_columns.
      * cbn [bind]. eexists. reflexivity.
      * intros col Hcol.
        apply (Permutation_in (Z.to_nat (fst col))) in Hperm.
        -- apply in_seq in Hperm. exact (proj2 Hperm).
        -- apply in_map_iff. now exists col.
      * apply Permutation_length in Hperm.
        rewrite length_map, length_seq in Hperm.
        apply Nat.eq_le_incl. etransitivity; [|symmetry; exact Hsize].
        cbn [Nat.add]. f_equal. exact Hperm.
    + intros Hmod.
      destruct (transposition_decrypt_fold text key Hkey) as (Hn & Hrows & ->).
      set (num_cols := List.length (numeric_key key)) in *.
      set (num_rows := Z.to_nat _) in *.
      change (len (numeric_key key)) with (Z.of_nat num_cols) in Hmod.
      pose proof (key_order_columns Z.ltb (numeric_key key)) as Hperm.
      fold num_cols in Hperm.
      assert (Hsize : (List.length text < num_cols * num_rows)%nat).
      { apply Nat2Z.inj_lt. rewrite Nat2Z.inj_mul, Hrows.
        change (Z.of_nat (List.length text)) with (len text).
        set (n := Z.of_nat num_cols) in *.
        assert (Hge : len text <= n * ((len text + n - 1) / n)).
        { pose proof (Z.mod_pos_bound (len text + n - 1) n ltac:(lia)).
          pose proof (Z.div_mod (len text + n - 1) n ltac:(lia)). lia. }
        destruct (Z.eq_dec (len text) (n * ((len text + n - 1) / n)))
          as [Heq|]; [|lia].
        exfalso. apply Hmod. rewrite Heq, Z.mul_comm. apply Z.mod_mul. lia. }
      rewrite fill_columns_overrun; [reflexivity| |].
      * intros col Hcol.
        apply (Permutation_in (Z.to_nat (fst col))) in Hperm.
        -- apply in_seq in Hperm. exact (proj2 Hperm).
        -- apply in_map_iff. now exists col.
      * apply Permutation_length in Hperm.
        rewrite length_map, length_seq in Hperm.
        split; [lia|]. cbn [Nat.add].
        apply Nat.lt_le_trans with (num_cols * num_rows)%nat; [exact Hsize|].
        apply Nat.eq_le_incl. f_equal. symmetry. exact Hperm.
Qed.

(** X20. For every text and every key that is not empty, decrypting what
    [transposition_encrypt] returned gives [text.rstrip('X')]: the text
    itself when it does not end in X, and never the text when it does. *)
Theorem transposition_decrypt_encrypt (text key : str) :
  key <> [] ->
  exists ciphertext,
    transposition_encrypt text key = Ok ciphertext /\
    transposition_decrypt ciphertext key = Ok (rstrip 88 text) /\
    ((forall t, text <> t ++ [88]) ->
     transposition_decrypt ciphertext key = Ok text) /\
    (forall t, text = t ++ [88] ->
     transposition_decrypt ciphertext key <> Ok text).
Proof.
  intros Hkey.
  destruct (transposition_roundtrip text key Hkey) as (c & Henc & _ & Hdec).
  exists c. split; [exact Henc|]. split; [exact Hdec|]. split.
  - intros Hlast. rewrite Hdec. f_equal. now apply rstrip_fixed.
  - intros t Ht. rewrite Hdec. intros H. injection H as H.
    exact (proj1 (rstrip_fixed 88 text) H t Ht).
Qed.

(** X21. For a key that is not empty the length of the ciphertext is the
    first multiple of the number of columns from the length of the text on;
    the number of columns is the length of the key when the key is a digit
    string or has at most nine characters. *)
Theorem transposition_ciphertext_length (text key : str) :
  key <> [] ->
  exists ciphertext,
    transposition_encrypt text key = Ok ciphertext /\
    len ciphertext mod len (numeric_key key) = 0 /\
    len text <= len ciphertext < len text + len (numeric_key key) /\
    (isdigit key = true \/ len key <= 9 ->
     len (numeric_key key) = len key /\ len ciphertext mod len key = 0).
Proof.
  intros Hkey.
  destruct (transposition_roundtrip text key Hkey) as (c & Henc & Hlen & _).
  exists c. split; [exact Henc|].
  assert (Hn : 0 < len (numeric_key key)).
  { apply numeric_key_nonempty in Hkey. unfold len.
    destruct (numeric_key key); [congruence|cbn [List.length]; lia]. }
  set (n := len (numeric_key key)) in *.
  assert (Hmod : len c mod n = 0)
    by (rewrite Hlen, Z.mul_comm; apply Z.mod_mul; lia).
  split; [exact Hmod|]. split.
  - rewrite Hlen.
    pose proof (Z.mod_pos_bound (len text + n - 1) n ltac:(lia)).
    pose proof (Z.div_mod (len text + n - 1) n ltac:(lia)). lia.
  - intros Hshape. pose proof (numeric_key_length key Hshape) as Hk.
    fold n in Hk. split; [exact Hk|]. now rewrite <- Hk.
Qed.

Lemma digits_are_digits (fuel : nat) (n : Z) (acc : str) :
  Forall (fun c => 48 <= c <= 57) acc ->
  Forall (fun c => 48 <= c <= 57) (digits fuel n acc).
Proof.
  revert n acc; induction fuel as [|fuel IH]; intros n acc Hacc; [exact Hacc|].
  cbn [digits].
  assert (Hd : Forall (fun c => 48 <= c <= 57) (48 + n mod 10 :: acc)).
  { constructor; [|exact Hacc].
    pose proof (Z.mod_pos_bound n 10 ltac:(lia)). lia. }
  destruct (n / 10 =? 0); [exact Hd|now apply IH].
Qed.

Lemma isdigit_digits (s : str) :
  s <> [] -> Forall (fun c => 48 <= c <= 57) s -> isdigit s = true.
Proof.
  intros Hs Hd. unfold isdigit. destruct s as [|c s]; [congruence|].
  apply forallb_forall. intros x Hx. rewrite Forall_forall in Hd.
  specialize (Hd x Hx). unfold char_isdigit, is_ascii, ascii_isdigit.
  now rewrite (between_true 0 127), (between_true 48 57) by lia.
Qed.

Lemma numeric_key_isdigit (key : str) :
  key <> [] -> isdigit (numeric_key key) = true.
Proof.
  intros Hkey. pose proof (numeric_key_nonempty key Hkey) as Hne.
  unfold numeric_key in *. destruct (isdigit key) eqn:Hd; [exact Hd|].
  cbn [negb] in *. apply isdigit_digits; [exact Hne|].
  apply Forall_concat. apply Forall_forall. intros s Hs.
  apply in_map_iff in Hs. destruct Hs as (c & <- & _).
  unfold str_of_int. apply digits_are_digits. constructor.
Qed.

(** A word key and the digit string of its ranks are the same key. *)
Lemma transposition_word_key (text key : str) :
  key <> [] ->
  isdigit (numeric_key key) = true /\
  transposition_encrypt text (numeric_key key) = transposition_encrypt text key /\
  transposition_decrypt text (numeric_key key) = transposition_decrypt text key.
Proof.
  intros Hkey. pose proof (numeric_key_isdigit key Hkey) as Hd.
  assert (Hid : numeric_key (numeric_key key) = numeric_key key)
    by (unfold numeric_key at 1; now rewrite Hd).
  split; [exact Hd|].
  unfold transposition_encrypt, transposition_decrypt. now rewrite Hid.
Qed.

(** X22. The ciphertext is a rearrangement of the text and its padding:
    for a key that is not empty it has the characters of the text followed
    by fewer X's than there are columns, in another order. *)
Theorem transposition_rearranges (text key : str) :
  key <> [] ->
  exists ciphertext padding,
    transposition_encrypt text key = Ok ciphertext /\
    Permutation ciphertext (text ++ repeat 88 padding) /\
    (padding < List.length (numeric_key key))%nat.
Proof.
  intros Hkey.
  destruct (transposition_encrypt_columns text key Hkey) as [Hlen Henc].
  set (num_cols := List.length (numeric_key key)) in *.
  set (num_rows := Z.to_nat _) in *.
  set (padded := text ++ _) in *.
  set (cols := map (fun col : Z * Z => Z.to_nat (fst col))
                (sorted Z.ltb snd (enumerate (numeric_key key)))) in *.
  pose proof (key_order_columns Z.ltb (numeric_key key)) as Hperm.
  fold cols num_cols in Hperm.
  assert (Hn : (0 < num_cols)%nat).
  { apply numeric_key_nonempty in Hkey. subst num_cols.
    destruct (numeric_key key); [congruence|cbn; lia]. }
  exists (List.concat (map (column padded num_cols num_rows) cols)),
    (num_cols * num_rows - List.length text)%nat.
  split; [exact Henc|]. split.
  - fold padded. rewrite <- flat_map_concat_map.
    transitivity (flat_map (column padded num_cols num_rows) (seq 0 num_cols));
      [apply Permutation_flat_map; exact Hperm|].
    unfold column.
    etransitivity;
      [apply (columns_rows (fun i j => nth (i * num_cols + j)%nat padded 0))|].
    rewrite flat_map_concat_map.
    rewrite rows_concat by (apply Nat.eq_le_incl; symmetry; exact Hlen).
    rewrite <- Hlen, firstn_all. reflexivity.
  - assert (Hrows : Z.of_nat num_rows
                    = (len text + Z.of_nat num_cols - 1) / Z.of_nat num_cols).
    { subst num_rows. rewrite Z2Nat.id; [reflexivity|].
      apply Z.div_pos; unfold len; lia. }
    apply Nat2Z.inj_lt.
    pose proof (Z.mod_pos_bound (len text + Z.of_nat num_cols - 1)
                  (Z.of_nat num_cols) ltac:(lia)).
    pose proof (Z.div_mod (len text + Z.of_nat num_cols - 1)
                  (Z.of_nat num_cols) ltac:(lia)).
    unfold len in *. nia.
Qed.

End Text.
End TranspositionErrors.

(** ** The Caesar breaker: what it returns on every input *)

Module BreakerTotality.
Import Ciphers CaesarBreaker.
Import CaesarTheory SubstitutionTheory FloatTheory BreakerTheory.

Lemma infinity_minus (x : float) : (infinity - x <? infinity)%float = false.
Proof.
  rewrite ltb_spec, sub_spec.
  change (Prim2SF infinity) with (S754_infinity false).
  destruct (Prim2SF x) as [s| [|] | |s m e]; reflexivity.
Qed.

Section Text.
Context {U : Unicode}.

Section Search.
Variables encrypted_text language : str.


Lemma search_loop_unbeaten (todo : list Z) (st : search_state) :
  (forall i, In i todo ->
             (score encrypted_text language i <? snd (fst (fst st)))%float
             = false) ->
  fold_left (try_shift encrypted_text language) todo (Ok st)
  = Ok (fst (fst (fst st)), snd (fst (fst st)), snd (fst st),
        snd st ++ map (candidate_of encrypted_text language) todo).
Proof.
  revert st; induction todo as [|shift todo IH]; intros [[[bs bsc] bd] rs] H;
    cbn [fst snd] in *.
  - cbn. now rewrite app_nil_r.
  - cbn [fold_left map]. rewrite try_shift_ok.
    rewrite (H shift) by now left.
    rewrite IH by (intros i Hi; apply H; now right).
    cbn [fst snd]. now rewrite <- app_assoc.
Qed.

End Search.





Lemma letterless_text (text : str) :
  letterless text ->
  forall shift,
    caesar_decrypt_with_shift text shift = text /\
    filter isalpha (upper text) = [].
Proof.
  intros Ht shift. split.
  - rewrite caesar_decrypt_with_shift_map.
    rewrite <- (map_id text) at 2. apply map_ext_in. intros c Hc.
    unfold letterless in Ht. rewrite Forall_forall in Ht.
    destruct (Ht c Hc) as [Ha Hl].
    unfold caesar_char, isupper, islower. rewrite Ha.
    unfold ascii_isalpha in Hl. apply orb_false_iff in Hl.
    destruct Hl as [-> ->]. reflexivity.
  - assert (Hascii : forallb is_ascii text = true).
    { apply forallb_forall. intros c Hc. unfold letterless in Ht.
      rewrite Forall_forall in Ht. now apply Ht. }
    unfold upper. rewrite Hascii.
    induction Ht as [|c text [Ha Hl] _ IH]; [reflexivity|].
    cbn [forallb] in Hascii. apply andb_true_iff in Hascii.
    cbn [map filter]. rewrite IH by apply Hascii.
    assert (Hup : ascii_upper c = c).
    { unfold ascii_upper. unfold ascii_isalpha in Hl.
      apply orb_false_iff in Hl. now rewrite (proj2 Hl). }
    rewrite Hup. unfold isalpha. now rewrite Ha, Hl.
Qed.

(** X24. On a ciphertext of ASCII characters without any letter (the
    empty string too) [break_caesar_frequency] returns the empty string,
    shift 0 and confidence 0: no score is below the initial infinity. *)
Theorem break_caesar_frequency_letterless (encrypted_text language : str) :
  letterless encrypted_text ->
  break_caesar_frequency encrypted_text language = Ok ([], 0, 0%float).
Proof.
  intros Ht.
  assert (Hscore : forall i,
            (score encrypted_text language i <? infinity)%float = false).
  { intros i. unfold score, chi_squared, decrypted.
    destruct (letterless_text encrypted_text Ht i) as [-> Hnone].
    rewrite (calculate_frequency_score_no_letters _ _ Hnone).
    apply infinity_minus. }
  unfold break_caesar_frequency.
  pose proof (search_loop_unbeaten encrypted_text language (range 26)
                (0, infinity, [], []) (fun i _ => Hscore i)) as Hfold.
  cbn [fst snd app] in Hfold.
  match goal with
  | |- context [bind ?loop _] =>
      replace loop
        with (Ok (0, infinity, [],
                  map (candidate_of encrypted_text language) (range 26))
              : result search_state)
        by (symmetry; exact Hfold)
  end.
  cbn [bind].
  destruct (sorted PrimFloat.ltb combined_score
              (map (candidate_of encrypted_text language) (range 26)))
    as [|first rest] eqn:Hsorted.
  { pose proof (sorted_length _ _ PrimFloat.ltb combined_score
                  (map (candidate_of encrypted_text language) (range 26)))
      as Hl.
    rewrite Hsorted in Hl. discriminate Hl. }
  reflexivity.
Qed.

Lemma detect_language_scores (text : str) :
  exists english_score french_score,
    calculate_frequency_score text (lit "english") = Ok english_score /\
    calculate_frequency_score text (lit "french") = Ok french_score /\
    detect_language text
    = Ok (if (english_score <? french_score)%float
          then lit "english" else lit "french").
Proof.
  destruct (calculate_frequency_score_ok text (lit "english")) as [e He].
  destruct (calculate_frequency_score_ok text (lit "french")) as [f Hf].
  exists e, f. unfold detect_language. now rewrite He, Hf.
Qed.

(** X25. [calculate_frequency_score] raises nothing, in particular no
    [ZeroDivisionError], and returns infinity for a text whose upper-case
    form has no letter, the empty text among them. *)
Theorem calculate_frequency_score_total (text language : str) :
  (exists score, calculate_frequency_score text language = Ok score) /\
  (filter isalpha (upper text) = [] ->
   calculate_frequency_score text language = Ok infinity) /\
  (text = [] -> calculate_frequency_score text language = Ok infinity).
Proof.
  split; [apply calculate_frequency_score_ok|].
  split; [apply calculate_frequency_score_no_letters|].
  intros ->. now apply calculate_frequency_score_no_letters.
Qed.

(** X26. [detect_language] raises nothing: it answers 'english' when the
    English score is below the French one and 'french' otherwise, hence
    'french' for a text without letters. *)
Theorem detect_language_spec (text : str) :
  (exists english_score french_score,
     calculate_frequency_score text (lit "english") = Ok english_score /\
     calculate_frequency_score text (lit "french") = Ok french_score /\
     detect_language text
     = Ok (if (english_score <? french_score)%float
           then lit "english" else lit "french")) /\
  (filter isalpha (upper text) = [] ->
   detect_language text = Ok (lit "french")).
Proof.
  split; [apply detect_language_scores|].
  intros H. unfold detect_language.
  now rewrite !(calculate_frequency_score_no_letters _ _ H).
Qed.


Lemma try_shift_language (encrypted_text language : str) :
  language <> lit "english" ->
  forall state shift,
    try_shift encrypted_text language state shift
    = try_shift encrypted_text (lit "french") state shift.
Proof.
  intros Hl state shift.
  unfold try_shift, calculate_frequency_score, count_dictionary_words.
  now rewrite (str_eqb_neq _ _ Hl).
Qed.

(** X28. Any language other than 'english' is taken as French by the
    score, by the count of dictionary words and by
    [break_caesar_frequency]. *)
Theorem unknown_language (text language : str) :
  language <> lit "english" ->
  calculate_frequency_score text language
  = calculate_frequency_score text (lit "french") /\
  count_dictionary_words text language
  = count_dictionary_words text (lit "french") /\
  break_caesar_frequency text language
  = break_caesar_frequency text (lit "french").
Proof.
  intros Hl. split; [|split].
  - unfold calculate_frequency_score. now rewrite (str_eqb_neq _ _ Hl).
  - unfold count_dictionary_words. now rewrite (str_eqb_neq _ _ Hl).
  - unfold break_caesar_frequency. f_equal.
    generalize (Ok (0, infinity, [], []) : result search_state).
    induction (range 26) as [|shift todo IH]; intros st; [reflexivity|].
    cbn [fold_left]. rewrite (try_shift_language _ _ Hl). apply IH.
Qed.

End Text.
End BreakerTotality.

(** ** The protocol: dispatch and keys on the wire *)

Module ProtocolTheory.
Import Ciphers CaesarBreaker Protocol.
Import CaesarTheory SubstitutionTheory TranspositionTheory.
Import CaesarAlgebra VigenereTheory Utf8Theory SubstitutionRoundTrip.

Lemma dict_set_fresh (d : dict) (k v : str) :
  ~ In k (map fst d) -> dict_set d k v = d ++ [(k, v)].
Proof.
  induction d as [|[k' v'] d IH]; intros Hk; [reflexivity|].
  cbn [dict_set map fst In] in *.
  rewrite str_eqb_neq by (intros ->; apply Hk; now left).
  cbn [app]. f_equal. apply IH. intros H. apply Hk. now right.
Qed.

Lemma dict_of_items (l acc : dict) :
  NoDup (map fst (acc ++ l)) ->
  fold_left (fun d kv => dict_set d (fst kv) (snd kv)) l acc = acc ++ l.
Proof.
  revert acc; induction l as [|[k v] l IH]; intros acc Hnd.
  - cbn. now rewrite app_nil_r.
  - cbn [fold_left fst snd]. rewrite dict_set_fresh.
    + rewrite IH; rewrite <- app_assoc; [reflexivity|exact Hnd].
    + rewrite map_app in Hnd. cbn [map fst] in Hnd.
      apply NoDup_remove_2 in Hnd. intros H. apply Hnd.
      apply in_or_app. now left.
Qed.

(** X29. [parse_cipher_key] undoes [format_cipher_key]: the items of a
    substitution key (a [dict], so with no key twice) build the same
    [dict] in the same order, the list of an RSA key gives the pair back,
    and any other key passes unchanged. *)
Theorem parse_format_cipher_key (cipher_type : str) (key : cipher_key) :
  (forall d, cipher_type = lit "substitution" -> key = KeyDict d ->
     NoDup (map fst d) ->
     format_cipher_key cipher_type key = Some (WireItems (items d)) /\
     parse_cipher_key cipher_type (WireItems (items d)) = Some key) /\
  (forall e n, cipher_type = lit "rsa" -> key = KeyPair e n ->
     format_cipher_key cipher_type key = Some (WireList [e; n]) /\
     parse_cipher_key cipher_type (WireList [e; n]) = Some key) /\
  (cipher_type <> lit "substitution" -> cipher_type <> lit "rsa" ->
     format_cipher_key cipher_type key = Some (WireKey key) /\
     parse_cipher_key cipher_type (WireKey key) = Some key).
Proof.
  split; [|split].
  - intros d -> -> Hnd. split.
    + unfold format_cipher_key. cbn [str_eqb]. rewrite str_eqb_refl.
      do 2 f_equal. unfold items. rewrite <- (map_id d) at 2.
      apply map_ext. now intros [k v].
    + unfold parse_cipher_key. rewrite str_eqb_refl. do 2 f_equal.
      unfold items. now apply (dict_of_items d []).
  - intros e n -> ->. split; reflexivity.
  - intros Hs Hr. unfold format_cipher_key, parse_cipher_key.
    now rewrite !(str_eqb_neq _ _ Hs), !(str_eqb_neq _ _ Hr).
Qed.

Section Text.
Context {U : Unicode}.
Variable int_of_str : str -> result Z.

Lemma caesar_undo (text : str) (shift : Z) :
  Forall printable text ->
  caesar_decrypt (caesar_encrypt text shift) shift = text.
Proof.
  intros Ht. unfold caesar_decrypt. rewrite !caesar_encrypt_map, map_map.
  rewrite <- (map_id text) at 2. apply map_ext_in. intros c Hc.
  rewrite caesar_char_compose, Z.add_opp_diag_r. apply caesar_char_zero.
  rewrite Forall_forall in Ht. now apply Ht.
Qed.

Lemma dispatch_vigenere (plaintext key : str) :
  encrypt_message int_of_str plaintext (lit "vigenere") (KeyStr key)
  = Some (c <- vigenere_encrypt plaintext key ;; Ok (Text c)) /\
  decrypt_message int_of_str (Text plaintext) (lit "vigenere") (KeyStr key)
  = Some (p <- vigenere_decrypt plaintext key ;; Ok (Text p)).
Proof. split; reflexivity. Qed.

Lemma dispatch_substitution (plaintext : str) (key : dict) :
  encrypt_message int_of_str plaintext (lit "substitution") (KeyDict key)
  = Some (c <- substitution_encrypt plaintext key ;; Ok (Text c)) /\
  decrypt_message int_of_str (Text plaintext) (lit "substitution")
    (KeyDict key)
  = Some (p <- substitution_decrypt plaintext key ;; Ok (Text p)).
Proof. split; reflexivity. Qed.

Lemma dispatch_transposition (plaintext key : str) :
  encrypt_message int_of_str plaintext (lit "transposition") (KeyStr key)
  = Some (c <- transposition_encrypt plaintext key ;; Ok (Text c)) /\
  decrypt_message int_of_str (Text plaintext) (lit "transposition")
    (KeyStr key)
  = Some (p <- transposition_decrypt plaintext key ;; Ok (Text p)).
Proof. split; reflexivity. Qed.

Lemma dispatch_rsa (plaintext : str) (blocks : list Z) (e n : Z) :
  encrypt_message int_of_str plaintext (lit "rsa") (KeyPair e n)
  = Some (encrypted <- rsa_encrypt plaintext (e, n) ;; Ok (Blocks encrypted))
  /\
  decrypt_message int_of_str (Blocks blocks) (lit "rsa") (KeyPair e n)
  = Some (p <- rsa_decrypt blocks (e, n) ;; Ok (Text p)).
Proof. split; reflexivity. Qed.

(** X30. [decrypt_message] undoes [encrypt_message] for each cipher type
    under the conditions of its cipher (Caesar on printable ASCII,
    Vigenere on ASCII, substitution on ASCII letters, RSA on what UTF-8
    encodes), up to the trailing X's for the transposition; with any other
    cipher type both return their input unchanged, whatever the key. *)
Theorem decrypt_encrypt_message (plaintext : str) :
  (forall key shift,
     key = KeyInt shift \/
     (exists s, key = KeyStr s /\ int_of_str s = Ok shift) ->
     Forall printable plaintext ->
     exists c,
       encrypt_message int_of_str plaintext (lit "caesar") key = Some (Ok c) /\
       decrypt_message int_of_str c (lit "caesar") key
       = Some (Ok (Text plaintext))) /\
  (forall key,
     upper key <> [] -> ascii_text plaintext ->
     exists c,
       encrypt_message int_of_str plaintext (lit "vigenere") (KeyStr key)
       = Some (Ok c) /\
       decrypt_message int_of_str c (lit "vigenere") (KeyStr key)
       = Some (Ok (Text plaintext))) /\
  (forall shuffled,
     Permutation alphabet shuffled ->
     (forall c, In c plaintext -> isalpha c = true -> ascii_isalpha c = true) ->
     exists c,
       encrypt_message int_of_str plaintext (lit "substitution")
         (KeyDict (generate_substitution_key shuffled)) = Some (Ok c) /\
       decrypt_message int_of_str c (lit "substitution")
         (KeyDict (generate_substitution_key shuffled))
       = Some (Ok (Text plaintext))) /\
  (forall key,
     key <> [] ->
     exists c,
       encrypt_message int_of_str plaintext (lit "transposition") (KeyStr key)
       = Some (Ok c) /\
       decrypt_message int_of_str c (lit "transposition") (KeyStr key)
       = Some (Ok (Text (rstrip 88 plaintext)))) /\
  (forall p q e d n,
     Z.prime p -> Z.prime q -> p <> q ->
     rsa_generate_keypair p q = Ok ((e, n), (d, n)) -> 255 < n ->
     Forall scalar_value plaintext ->
     exists c,
       encrypt_message int_of_str plaintext (lit "rsa") (KeyPair e n)
       = Some (Ok c) /\
       decrypt_message int_of_str c (lit "rsa") (KeyPair d n)
       = Some (Ok (Text plaintext))) /\
  (forall cipher_type key,
     ~ In cipher_type
         (map lit ["caesar"; "vigenere"; "substitution"; "transposition";
                   "rsa"]%string) ->
     encrypt_message int_of_str plaintext cipher_type key
     = Some (Ok (Text plaintext)) /\
     forall c, decrypt_message int_of_str c cipher_type key = Some (Ok c)).
Proof.
  repeat apply conj.
  - intros key shift Hkey Hp.
    exists (Text (caesar_encrypt plaintext shift)).
    destruct Hkey as [->|(s & -> & Hs)];
      unfold encrypt_message, decrypt_message; rewrite str_eqb_refl;
      rewrite ?Hs; cbn [bind]; rewrite caesar_undo by assumption;
      split; reflexivity.
  - intros key Hk Hp.
    destruct (vigenere_undo plaintext key Hk Hp) as (c & Henc & _ & Hdec).
    exists (Text c).
    rewrite (proj1 (dispatch_vigenere _ _)), (proj2 (dispatch_vigenere _ _)).
    rewrite Henc, Hdec. split; reflexivity.
  - intros shuffled Hperm Hp.
    destruct (substitution_roundtrip_letters shuffled plaintext Hperm Hp)
      as (c & Henc & _ & Hdec).
    exists (Text c).
    rewrite (proj1 (dispatch_substitution _ _)),
      (proj2 (dispatch_substitution _ _)).
    rewrite Henc, Hdec. split; reflexivity.
  - intros key Hk.
    destruct (transposition_roundtrip plaintext key Hk) as (c & Henc & _ & Hdec).
    exists (Text c).
    rewrite (proj1 (dispatch_transposition _ _)),
      (proj2 (dispatch_transposition _ _)).
    rewrite Henc, Hdec. split; reflexivity.
  - intros p q e d n Hp Hq Hpq Hkey Hn Htext.
    destruct (rsa_roundtrip_scalar p q e d n plaintext Hp Hq Hpq Hkey Hn Htext)
      as (c & Henc & Hdec).
    exists (Blocks c).
    rewrite (proj1 (dispatch_rsa _ c _ _)), (proj2 (dispatch_rsa plaintext _ _ _)).
    rewrite Henc, Hdec. split; reflexivity.
  - intros cipher_type key Hother. cbn [map In] in Hother.
    assert (H1 : str_eqb cipher_type (lit "caesar") = false)
      by (apply str_eqb_neq; intros ->; apply Hother; auto).
    assert (H2 : str_eqb cipher_type (lit "vigenere") = false)
      by (apply str_eqb_neq; intros ->; apply Hother; auto).
    assert (H3 : str_eqb cipher_type (lit "substitution") = false)
      by (apply str_eqb_neq; intros ->; apply Hother; auto).
    assert (H4 : str_eqb cipher_type (lit "transposition") = false)
      by (apply str_eqb_neq; intros ->; apply Hother; auto).
    assert (H5 : str_eqb cipher_type (lit "rsa") = false)
      by (apply str_eqb_neq; intros ->; apply Hother; auto 6).
    unfold encrypt_message, decrypt_message.
    rewrite H1, H2, H3, H4, H5. split; [reflexivity|]. intros c. reflexivity.
Qed.

End Text.
End ProtocolTheory.

(* ===================================================================== *)
(** * Part III: runs on concrete inputs                                   *)
(* ===================================================================== *)

Section Runs.
#[local] Existing Instance latin1.
Import Ciphers CaesarBreaker CaesarTheory ArithTheory PrimeTheory RsaTheory.
Import SubstitutionTheory TranspositionTheory BreakerTheory.
Import CaesarAlgebra BruteForceTheory VigenereTheory EuclidTheory.
Import PrimeSearchTheory KeyPairTheory Utf8Theory SubstitutionRoundTrip.
Import TranspositionErrors BreakerTotality.

(** A run of C1 on a mixed-case text with punctuation and a negative shift. *)
Lemma caesar_roundtrip_witness :
  Forall printable (lit "Hello, World!") /\
  caesar_decrypt (caesar_encrypt (lit "Hello, World!") (-29)) (-29)
  = lit "Hello, World!".
Proof.
  assert (H : Forall printable (lit "Hello, World!")).
  { repeat constructor; simpl; lia. }
  split; [exact H|].
  exact (proj1 (caesar_roundtrip _ (-29) H)).
Defined.

(** A run of C7: the inverse of 65537 modulo 288 = 16 * 18. *)
Lemma mod_inverse_spec_witness :
  0 <= 65537 /\ 1 < 288 /\ Z.gcd 65537 288 = 1 /\
  exists d, mod_inverse 65537 288 = Ok d /\ 0 <= d < 288 /\
            (65537 * d) mod 288 = 1.
Proof.
  assert (He : 0 <= 65537) by lia.
  assert (Hphi : 1 < 288) by lia.
  assert (Hg : Z.gcd 65537 288 = 1) by reflexivity.
  repeat (split; [assumption|]).
  exact (proj2 (proj2 (proj2 (mod_inverse_spec 65537 288 He Hphi))) Hg).
Defined.

Lemma prime_17 : Z.prime 17.
Proof. apply small_divisor_free_prime; [lia|reflexivity..]. Qed.

Lemma prime_19 : Z.prime 19.
Proof. apply small_divisor_free_prime; [lia|reflexivity..]. Qed.


(** The claim C4 fails on it: decryption raises nothing and returns a text,
    although the text that was encrypted is lost. *)
Lemma substitution_collision_silent :
  dict_get colliding_key (lit "A") = Ok (lit "B") /\
  dict_get colliding_key (lit "B") = Ok (lit "B") /\
  substitution_encrypt (lit "ABBA") colliding_key = Ok (lit "BBBB") /\
  substitution_decrypt (lit "BBBB") colliding_key = Ok (lit "BBBB").
Proof. repeat split; vm_compute; reflexivity. Qed.

(** A run of C10: the key of the reversed alphabet and a text with an
    e acute (U+00E9). *)
Lemma substitution_foreign_letter_witness :
  Permutation alphabet (rev alphabet) /\
  In 233 [99; 97; 102; 233] /\
  isalpha 233 = true /\ ascii_isalpha 233 = false /\
  substitution_encrypt [99; 97; 102; 233]
    (generate_substitution_key (rev alphabet)) = Raise KeyError /\
  substitution_decrypt [99; 97; 102; 233]
    (generate_substitution_key (rev alphabet)) = Raise KeyError.
Proof.
  assert (Hperm : Permutation alphabet (rev alphabet))
    by apply Permutation_rev.
  assert (Hin : In 233 [99; 97; 102; 233]) by (simpl; tauto).
  assert (Ha : isalpha 233 = true) by reflexivity.
  assert (Hc : ascii_isalpha 233 = false) by reflexivity.
  repeat (split; [assumption|]).
  pose proof (substitution_foreign_letter (rev alphabet) [99; 97; 102; 233]
                233 Hperm Hin Ha Hc) as H.
  exact (conj (proj1 H) (proj1 (proj2 H))).
Defined.

(** Two runs of the transposition cipher with digit keys: the round trip
    gives the text back, and loses the X a text ends with. *)
Lemma transposition_hello :
  transposition_encrypt (lit "HELLO WORLD") (lit "4312")
  = Ok (lit "LWDLOXE LHOR") /\
  transposition_decrypt (lit "LWDLOXE LHOR") (lit "4312")
  = Ok (lit "HELLO WORLD").
Proof. split; vm_compute; reflexivity. Qed.

Lemma transposition_trailing_filler :
  transposition_encrypt (lit "FAX") (lit "21") = Ok (lit "AXFX") /\
  transposition_decrypt (lit "AXFX") (lit "21") = Ok (lit "FA").
Proof. split; vm_compute; reflexivity. Qed.

(** A run of the round trip and of the length of the ciphertext with a word
    key. *)
Lemma transposition_roundtrip_witness :
  lit "SECRET" <> [] /\
  exists ciphertext,
    transposition_encrypt (lit "ATTACK AT DAWN") (lit "SECRET")
    = Ok ciphertext /\
    len ciphertext
    = len (numeric_key (lit "SECRET"))
      * ((len (lit "ATTACK AT DAWN") + len (numeric_key (lit "SECRET")) - 1)
         / len (numeric_key (lit "SECRET"))) /\
    transposition_decrypt ciphertext (lit "SECRET")
    = Ok (rstrip 88 (lit "ATTACK AT DAWN")).
Proof.
  assert (Hkey : lit "SECRET" <> []) by discriminate.
  exact (conj Hkey (transposition_roundtrip _ _ Hkey)).
Defined.

Lemma transposition_encrypt_multiple_witness :
  lit "SECRET" <> [] /\
  (isdigit (lit "SECRET") = true \/ len (lit "SECRET") <= 9) /\
  exists ciphertext,
    transposition_encrypt (lit "ATTACK AT DAWN") (lit "SECRET")
    = Ok ciphertext /\
    len ciphertext mod len (lit "SECRET") = 0.
Proof.
  assert (Hkey : lit "SECRET" <> []) by discriminate.
  assert (Hshape : isdigit (lit "SECRET") = true \/ len (lit "SECRET") <= 9)
    by (right; vm_compute; discriminate).
  exact (conj Hkey (conj Hshape (transposition_encrypt_multiple _ _ Hkey Hshape))).
Defined.

(** C3 at a word key of ten letters: the ranks 1 to 10 are joined into
    eleven digits, the grid has eleven columns, and the length of the
    ciphertext is no multiple of the length of the key. *)
Lemma transposition_long_word_key :
  numeric_key (lit "ABCDEFGHIJ") = lit "12345678910" /\
  transposition_encrypt (lit "A") (lit "ABCDEFGHIJ") = Ok (lit "XAXXXXXXXXX") /\
  len (lit "XAXXXXXXXXX") mod len (lit "ABCDEFGHIJ") = 1.
Proof. repeat split; vm_compute; reflexivity. Qed.

(** C9 at a ciphertext without letters: every score is infinite, no
    candidate replaces the initial empty [best_decryption], and the empty
    string is returned in place of the candidate of shift 0. *)
Lemma break_caesar_frequency_no_letters :
  calculate_frequency_score (lit "123") (lit "english") = Ok infinity /\
  caesar_decrypt_with_shift (lit "123") 0 = lit "123" /\
  break_caesar_frequency (lit "123") (lit "english") = Ok ([], 0, 0%float).
Proof. repeat split; vm_compute; reflexivity. Qed.

Lemma pangram_scores :
  forall i, 0 <= i <= 25 -> is_nan (score pangram (lit "english") i) = false.
Proof.
  assert (Hall : forallb
            (fun i => negb (is_nan (score pangram (lit "english") i)))
            (range 26) = true) by (vm_compute; reflexivity).
  rewrite forallb_forall in Hall. intros i Hi.
  apply negb_true_iff, Hall, in_range. lia.
Qed.

(** A run of C5 on the pangram shifted by 3. *)
Lemma break_caesar_frequency_best_witness :
  (forall i, 0 <= i <= 25 ->
             is_nan (score pangram (lit "english") i) = false) /\
  exists best_decryption best_shift confidence,
    break_caesar_frequency pangram (lit "english")
      = Ok (best_decryption, best_shift, confidence) /\
    0 <= best_shift <= 25 /\
    (forall i, 0 <= i <= 25 ->
       (score pangram (lit "english") i
        <? score pangram (lit "english") best_shift)%float = false) /\
    (forall i, 0 <= i < best_shift ->
       (score pangram (lit "english") best_shift
        <? score pangram (lit "english") i)%float = true) /\
    confidence =
      match split best_decryption with
      | [] => 0%float
      | words =>
          (float_of_int (words_found pangram (lit "english") best_shift)
           / float_of_int (len words) * float_of_int 100)%float
      end /\
    ((exists i, 0 <= i <= 25 /\
                (score pangram (lit "english") i <? infinity)%float = true) ->
     best_decryption = decrypted pangram best_shift).
Proof.
  exact (conj pangram_scores
           (break_caesar_frequency_best pangram (lit "english") pangram_scores)).
Defined.

Lemma pangram_broken :
  break_caesar_frequency pangram (lit "english")
  = Ok (lit "THE QUICK BROWN FOX JUMPS OVER THE LAZY DOG", 3,
        33.333333333333329%float).
Proof. vm_compute. reflexivity. Qed.


(** A run of X2 on a word with an accented capital, in Latin-1. *)
Lemma caesar_roundtrip_foreign_witness :
  In 201 [201; 116; 233] /\
  (isupper 201 = true \/ islower 201 = true) /\
  is_ascii 201 = false /\
  caesar_decrypt (caesar_encrypt [201; 116; 233] 3) 3 <> [201; 116; 233] /\
  Forall (fun c' => isupper c' = true \/ islower c' = true ->
                    is_ascii c' = true)
    (caesar_encrypt [201; 116; 233] 3).
Proof.
  assert (Hin : In 201 [201; 116; 233]) by (left; reflexivity).
  assert (Hcased : isupper 201 = true \/ islower 201 = true)
    by (left; reflexivity).
  assert (Hforeign : is_ascii 201 = false) by reflexivity.
  exact (conj Hin (conj Hcased (conj Hforeign
           (caesar_roundtrip_foreign [201; 116; 233] 3 201
              Hin Hcased Hforeign)))).
Defined.

(** A run of X3 on a mixed-case text with a mixed-case key. *)
Lemma vigenere_roundtrip_witness :
  upper (lit "Key") <> [] /\
  ascii_text (lit "Hello, World!") /\
  exists ciphertext,
    vigenere_encrypt (lit "Hello, World!") (lit "Key") = Ok ciphertext /\
    len ciphertext = len (lit "Hello, World!") /\
    vigenere_decrypt ciphertext (lit "Key") = Ok (lit "Hello, World!").
Proof.
  assert (Hkey : upper (lit "Key") <> []) by (vm_compute; discriminate).
  assert (Htext : ascii_text (lit "Hello, World!"))
    by (repeat constructor).
  exact (conj Hkey (conj Htext
           (vigenere_roundtrip (lit "Hello, World!") (lit "Key") Hkey Htext))).
Defined.

(** A run of X5 with the key d, a shift of 3. *)
Lemma vigenere_single_letter_witness :
  is_ascii 100 = true /\
  ascii_text (lit "Hello, World!") /\
  vigenere_encrypt (lit "Hello, World!") [100]
  = Ok (caesar_encrypt (lit "Hello, World!") (ascii_upper 100 - 65)) /\
  vigenere_decrypt (lit "Hello, World!") [100]
  = Ok (caesar_decrypt (lit "Hello, World!") (ascii_upper 100 - 65)).
Proof.
  assert (Hkey : is_ascii 100 = true) by reflexivity.
  assert (Htext : ascii_text (lit "Hello, World!"))
    by (repeat constructor).
  exact (conj Hkey (conj Htext
           (vigenere_single_letter (lit "Hello, World!") 100 Hkey Htext))).
Defined.

(** A run of X6 with a shift beyond 25. *)
Lemma brute_force_finds_witness :
  Forall printable (lit "Hello, World!") /\
  getitem (break_caesar_brute_force (caesar_encrypt (lit "Hello, World!") 29))
    (29 mod 26)
  = Ok (29 mod 26, lit "Hello, World!").
Proof.
  assert (Htext : Forall printable (lit "Hello, World!"))
    by (repeat constructor; unfold printable; cbn; lia).
  exact (conj Htext (brute_force_finds (lit "Hello, World!") 29 Htext)).
Defined.

(** A run of X8: five bits, the draw 4 gives 21, which is rejected, the
    draw 1 gives 17. *)
Lemma generate_prime_shape_witness :
  (forall a, In a [(4, fun _ : nat => 2); (1, fun _ : nat => 2)] ->
     0 <= fst a < 2 ^ 5) /\
  generate_prime [(4, fun _ : nat => 2); (1, fun _ : nat => 2)] 5
  = Ok (Some 17) /\
  1 <= 5 /\ 2 ^ (5 - 1) <= 17 < 2 ^ 5 /\ 17 mod 2 = 1 /\
  exists before raw draw after,
    [(4, fun _ : nat => 2); (1, fun _ : nat => 2)]
    = before ++ (raw, draw) :: after /\
    17 = Z.lor raw (Z.lor (Z.shiftl 1 (5 - 1)) 1) /\
    is_prime draw 17 5 = true /\
    forall a, In a before ->
      is_prime (snd a) (Z.lor (fst a) (Z.lor (Z.shiftl 1 (5 - 1)) 1)) 5
      = false.
Proof.
  assert (Hdraws : forall a,
            In a [(4, fun _ : nat => 2); (1, fun _ : nat => 2)] ->
            0 <= fst a < 2 ^ 5)
    by (intros a [<-|[<-|[]]]; cbn; lia).
  assert (Hrun : generate_prime
                   [(4, fun _ : nat => 2); (1, fun _ : nat => 2)] 5
                 = Ok (Some 17)) by reflexivity.
  exact (conj Hdraws (conj Hrun
           (generate_prime_shape _ 5 17 Hdraws Hrun))).
Defined.

(** A run of X9: the candidate 17 of the second turn is prime. *)
Lemma generate_prime_accepts_witness :
  1 <= 5 /\
  Z.prime (Z.lor 1 (Z.lor (Z.shiftl 1 (5 - 1)) 1)) /\
  (forall i, (i < 5)%nat ->
     2 <= (fun _ : nat => 2) i
       <= Z.lor 1 (Z.lor (Z.shiftl 1 (5 - 1)) 1) - 2) /\
  exists num,
    generate_prime
      ([(4, fun _ : nat => 2)] ++ (1, fun _ : nat => 2) :: []) 5
    = Ok (Some num) /\
    (num = Z.lor 1 (Z.lor (Z.shiftl 1 (5 - 1)) 1) \/
     exists a, In a [(4, fun _ : nat => 2)] /\
               num = Z.lor (fst a) (Z.lor (Z.shiftl 1 (5 - 1)) 1)).
Proof.
  assert (Hbits : 1 <= 5) by lia.
  assert (Hprime : Z.prime (Z.lor 1 (Z.lor (Z.shiftl 1 (5 - 1)) 1)))
    by exact prime_17.
  assert (Hdraw : forall i, (i < 5)%nat ->
            2 <= (fun _ : nat => 2) i
              <= Z.lor 1 (Z.lor (Z.shiftl 1 (5 - 1)) 1) - 2)
    by (intros i _; cbn; lia).
  exact (conj Hbits (conj Hprime (conj Hdraw
           (generate_prime_accepts [(4, fun _ : nat => 2)] [] 5 1
              (fun _ : nat => 2) Hbits Hprime Hdraw)))).
Defined.

(** A run of X11 on the primes 17 and 19. *)
Lemma rsa_generate_keypair_wellformed_witness :
  2 <= 17 /\ 2 <= 19 /\ 1 < (17 - 1) * (19 - 1) /\
  exists e d,
    rsa_generate_keypair 17 19 = Ok ((e, 17 * 19), (d, 17 * 19)) /\
    3 <= e /\ 0 <= d < (17 - 1) * (19 - 1) /\
    (e * d) mod ((17 - 1) * (19 - 1)) = 1 /\
    Z.gcd e ((17 - 1) * (19 - 1)) = 1.
Proof.
  assert (Hp : 2 <= 17) by lia.
  assert (Hq : 2 <= 19) by lia.
  assert (Hphi : 1 < (17 - 1) * (19 - 1)) by lia.
  exact (conj Hp (conj Hq (conj Hphi
           (rsa_generate_keypair_wellformed 17 19 Hp Hq Hphi)))).
Defined.

(** A run of X12: 17 and 19 as [generate_prime] finds them with 5 bits. *)
Lemma generated_modulus_witness :
  5 <= 5 /\
  (forall a, In a [(1, fun _ : nat => 2)] -> 0 <= fst a < 2 ^ 5) /\
  (forall a, In a [(3, fun _ : nat => 2)] -> 0 <= fst a < 2 ^ 5) /\
  generate_prime [(1, fun _ : nat => 2)] 5 = Ok (Some 17) /\
  generate_prime [(3, fun _ : nat => 2)] 5 = Ok (Some 19) /\
  exists e d,
    rsa_generate_keypair 17 19 = Ok ((e, 17 * 19), (d, 17 * 19)) /\
    2 ^ (2 * 5 - 2) <= 17 * 19 < 2 ^ (2 * 5) /\ 255 < 17 * 19.
Proof.
  assert (Hbits : 5 <= 5) by lia.
  assert (Hp : forall a, In a [(1, fun _ : nat => 2)] -> 0 <= fst a < 2 ^ 5)
    by (intros a [<-|[]]; cbn; lia).
  assert (Hq : forall a, In a [(3, fun _ : nat => 2)] -> 0 <= fst a < 2 ^ 5)
    by (intros a [<-|[]]; cbn; lia).
  assert (Hrun_p : generate_prime [(1, fun _ : nat => 2)] 5 = Ok (Some 17))
    by reflexivity.
  assert (Hrun_q : generate_prime [(3, fun _ : nat => 2)] 5 = Ok (Some 19))
    by reflexivity.
  exact (conj Hbits (conj Hp (conj Hq (conj Hrun_p (conj Hrun_q
           (generated_modulus _ _ 5 17 19 Hbits Hp Hq Hrun_p Hrun_q)))))).
Defined.

(** A run of X13 on a word with an accent and a character beyond the
    basic plane. *)
Lemma rsa_roundtrip_unicode_witness :
  Z.prime 17 /\ Z.prime 19 /\ 17 <> 19 /\
  rsa_generate_keypair 17 19 = Ok ((65537, 323), (161, 323)) /\
  255 < 323 /\
  Forall scalar_value [99; 97; 102; 233; 8364; 128512] /\
  exists encrypted,
    rsa_encrypt [99; 97; 102; 233; 8364; 128512] (65537, 323)
    = Ok encrypted /\
    rsa_decrypt encrypted (161, 323) = Ok [99; 97; 102; 233; 8364; 128512].
Proof.
  assert (Hne : 17 <> 19) by lia.
  assert (Hkey : rsa_generate_keypair 17 19
                 = Ok ((65537, 323), (161, 323))) by reflexivity.
  assert (Hn : 255 < 323) by lia.
  assert (Htext : Forall scalar_value [99; 97; 102; 233; 8364; 128512])
    by (repeat constructor; unfold scalar_value; lia).
  exact (conj prime_17 (conj prime_19 (conj Hne (conj Hkey (conj Hn
           (conj Htext
              (rsa_roundtrip_unicode 17 19 65537 161 323 _
                 prime_17 prime_19 Hne Hkey Hn Htext))))))).
Defined.

(** A run of X15 on blocks of which one decrypts to 300. *)
Lemma rsa_decrypt_errors_witness :
  0 <= 161 /\ 0 < 323 /\
  (rsa_decrypt [36; 300 ^ 65537 mod 323] (161, 323) = Raise ValueError <->
   exists c, In c [36; 300 ^ 65537 mod 323] /\ 255 < c ^ 161 mod 323) /\
  (forall e, rsa_decrypt [36; 300 ^ 65537 mod 323] (161, 323) = Raise e ->
             e = ValueError \/ e = UnicodeDecodeError) /\
  (323 <= 256 ->
   forall e, rsa_decrypt [36; 300 ^ 65537 mod 323] (161, 323) = Raise e ->
             e = UnicodeDecodeError).
Proof.
  assert (Hd : 0 <= 161) by lia.
  assert (Hn : 0 < 323) by lia.
  exact (conj Hd (conj Hn
           (rsa_decrypt_errors [36; 300 ^ 65537 mod 323] 161 323 Hd Hn))).
Defined.

(** A run of X16 with a key that swaps a and b, on a text with no other
    letter. *)
Lemma substitution_roundtrip_one_to_one_witness :
  NoDup (map snd [([97], [98]); ([98], [97])]) /\
  (forall k v, In (k, v) [([97], [98]); ([98], [97])] ->
     exists c, v = [c] /\ isalpha c = true) /\
  (forall c, In c [97; 98; 98; 97; 33] -> isalpha c = true ->
     In [c] (map fst [([97], [98]); ([98], [97])])) /\
  exists ciphertext,
    substitution_encrypt [97; 98; 98; 97; 33] [([97], [98]); ([98], [97])]
    = Ok ciphertext /\
    len ciphertext = len [97; 98; 98; 97; 33] /\
    substitution_decrypt ciphertext [([97], [98]); ([98], [97])]
    = Ok [97; 98; 98; 97; 33].
Proof.
  assert (Hvalues : NoDup (map snd [([97], [98]); ([98], [97])])).
  { repeat constructor; cbn; intros H; decompose [or] H;
      try discriminate; assumption. }
  assert (Hletters : forall k v, In (k, v) [([97], [98]); ([98], [97])] ->
            exists c, v = [c] /\ isalpha c = true).
  { intros k v [H|[H|[]]]; injection H as <- <-;
      eexists; split; reflexivity. }
  assert (Hdomain : forall c, In c [97; 98; 98; 97; 33] ->
            isalpha c = true ->
            In [c] (map fst [([97], [98]); ([98], [97])])).
  { intros c Hc Ha.
    repeat (destruct Hc as [<-|Hc];
            [first [discriminate Ha | cbn; tauto]|]).
    destruct Hc. }
  exact (conj Hvalues (conj Hletters (conj Hdomain
           (substitution_roundtrip_one_to_one _ _
              Hvalues Hletters Hdomain)))).
Defined.

(** A run of X17 with the alphabet reversed. *)
Lemma substitution_roundtrip_witness :
  Permutation alphabet (rev alphabet) /\
  (forall c, In c (lit "Hello, World!") -> isalpha c = true ->
     ascii_isalpha c = true) /\
  exists ciphertext,
    substitution_encrypt (lit "Hello, World!")
      (generate_substitution_key (rev alphabet)) = Ok ciphertext /\
    len ciphertext = len (lit "Hello, World!") /\
    substitution_decrypt ciphertext
      (generate_substitution_key (rev alphabet))
    = Ok (lit "Hello, World!").
Proof.
  assert (Hshuffle : Permutation alphabet (rev alphabet))
    by apply Permutation_rev.
  assert (Htext : forall c, In c (lit "Hello, World!") ->
            isalpha c = true -> ascii_isalpha c = true).
  { intros c Hc Ha.
    repeat (destruct Hc as [<-|Hc];
            [first [reflexivity | discriminate Ha]|]).
    destruct Hc. }
  exact (conj Hshuffle (conj Htext
           (substitution_roundtrip (rev alphabet) (lit "Hello, World!")
              Hshuffle Htext))).
Defined.

(** A run of X20 with a word key. *)
Lemma transposition_decrypt_encrypt_witness :
  lit "SECRET" <> [] /\
  exists ciphertext,
    transposition_encrypt (lit "ATTACK AT DAWN") (lit "SECRET")
    = Ok ciphertext /\
    transposition_decrypt ciphertext (lit "SECRET")
    = Ok (rstrip 88 (lit "ATTACK AT DAWN")) /\
    ((forall t, lit "ATTACK AT DAWN" <> t ++ [88]) ->
     transposition_decrypt ciphertext (lit "SECRET")
     = Ok (lit "ATTACK AT DAWN")) /\
    (forall t, lit "ATTACK AT DAWN" = t ++ [88] ->
     transposition_decrypt ciphertext (lit "SECRET")
     <> Ok (lit "ATTACK AT DAWN")).
Proof.
  assert (Hkey : lit "SECRET" <> []) by discriminate.
  exact (conj Hkey
           (transposition_decrypt_encrypt (lit "ATTACK AT DAWN")
              (lit "SECRET") Hkey)).
Defined.

(** A run of X21 with a digit key of four columns. *)
Lemma transposition_ciphertext_length_witness :
  lit "3142" <> [] /\
  exists ciphertext,
    transposition_encrypt (lit "ATTACK AT DAWN") (lit "3142")
    = Ok ciphertext /\
    len ciphertext mod len (numeric_key (lit "3142")) = 0 /\
    len (lit "ATTACK AT DAWN") <= len ciphertext
      < len (lit "ATTACK AT DAWN") + len (numeric_key (lit "3142")) /\
    (isdigit (lit "3142") = true \/ len (lit "3142") <= 9 ->
     len (numeric_key (lit "3142")) = len (lit "3142") /\
     len ciphertext mod len (lit "3142") = 0).
Proof.
  assert (Hkey : lit "3142" <> []) by discriminate.
  exact (conj Hkey
           (transposition_ciphertext_length (lit "ATTACK AT DAWN")
              (lit "3142") Hkey)).
Defined.

(** A run of X22 with a word key of five columns. *)
Lemma transposition_rearranges_witness :
  lit "ZEBRA" <> [] /\
  exists ciphertext padding,
    transposition_encrypt (lit "ATTACK AT DAWN") (lit "ZEBRA")
    = Ok ciphertext /\
    Permutation ciphertext (lit "ATTACK AT DAWN" ++ repeat 88 padding) /\
    (padding < List.length (numeric_key (lit "ZEBRA")))%nat.
Proof.
  assert (Hkey : lit "ZEBRA" <> []) by discriminate.
  exact (conj Hkey
           (transposition_rearranges (lit "ATTACK AT DAWN") (lit "ZEBRA")
              Hkey)).
Defined.

(** A run of X24 on digits and punctuation. *)
Lemma break_caesar_frequency_letterless_witness :
  letterless (lit "123 456!") /\
  break_caesar_frequency (lit "123 456!") (lit "english")
  = Ok ([], 0, 0%float).
Proof.
  assert (Htext : letterless (lit "123 456!"))
    by (repeat constructor).
  exact (conj Htext
           (break_caesar_frequency_letterless (lit "123 456!")
              (lit "english") Htext)).
Defined.

(** A run of X28 with a language the tables do not have. *)
Lemma unknown_language_witness :
  lit "german" <> lit "english" /\
  calculate_frequency_score (lit "Guten Tag") (lit "german")
  = calculate_frequency_score (lit "Guten Tag") (lit "french") /\
  count_dictionary_words (lit "Guten Tag") (lit "german")
  = count_dictionary_words (lit "Guten Tag") (lit "french") /\
  break_caesar_frequency (lit "Guten Tag") (lit "german")
  = break_caesar_frequency (lit "Guten Tag") (lit "french").
Proof.
  assert (Hlanguage : lit "german" <> lit "english") by discriminate.
  exact (conj Hlanguage
           (unknown_language (lit "Guten Tag") (lit "german") Hlanguage)).
Defined.

(** A run of X14 on a word with an accent. *)
Lemma rsa_encrypt_errors_witness :
  0 <= 65537 /\ 0 < 323 /\
  (rsa_encrypt [99; 97; 102; 233] (65537, 323) = Raise UnicodeEncodeError <->
   exists c, In c [99; 97; 102; 233] /\ 55296 <= c <= 57343) /\
  (forall err, rsa_encrypt [99; 97; 102; 233] (65537, 323) = Raise err ->
               err = UnicodeEncodeError) /\
  (forall encrypted,
     rsa_encrypt [99; 97; 102; 233] (65537, 323) = Ok encrypted ->
     exists message_bytes,
       utf8_encode [99; 97; 102; 233] = Ok message_bytes /\
       encrypted = map (fun byte => byte ^ 65537 mod 323) message_bytes /\
       len encrypted = len message_bytes /\
       Forall (fun c => 0 <= c < 323) encrypted).
Proof.
  assert (He : 0 <= 65537) by lia.
  assert (Hn : 0 < 323) by lia.
  exact (conj He (conj Hn
           (rsa_encrypt_errors [99; 97; 102; 233] 65537 323 He Hn))).
Defined.



End Runs.
